(** * panlog: the rotating log writer and its logger

    A shallow embedding of [LogRotator] and of the part of the Go runtime
    and of the operating system it talks to, followed by the properties of
    the rotation engine.

    Layout:
    - [GoString], [Filepath], [Errors], [GoTime], [PathMatch]: the library
      functions the rotator calls ([strings.HasSuffix], [filepath.Ext],
      [time.Truncate], [filepath.Match], ...);
    - [OS]: a model of the file system with injectable failures and a
      trace of the calls made;
    - [Rotator]: the methods of [LogRotator], one definition per Go
      function, in state-passing style; [Sample]: a runtime to run them;
    - [Logrus], [Logger]: the logger that wraps the rotator, and what it
      takes from logrus; [SampleLogrus]: a sample of the latter;
    - the vocabulary of the statements and the worlds of the examples;
    - the properties of the rotation engine, then those of the rest of
      the rotator and of the logger. *)

From Stdlib Require Import ZArith Ascii String List Lia Bool Sorting.Sorted
  Sorting.Permutation.
From stdpp Require Import base option list gmap strings sorting.

Set Warnings "-clear-no-such-hyp".

Local Open Scope string_scope.
Local Open Scope list_scope.
Local Open Scope Z_scope.

(** ** Go strings *)

Module GoString.

(** [strings.HasSuffix(s, suffix)]:
    [len(s) >= len(suffix) && s[len(s)-len(suffix):] == suffix]. *)
Definition HasSuffix (s suffix : string) : bool :=
  (String.length suffix <=? String.length s)%nat &&
  String.eqb
    (String.substring (String.length s - String.length suffix)
                      (String.length suffix) s)
    suffix.

(** [strings.TrimSuffix(s, suffix)]. *)
Definition TrimSuffix (s suffix : string) : string :=
  if HasSuffix s suffix
  then String.substring 0 (String.length s - String.length suffix) s
  else s.

(** [strings.Contains(s, string(c))] for a single byte [c]. *)
Fixpoint ContainsByte (s : string) (c : ascii) : bool :=
  match s with
  | EmptyString => false
  | String a s' => Ascii.eqb a c || ContainsByte s' c
  end.

End GoString.

(** ** path/filepath (Unix flavour: separator '/', no volume names) *)

Module Filepath.
Import GoString.

Definition Separator : ascii := "/"%char.
Definition IsPathSeparator (c : ascii) : bool := Ascii.eqb c Separator.

(** [Ext] scans the path from its end: the extension starts at the last
    dot of the last element; no dot in the last element, no extension.
    [ext_scan] walks the reversed path, [acc] being what was walked. *)
Fixpoint ext_scan (rev_path acc : list ascii) : list ascii :=
  match rev_path with
  | [] => []
  | c :: rest =>
      if IsPathSeparator c then []
      else if Ascii.eqb c "."%char then c :: acc
      else ext_scan rest (c :: acc)
  end.

Definition Ext (path : string) : string :=
  string_of_list_ascii (ext_scan (rev (list_ascii_of_string path)) []).

(** Splitting a path at its separators: ["a//b"] gives ["a"; ""; "b"]. *)
Fixpoint split_sep (p : list ascii) (cur : list ascii) : list (list ascii) :=
  match p with
  | [] => [rev cur]
  | c :: rest =>
      if IsPathSeparator c then rev cur :: split_sep rest []
      else split_sep rest (c :: cur)
  end.

Definition dot : list ascii := ["."%char].
Definition dotdot : list ascii := ["."%char; "."%char].

(** The element loop of [Clean]. [out] is the stack of elements already
    emitted (most recent first); "..": pop an element when there is one
    to backtrack over, keep the ".." when the path is not rooted, drop
    it at the root. *)
Fixpoint clean_elems (rooted : bool) (elems : list (list ascii))
    (out : list (list ascii)) : list (list ascii) :=
  match elems with
  | [] => rev out
  | e :: rest =>
      if decide (e = []) then clean_elems rooted rest out
      else if decide (e = dot) then clean_elems rooted rest out
      else if decide (e = dotdot) then
        match out with
        | top :: out' =>
            if decide (top = dotdot)
            then clean_elems rooted rest (e :: out)
            else clean_elems rooted rest out'
        | [] =>
            if rooted then clean_elems rooted rest out
            else clean_elems rooted rest (e :: out)
        end
      else clean_elems rooted rest (e :: out)
  end.

Fixpoint join_sep (elems : list (list ascii)) : list ascii :=
  match elems with
  | [] => []
  | [e] => e
  | e :: rest => e ++ Separator :: join_sep rest
  end.

(** [filepath.Clean]. *)
Definition Clean (path : string) : string :=
  match list_ascii_of_string path with
  | [] => "."
  | (c :: _) as p =>
      let rooted := IsPathSeparator c in
      let body := join_sep (clean_elems rooted (split_sep p []) []) in
      if rooted then string_of_list_ascii (Separator :: body)
      else match body with
           | [] => "."
           | _ => string_of_list_ascii body
           end
  end.

(** Length of the path up to and including its last separator. *)
Fixpoint last_sep (p : list ascii) (pos : nat) (found : nat) : nat :=
  match p with
  | [] => found
  | c :: rest =>
      if IsPathSeparator c then last_sep rest (S pos) (S pos)
      else last_sep rest (S pos) found
  end.

(** [filepath.Dir]: everything up to the last separator, cleaned. *)
Definition Dir (path : string) : string :=
  let i := last_sep (list_ascii_of_string path) 0 0 in
  Clean (String.substring 0 i path).

Fixpoint strip_trailing_sep (rev_path : list ascii) : list ascii :=
  match rev_path with
  | c :: rest => if IsPathSeparator c then strip_trailing_sep rest
                 else rev_path
  | [] => []
  end.

Fixpoint take_elem (rev_path acc : list ascii) : list ascii :=
  match rev_path with
  | [] => acc
  | c :: rest => if IsPathSeparator c then acc else take_elem rest (c :: acc)
  end.

(** [filepath.Base]: the last element, trailing separators removed. *)
Definition Base (path : string) : string :=
  match path with
  | EmptyString => "."
  | _ =>
      match strip_trailing_sep (rev (list_ascii_of_string path)) with
      | [] => "/"
      | r => string_of_list_ascii (take_elem r [])
      end
  end.

(** [filepath.Join(dir, name)] for two elements. *)
Definition Join (a b : string) : string :=
  match a, b with
  | EmptyString, EmptyString => ""
  | EmptyString, _ => Clean b
  | _, _ => Clean (a +:+ "/" +:+ b)
  end.

End Filepath.

(** ** Go error values *)

Module Errors.

Inductive Errno := ENOENT | EACCES | ENOSPC | EIO | EISDIR | EMFILE.

(** The error values the rotator can see: the sentinels of [os] and
    [path/filepath], raw system errors, the wrappers [*os.PathError] and
    [*os.LinkError], and what [fmt.Errorf] builds, with ([%w]) or
    without a wrapped error. *)
Inductive error :=
| ErrClosed                      (* os.ErrClosed: "file already closed" *)
| ErrInvalid                     (* os.ErrInvalid: "invalid argument" *)
| ErrBadPattern                  (* filepath.ErrBadPattern *)
| SyscallError (e : Errno)
| PathError (op path : string) (err : error)
| LinkError (op old new : string) (err : error)
| ErrorNew (msg : string)
| Wrap (msg : string) (err : error).

#[global] Instance Errno_eq_dec : EqDecision Errno.
Proof. solve_decision. Defined.

#[global] Instance error_eq_dec : EqDecision error.
Proof. solve_decision. Defined.

(** [errors.Unwrap]. *)
Definition Unwrap (e : error) : option error :=
  match e with
  | PathError _ _ err | LinkError _ _ _ err | Wrap _ err => Some err
  | _ => None
  end.

(** [errors.Is(e, target)] for a sentinel [target]: follow the chain of
    wrapped errors. *)
Fixpoint Is (e target : error) : bool :=
  bool_decide (e = target) ||
  match e with
  | PathError _ _ err | LinkError _ _ _ err | Wrap _ err => Is err target
  | _ => false
  end.

End Errors.

(** ** time *)

Module GoTime.

(** A [time.Time] is the number of nanoseconds since the Unix epoch;
    a [time.Duration] is a number of nanoseconds. *)
Definition Time := Z.
Definition Duration := Z.

Definition Second : Duration := 1000000000.
Definition Hour : Duration := 3600 * Second.

(** The zero [time.Time] (1 January of year 1, UTC) lies this many
    nanoseconds before the Unix epoch. *)
Definition unixToInternal : Z := 62135596800 * Second.

(** [t.Truncate(d)]: [t] rounded down to a multiple of [d] since the
    zero time; [t] itself when [d <= 0]. *)
Definition Truncate (t : Time) (d : Duration) : Time :=
  if d <=? 0 then t else t - (t + unixToInternal) mod d.

Definition After (t u : Time) : bool := u <? t.
Definition Before (t u : Time) : bool := t <? u.
Definition Add (t : Time) (d : Duration) : Time := t + d.

(** Days since the Unix epoch to the civil date (year, month, day) of
    the proleptic Gregorian calendar, by eras of 400 years (146097 days)
    that begin on a first of March: [civil_of_era] dates a day of an
    era, with the year counted from the start of the era. *)
Definition civil_of_era (doe : Z) : Z * Z * Z :=
  let yoe := (doe - doe / 1460 + doe / 36524 - doe / 146096) / 365 in
  let doy := doe - (365 * yoe + yoe / 4 - yoe / 100) in
  let mp := (5 * doy + 2) / 153 in
  let d := doy - (153 * mp + 2) / 5 + 1 in
  let m := if mp <? 10 then mp + 3 else mp - 9 in
  (yoe + (if m <=? 2 then 1 else 0), m, d).

Definition civil (days : Z) : Z * Z * Z :=
  let z := days + 719468 in
  let '(y, m, d) := civil_of_era (z mod 146097) in
  (y + z / 146097 * 400, m, d).

Definition utod (u : Z) : ascii := ascii_of_nat (48 + Z.to_nat u).

Fixpoint digits (fuel : nat) (u : Z) (acc : list ascii) : list ascii :=
  match fuel with
  | O => acc
  | S fuel' =>
      let acc' := utod (u mod 10) :: acc in
      if u / 10 =? 0 then acc' else digits fuel' (u / 10) acc'
  end.

(** [appendInt(b, x, width)] of package time: the decimal form of [x],
    zero-padded to [width], with a leading minus sign when negative. *)
Definition appendInt (x : Z) (width : nat) : list ascii :=
  let u := Z.abs x in
  let ds := digits (S (Z.to_nat (Z.log2 u))) u [] in
  (if x <? 0 then ["-"%char] else []) ++
  repeat "0"%char (width - length ds) ++ ds.

(** [t.Format("2006-01-02-150405")] in a zone [zone] seconds east of
    UTC. *)
Definition Format (zone : Z) (t : Time) : string :=
  let secs := t / Second + zone in
  let '(y, m, d) := civil (secs / 86400) in
  let r := secs mod 86400 in
  string_of_list_ascii
    (appendInt y 4 ++ "-"%char :: appendInt m 2 ++ "-"%char ::
     appendInt d 2 ++ "-"%char ::
     appendInt (r / 3600) 2 ++ appendInt (r mod 3600 / 60) 2 ++
     appendInt (r mod 60) 2).

End GoTime.

(** ** filepath.Match

    The shell pattern matcher behind [filepath.Glob], byte by byte (paths
    are taken to be ASCII): a star matches any run of non-separator
    bytes, a question mark one non-separator byte, brackets a class of
    bytes, and a backslash escapes the next byte. The result is
    [inl ErrBadPattern] when the matcher comes upon what is malformed in
    the pattern, which it does in the chunks it reads: a chunk is read
    to its end even after it has failed to match, the chunks after it
    are not. Every function is structurally recursive on the pattern or
    on the name. *)

Module PathMatch.
Import Errors Filepath.

Definition star : ascii := "*"%char.
Definition backslash : ascii := "\"%char.
Definition lbracket : ascii := "["%char.
Definition rbracket : ascii := "]"%char.
Definition dash : ascii := "-"%char.
Definition caret : ascii := "^"%char.
Definition question : ascii := "?"%char.

(** The pattern cut into the chunks that the successive calls of
    [scanChunk] return: a chunk is a run without a star outside
    brackets, and carries the flag that tells whether stars came before
    it. [fresh] holds while the stars before a chunk are being skipped,
    [inrange] inside brackets, [acc] is the chunk read so far,
    reversed. A backslash takes the next byte with it. *)
Fixpoint chunks (pattern : list ascii) (st fresh inrange : bool)
    (acc : list ascii) : list (bool * list ascii) :=
  match pattern with
  | [] => if fresh && negb st then [] else [(st, rev acc)]
  | c :: rest =>
      if Ascii.eqb c star then
        if fresh then chunks rest true true false acc
        else if inrange then chunks rest st false inrange (c :: acc)
        else (st, rev acc) :: chunks rest true true false []
      else if Ascii.eqb c backslash then
        match rest with
        | [] => [(st, rev (c :: acc))]
        | c2 :: rest2 => chunks rest2 st false inrange (c2 :: c :: acc)
        end
      else if Ascii.eqb c lbracket then chunks rest st false true (c :: acc)
      else if Ascii.eqb c rbracket then chunks rest st false false (c :: acc)
      else chunks rest st false inrange (c :: acc)
  end.

Definition byte_le (a b : ascii) : bool :=
  (nat_of_ascii a <=? nat_of_ascii b)%nat.

(** Where [matchChunk] stands in the chunk: outside a class, after a
    backslash, or inside a class, where [getEsc] reads the low and the
    high end of each range. [r] is the byte of the name that the class
    is matched against ([None] once the match has failed), [matched]
    tells whether a range has held it, [nrange] counts the ranges. *)
Inductive Mode :=
| Plain
| Escaped
| ClassStart (r : option ascii)
| ClassLo (r : option ascii) (negated matched : bool) (nrange : nat)
| ClassLoEsc (r : option ascii) (negated matched : bool) (nrange : nat)
| ClassSep (r : option ascii) (negated matched : bool) (nrange : nat)
           (lo : ascii)
| ClassHi (r : option ascii) (negated matched : bool) (nrange : nat)
          (lo : ascii)
| ClassHiEsc (r : option ascii) (negated matched : bool) (nrange : nat)
             (lo : ascii).

(** Does the range [lo-hi] hold the byte under test? *)
Definition in_range (r : option ascii) (lo hi : ascii) : bool :=
  match r with
  | Some x => byte_le lo x && byte_le x hi
  | None => false
  end.

(** A byte read where a range of a class may begin: the closing bracket
    ends the class once a range has been read. *)
Definition in_class (c : ascii) (s : list ascii) (failed : bool)
    (r : option ascii) (negated matched : bool) (nrange : nat)
    : error + (Mode * list ascii * bool) :=
  if Ascii.eqb c rbracket && negb (Nat.eqb nrange 0)
  then inr (Plain, s, failed || Bool.eqb matched negated)
  else if Ascii.eqb c dash || Ascii.eqb c rbracket then inl ErrBadPattern
  else if Ascii.eqb c backslash
  then inr (ClassLoEsc r negated matched nrange, s, failed)
  else inr (ClassSep r negated matched nrange c, s, failed).

(** A byte that stands for itself. *)
Definition literal (c : ascii) (s : list ascii) (failed : bool)
    : error + (Mode * list ascii * bool) :=
  match s with
  | x :: s1 =>
      if failed then inr (Plain, s, failed)
      else inr (Plain, s1, negb (Ascii.eqb c x))
  | [] => inr (Plain, s, failed)
  end.

(** One byte of the chunk: the next mode, what is left of the name, and
    whether the match has failed. *)
Definition step (m : Mode) (c : ascii) (s : list ascii) (failed : bool)
    : error + (Mode * list ascii * bool) :=
  match m with
  | Plain =>
      let failed := failed || bool_decide (s = []) in
      if Ascii.eqb c lbracket then
        if failed then inr (ClassStart None, s, failed)
        else inr (ClassStart (head s), tail s, failed)
      else if Ascii.eqb c question then
        match s with
        | x :: s1 =>
            if failed then inr (Plain, s, failed)
            else inr (Plain, s1, IsPathSeparator x)
        | [] => inr (Plain, s, failed)
        end
      else if Ascii.eqb c backslash then inr (Escaped, s, failed)
      else literal c s failed
  | Escaped => literal c s failed
  | ClassStart r =>
      if Ascii.eqb c caret then inr (ClassLo r true false 0, s, failed)
      else in_class c s failed r false false O
  | ClassLo r negated matched nrange =>
      in_class c s failed r negated matched nrange
  | ClassLoEsc r negated matched nrange =>
      inr (ClassSep r negated matched nrange c, s, failed)
  | ClassSep r negated matched nrange lo =>
      if Ascii.eqb c dash
      then inr (ClassHi r negated matched nrange lo, s, failed)
      else in_class c s failed r negated
                    (matched || in_range r lo lo) (S nrange)
  | ClassHi r negated matched nrange lo =>
      if Ascii.eqb c dash || Ascii.eqb c rbracket then inl ErrBadPattern
      else if Ascii.eqb c backslash
      then inr (ClassHiEsc r negated matched nrange lo, s, failed)
      else inr (ClassLo r negated (matched || in_range r lo c) (S nrange),
                s, failed)
  | ClassHiEsc r negated matched nrange lo =>
      inr (ClassLo r negated (matched || in_range r lo c) (S nrange),
           s, failed)
  end.

Fixpoint matchChunk_from (m : Mode) (chunk s : list ascii) (failed : bool)
    : error + option (list ascii) :=
  match chunk with
  | [] =>
      match m with
      | Plain => if failed then inr None else inr (Some s)
      | _ => inl ErrBadPattern
      end
  | c :: rest =>
      match step m c s failed with
      | inl e => inl e
      | inr (m', s', failed') => matchChunk_from m' rest s' failed'
      end
  end.

(** [matchChunk]: does [chunk] match a prefix of [s]? [inr (Some rest)]
    when it does, [inr None] when it does not; after a failure the
    chunk is still read to its end to check that it is well formed. *)
Definition matchChunk (chunk s : list ascii) : error + option (list ascii) :=
  matchChunk_from Plain chunk s false.

(** The search of [Match] after a star: skip [i+1] bytes of the name,
    never a separator. [last] tells that no pattern is left after the
    chunk, so that the chunk has to exhaust the name. *)
Fixpoint star_search (chunk : list ascii) (last : bool) (name : list ascii)
    : error + option (list ascii) :=
  match name with
  | [] => inr None
  | c :: rest =>
      if IsPathSeparator c then inr None
      else match matchChunk chunk rest with
           | inr (Some t) =>
               if last && negb (bool_decide (t = []))
               then star_search chunk last rest
               else inr (Some t)
           | inl e => inl e
           | inr None => star_search chunk last rest
           end
  end.

(** The loop of [Match], chunk by chunk. When a chunk does not match,
    the answer is "no match" at once: the chunks after it are not read,
    so that what is malformed in them goes unnoticed. *)
Fixpoint match_chunks (cs : list (bool * list ascii)) (name : list ascii)
    : error + bool :=
  match cs with
  | [] => inr (bool_decide (name = []))
  | (st, chunk) :: rest =>
      if st && bool_decide (chunk = []) then
        inr (negb (existsb IsPathSeparator name))
      else
        let no_match_here :=
          if st then
            match star_search chunk (bool_decide (rest = [])) name with
            | inr (Some t) => match_chunks rest t
            | inl e => inl e
            | inr None => inr false
            end
          else inr false in
        match matchChunk chunk name with
        | inr (Some t) =>
            if bool_decide (t = []) || negb (bool_decide (rest = []))
            then match_chunks rest t
            else no_match_here
        | inl e => inl e
        | inr None => no_match_here
        end
  end.

(** [filepath.Match(pattern, name)]. *)
Definition Match (pattern name : string) : error + bool :=
  match_chunks (chunks (list_ascii_of_string pattern) false true false [])
               (list_ascii_of_string name).

End PathMatch.

(** ** The operating system

    The file system is a finite map from cleaned paths to files. Every
    call that can fail for reasons outside the program (disk full, no
    permission, ...) takes its outcome from [script], the list of
    outcomes the environment has in store: an empty script is an
    environment in which nothing fails. [trace] records the calls made, in
    order, whether they succeed or not. *)

Module OS.
Import Errors Filepath PathMatch GoTime.

Record File := mkFile { data : list Byte.byte; mtime : Time }.

(** What [os.FileInfo] gives: [Size()] and [ModTime()]. *)
Record FileInfo := mkFileInfo { Size : Z; ModTime : Time }.

(** An [*os.File]: the descriptor and the name it was opened with. *)
Record Handle := mkHandle { fd : nat; name : string }.

Inductive Outcome :=
| Works
| Fails (e : Errno)
| Partial (k : nat) (e : Errno).   (* k bytes get through, then e *)

Inductive Event :=
| EvMkdirAll (dir : string)
| EvOpenFile (path : string)
| EvOpen (path : string)
| EvCreate (path : string)
| EvFStat (d : nat)
| EvWrite (d : nat) (len : nat)
| EvClose (d : nat)
| EvCopy (src dst : string)
| EvRename (old new : string)
| EvRemove (path : string)
| EvStat (path : string)
| EvGlob (pattern : string).

Record World := mkWorld {
  fs : gmap string File;
  opened : gset nat;            (* descriptors that are open *)
  nextfd : nat;
  clock : Time;
  ticks : list Z;               (* how the clock moves between two readings *)
  zone : Z;                     (* local zone, seconds east of UTC *)
  script : list Outcome;
  trace : list Event
}.

#[global] Instance Outcome_eq_dec : EqDecision Outcome.
Proof. solve_decision. Defined.
#[global] Instance Event_eq_dec : EqDecision Event.
Proof. solve_decision. Defined.

Definition set_fs (f : gmap string File) (w : World) : World :=
  mkWorld f (opened w) (nextfd w) (clock w) (ticks w) (zone w)
          (script w) (trace w).
Definition set_opened (o : gset nat) (w : World) : World :=
  mkWorld (fs w) o (nextfd w) (clock w) (ticks w) (zone w)
          (script w) (trace w).
Definition set_script (s : list Outcome) (w : World) : World :=
  mkWorld (fs w) (opened w) (nextfd w) (clock w) (ticks w) (zone w)
          s (trace w).

(** A call is recorded when it is made. *)
Definition emit (e : Event) (w : World) : World :=
  mkWorld (fs w) (opened w) (nextfd w) (clock w) (ticks w) (zone w)
          (script w) (trace w ++ [e]).

(** The outcome the environment has in store for the next call. *)
Definition pop (w : World) : Outcome * World :=
  match script w with
  | [] => (Works, w)
  | o :: rest => (o, set_script rest w)
  end.

Definition failure (o : Outcome) : option Errno :=
  match o with
  | Works => None
  | Fails e | Partial _ e => Some e
  end.

(** The file a path names. *)
Definition key (path : string) : string := Clean path.

Definition info (f : File) : FileInfo :=
  mkFileInfo (Z.of_nat (length (data f))) (mtime f).

(** [time.Now()]: read the wall clock, which then moves by what the
    environment has in store, forward or, when the clock is set back,
    backward. *)
Definition Now (w : World) : Time * World :=
  (clock w,
   mkWorld (fs w) (opened w) (nextfd w)
           (clock w + hd 0 (ticks w)) (tl (ticks w)) (zone w)
           (script w) (trace w)).

(** A fresh descriptor for [path]. *)
Definition alloc (path : string) (w : World) : Handle * World :=
  (mkHandle (nextfd w) path,
   mkWorld (fs w) ({[nextfd w]} ∪ opened w) (S (nextfd w)) (clock w)
           (ticks w) (zone w) (script w) (trace w)).

(** [os.MkdirAll(dir, 0755)]; directories are not represented. *)
Definition MkdirAll (dir : string) (w : World) : option error * World :=
  let '(o, w) := pop (emit (EvMkdirAll dir) w) in
  match failure o with
  | Some e => (Some (PathError "mkdir" dir (SyscallError e)), w)
  | None => (None, w)
  end.

(** [os.OpenFile(path, O_CREATE|O_WRONLY|O_APPEND, 0644)]. *)
Definition OpenFile (path : string) (w : World) : (error + Handle) * World :=
  let '(o, w) := pop (emit (EvOpenFile path) w) in
  match failure o with
  | Some e => (inl (PathError "open" path (SyscallError e)), w)
  | None =>
      let w :=
        match fs w !! key path with
        | Some _ => w
        | None => set_fs (<[key path := mkFile [] (clock w)]> (fs w)) w
        end in
      let '(h, w) := alloc path w in
      (inr h, w)
  end.

(** [os.Open(path)]: for reading. *)
Definition Open (path : string) (w : World) : (error + Handle) * World :=
  let '(o, w) := pop (emit (EvOpen path) w) in
  match failure o with
  | Some e => (inl (PathError "open" path (SyscallError e)), w)
  | None =>
      match fs w !! key path with
      | None => (inl (PathError "open" path (SyscallError ENOENT)), w)
      | Some _ => let '(h, w) := alloc path w in (inr h, w)
      end
  end.

(** [os.Create(path)]: create or truncate. *)
Definition Create (path : string) (w : World) : (error + Handle) * World :=
  let '(o, w) := pop (emit (EvCreate path) w) in
  match failure o with
  | Some e => (inl (PathError "open" path (SyscallError e)), w)
  | None =>
      let w := set_fs (<[key path := mkFile [] (clock w)]> (fs w)) w in
      let '(h, w) := alloc path w in
      (inr h, w)
  end.

(** [f.Stat()]. *)
Definition FStat (h : Handle) (w : World) : (error + FileInfo) * World :=
  let w := emit (EvFStat (fd h)) w in
  if decide (fd h ∈ opened w) then
    let '(o, w) := pop w in
    match failure o with
    | Some e => (inl (PathError "stat" (name h) (SyscallError e)), w)
    | None =>
        match fs w !! key (name h) with
        | Some f => (inr (info f), w)
        | None => (inr (mkFileInfo 0 (clock w)), w)
        end
    end
  else (inl (PathError "stat" (name h) ErrClosed), w).

(** [f.Write(p)]: the number of bytes written and the error. A closed
    descriptor writes nothing and reports [ErrClosed]. *)
Definition FWrite (h : Handle) (p : list Byte.byte) (w : World)
    : (nat * option error) * World :=
  let w := emit (EvWrite (fd h) (length p)) w in
  if decide (fd h ∈ opened w) then
    let '(o, w) := pop w in
    let append bytes w :=
      set_fs (alter (fun f => mkFile (data f ++ bytes) (clock w))
                    (key (name h)) (fs w)) w in
    match o with
    | Works => ((length p, None), append p w)
    | Fails e => ((O, Some (PathError "write" (name h) (SyscallError e))), w)
    | Partial k e =>
        if (k <? length p)%nat
        then ((k, Some (PathError "write" (name h) (SyscallError e))),
              append (take k p) w)
        else ((length p, None), append p w)
    end
  else ((O, Some (PathError "write" (name h) ErrClosed)), w).

(** [f.Close()]: the descriptor is gone afterwards even when the close
    reports an error; closing twice reports [ErrClosed]. *)
Definition FClose (h : Handle) (w : World) : option error * World :=
  let w := emit (EvClose (fd h)) w in
  if decide (fd h ∈ opened w) then
    let '(o, w) := pop w in
    let w := set_opened (opened w ∖ {[fd h]}) w in
    match failure o with
    | Some e => (Some (PathError "close" (name h) (SyscallError e)), w)
    | None => (None, w)
    end
  else (Some (PathError "close" (name h) ErrClosed), w).

(** [os.Rename(old, new)]. *)
Definition Rename (old new : string) (w : World) : option error * World :=
  let '(o, w) := pop (emit (EvRename old new) w) in
  match failure o with
  | Some e => (Some (LinkError "rename" old new (SyscallError e)), w)
  | None =>
      match fs w !! key old with
      | None => (Some (LinkError "rename" old new (SyscallError ENOENT)), w)
      | Some f => (None, set_fs (<[key new := f]> (delete (key old) (fs w))) w)
      end
  end.

(** [os.Remove(path)]. *)
Definition Remove (path : string) (w : World) : option error * World :=
  let '(o, w) := pop (emit (EvRemove path) w) in
  match failure o with
  | Some e => (Some (PathError "remove" path (SyscallError e)), w)
  | None =>
      match fs w !! key path with
      | None => (Some (PathError "remove" path (SyscallError ENOENT)), w)
      | Some _ => (None, set_fs (delete (key path) (fs w)) w)
      end
  end.

(** [os.Stat(path)]. *)
Definition Stat (path : string) (w : World) : (error + FileInfo) * World :=
  let '(o, w) := pop (emit (EvStat path) w) in
  match failure o with
  | Some e => (inl (PathError "stat" path (SyscallError e)), w)
  | None =>
      match fs w !! key path with
      | None => (inl (PathError "stat" path (SyscallError ENOENT)), w)
      | Some f => (inr (info f), w)
      end
  end.

(** The order of Go's strings, byte by byte. *)
Definition string_le (a b : string) : Prop := String.leb a b = true.

#[global] Instance string_le_dec a b : Decision (string_le a b).
Proof. unfold string_le. apply _. Defined.

(** The names that [glob] reads, sorted as it sorts them. *)
Definition names (files : gmap string File) : list string :=
  merge_sort string_le (elements (dom files)).

(** The paths of the file system that match a pattern, in that order. *)
Definition matching (pattern : string) (files : gmap string File)
    : list string :=
  filter (fun p => Match pattern p = inr true) (names files).

(** The loop of [glob] over the names: the first error of [Match] ends
    it. *)
Fixpoint glob (pattern : string) (names : list string)
    : error + list string :=
  match names with
  | [] => inr []
  | n :: rest =>
      match Match pattern n with
      | inl e => inl e
      | inr matched =>
          match glob pattern rest with
          | inl e => inl e
          | inr m => inr (if matched then n :: m else m)
          end
      end
  end.

(** [filepath.Glob(pattern)]: the pattern is tried on the empty name
    first, then on the names; the only error is [ErrBadPattern]. *)
Definition Glob (pattern : string) (w : World)
    : (error + list string) * World :=
  let w := emit (EvGlob pattern) w in
  match Match pattern "" with
  | inl e => (inl e, w)
  | inr _ => (glob pattern (names (fs w)), w)
  end.

(** [io.Copy(gw, src)] for the gzip writer [gw] on [dst]: of the
    compressed form [z] of the source, the first [flushed] bytes reach
    [dst] during the copy, and the writer holds the others until it is
    closed; they are the result. A copy that fails is one whose write to
    [dst] fails: a prefix of those first bytes is written, and the
    writer, which keeps the error, writes nothing when it is closed. *)
Definition Copy (z : list Byte.byte -> list Byte.byte)
    (flushed : list Byte.byte -> nat) (dst src : Handle) (w : World)
    : (error + list Byte.byte) * World :=
  let '(o, w) := pop (emit (EvCopy (name src) (name dst)) w) in
  let input := match fs w !! key (name src) with
               | Some f => data f
               | None => []
               end in
  let put bytes w :=
    set_fs (alter (fun f => mkFile (data f ++ bytes) (clock w))
                  (key (name dst)) (fs w)) w in
  match o with
  | Works => (inr (drop (flushed input) (z input)),
              put (take (flushed input) (z input)) w)
  | Fails e => (inl (SyscallError e), w)
  | Partial k e =>
      (inl (SyscallError e), put (take k (take (flushed input) (z input))) w)
  end.

(** A deferred [Close] whose result is dropped. *)
Definition drop_handle (h : Handle) (w : World) : World :=
  set_opened (opened w ∖ {[fd h]}) (emit (EvClose (fd h)) w).

End OS.

(** ** The rotator (logrotate.go) *)

Module Rotator.
Import Errors Filepath GoString GoTime OS.

(** [int64] arithmetic wraps around. *)
Definition wrap64 (z : Z) : Z := (z + 2 ^ 63) mod 2 ^ 64 - 2 ^ 63.

(** [LogRotatorConfig]. *)
Record LogRotatorConfig := mkConfig {
  FilePath : string;
  MaxSize : Z;
  MaxAge : Duration;
  MaxBackups : Z;
  Compress : bool;
  RotateDaily : bool
}.

(** [LogRotator]; the mutex is left out, the model being sequential. *)
Record LogRotator := mkLogRotator {
  filePath : string;
  maxSize : Z;
  maxAge : Duration;
  maxBackups : Z;
  compress : bool;
  rotateDaily : bool;
  rotateTime : Time;
  file : option Handle;
  fileSize : Z
}.

Definition set_file (h : Handle) (size : Z) (lr : LogRotator) : LogRotator :=
  mkLogRotator (filePath lr) (maxSize lr) (maxAge lr) (maxBackups lr)
               (compress lr) (rotateDaily lr) (rotateTime lr) (Some h) size.
Definition set_fileSize (size : Z) (lr : LogRotator) : LogRotator :=
  mkLogRotator (filePath lr) (maxSize lr) (maxAge lr) (maxBackups lr)
               (compress lr) (rotateDaily lr) (rotateTime lr) (file lr) size.
Definition set_rotateTime (t : Time) (lr : LogRotator) : LogRotator :=
  mkLogRotator (filePath lr) (maxSize lr) (maxAge lr) (maxBackups lr)
               (compress lr) (rotateDaily lr) t (file lr) (fileSize lr).

(** The element type of [files] in [cleanup]. *)
Record Entry := mkEntry { path : string; modTime : Time }.

(** What the rotator takes from [compress/gzip] and from [sort]: the
    compressed form of a run of bytes, and how many bytes of it the gzip
    writer has passed on before it is closed.
    [sort.Slice] is not stable, so all that is known of it is that it
    returns a permutation of its input in which no element is
    [less] than one before it. *)
Class Runtime := {
  gzip : list Byte.byte -> list Byte.byte;
  flushed : list Byte.byte -> nat;
  sortSlice : list Entry -> list Entry;
  sortSlice_perm : forall l, sortSlice l ≡ₚ l;
  sortSlice_sorted : forall l,
    StronglySorted (fun a b => Before (modTime b) (modTime a) = false)
                   (sortSlice l)
}.

Section WithRuntime.
Context {RT : Runtime}.

(** [openFile]. *)
Definition openFile (lr : LogRotator) (w : World)
    : option error * LogRotator * World :=
  let '(r, w) := OpenFile (filePath lr) w in
  match r with
  | inl err => (Some (Wrap "failed to open log file" err), lr, w)
  | inr f =>
      let '(r, w) := FStat f w in
      match r with
      | inl err =>
          let '(_, w) := FClose f w in
          (Some (Wrap "failed to get file stats" err), lr, w)
      | inr stat => (None, set_file f (Size stat) lr, w)
      end
  end.

(** [generateRotatedName]. *)
Definition generateRotatedName (lr : LogRotator) (w : World)
    : string * World :=
  let '(now, w) := Now w in
  let ext := Ext (filePath lr) in
  let base := TrimSuffix (filePath lr) ext in
  let timestamp := Format (zone w) now in
  (base +:+ "-" +:+ timestamp +:+ ext, w).

(** [compressFile]; the deferred closes run on every way out, last
    deferred first: the gzip writer, which writes what it holds and
    whose result is dropped, then the two files. When the copy went
    through, the source is removed before the gzip writer is closed. *)
Definition compressFile (filename : string) (w : World)
    : option error * World :=
  if HasSuffix filename ".gz" then (None, w)
  else
    let '(r, w) := Open filename w in
    match r with
    | inl err => (Some err, w)
    | inr source =>
        let '(r, w) := Create (filename +:+ ".gz") w in
        match r with
        | inl err => (Some err, drop_handle source w)
        | inr compressed =>
            let '(r, w) := Copy gzip flushed compressed source w in
            match r with
            | inl err =>
                (Some err, drop_handle source (drop_handle compressed w))
            | inr held =>
                let '(err, w) := Remove filename w in
                let '(_, w) := FWrite compressed held w in
                (err, drop_handle source (drop_handle compressed w))
            end
        end
    end.

(** The loop of [cleanup] that stats the matches; a match that cannot
    be statted is skipped. *)
Fixpoint stat_matches (matches : list string) (w : World)
    : list Entry * World :=
  match matches with
  | [] => ([], w)
  | m :: rest =>
      let '(r, w) := Stat m w in
      let '(files, w) := stat_matches rest w in
      match r with
      | inl _ => (files, w)
      | inr stat => (mkEntry m (ModTime stat) :: files, w)
      end
  end.

(** The age loop: the result of [os.Remove] is not looked at. *)
Fixpoint remove_aged (cutoff : Time) (files : list Entry) (w : World)
    : World :=
  match files with
  | [] => w
  | f :: rest =>
      if Before (modTime f) cutoff
      then remove_aged cutoff rest (snd (Remove (path f) w))
      else remove_aged cutoff rest w
  end.

(** The count loop [for i := 0; i < toRemove && i < len(files); i++];
    [files] is what is left of the slice from index [i] on. *)
Fixpoint remove_excess (toRemove i : Z) (files : list Entry) (w : World)
    : World :=
  match files with
  | [] => w
  | f :: rest =>
      if i <? toRemove
      then remove_excess toRemove (i + 1) rest (snd (Remove (path f) w))
      else w
  end.

(** The glob pattern of [cleanup]. *)
Definition pattern (lr : LogRotator) : string :=
  let dir := Dir (filePath lr) in
  let base := Base (filePath lr) in
  let ext := Ext base in
  let baseWithoutExt := TrimSuffix base ext in
  Join dir (baseWithoutExt +:+ "-*" +:+ ext +:+ "*").

(** [cleanup]. *)
Definition cleanup (lr : LogRotator) (w : World) : option error * World :=
  let '(r, w) := Glob (pattern lr) w in
  match r with
  | inl err => (Some err, w)
  | inr matches =>
      let '(files, w) := stat_matches matches w in
      let files := sortSlice files in
      let '(now, w) := Now w in
      let cutoff := Add now (wrap64 (- maxAge lr)) in
      let w := remove_aged cutoff files w in
      let len := Z.of_nat (length files) in
      let w :=
        if maxBackups lr <? len
        then remove_excess (wrap64 (len - maxBackups lr)) 0 files w
        else w in
      (None, w)
  end.

(** [rotate]. *)
Definition rotate (lr : LogRotator) (w : World)
    : option error * LogRotator * World :=
  match file lr with
  | None => openFile lr w
  | Some f =>
      let '(err, w) := FClose f w in
      match err with
      | Some err => (Some (Wrap "failed to close log file" err), lr, w)
      | None =>
          let '(rotatedName, w) := generateRotatedName lr w in
          if String.eqb rotatedName ""
          then (Some (ErrorNew "failed to generate rotated filename"),
                lr, w)
          else
            let '(err, w) := Rename (filePath lr) rotatedName w in
            match err with
            | Some err =>
                (Some (Wrap "failed to rename log file" err), lr, w)
            | None =>
                let '(err, w) :=
                  if compress lr then compressFile rotatedName w
                  else (None, w) in
                match err with
                | Some err =>
                    (Some (Wrap "failed to compress log file" err), lr, w)
                | None =>
                    let '(err, w) := cleanup lr w in
                    match err with
                    | Some err =>
                        (Some (Wrap "failed to cleanup old files" err),
                         lr, w)
                    | None => openFile lr w
                    end
                end
            end
      end
  end.

(** [checkRotation]. *)
Definition checkRotation (lr : LogRotator) (w : World)
    : option error * LogRotator * World :=
  let '(now, w) := Now w in
  let currentDay := Truncate now (24 * Hour) in
  if rotateDaily lr && After currentDay (rotateTime lr) then
    let '(err, lr, w) := rotate lr w in
    match err with
    | Some err => (Some err, lr, w)
    | None => (None, set_rotateTime currentDay lr, w)
    end
  else if maxSize lr <=? fileSize lr then rotate lr w
  else (None, lr, w).

(** [Write]: the count of bytes written, the error, the rotator. *)
Definition Write (lr : LogRotator) (p : list Byte.byte) (w : World)
    : (nat * option error) * LogRotator * World :=
  let '(err, lr, w) := checkRotation lr w in
  match err with
  | Some err => ((O, Some err), lr, w)
  | None =>
      match file lr with
      | None => ((O, Some ErrInvalid), lr, w)   (* nil *os.File *)
      | Some f =>
          let '((n, err), w) := FWrite f p w in
          match err with
          | Some err => ((n, Some err), lr, w)
          | None =>
              ((n, None),
               set_fileSize (wrap64 (fileSize lr + Z.of_nat n)) lr, w)
          end
      end
  end.

(** [Close]. *)
Definition Close (lr : LogRotator) (w : World) : option error * World :=
  match file lr with
  | Some f => FClose f w
  | None => (None, w)
  end.

(** [Rotate]. *)
Definition Rotate (lr : LogRotator) (w : World)
    : option error * LogRotator * World :=
  rotate lr w.

(** [NewLogRotator]. *)
Definition NewLogRotator (config : LogRotatorConfig) (w : World)
    : (error + LogRotator) * World :=
  if String.eqb (FilePath config) ""
  then (inl (ErrorNew "file path is required"), w)
  else
    let MaxSize' := if MaxSize config =? 0 then 100 * 1024 * 1024
                    else MaxSize config in
    let MaxAge' := if MaxAge config =? 0 then 7 * 24 * Hour
                   else MaxAge config in
    let MaxBackups' := if MaxBackups config =? 0 then 5
                       else MaxBackups config in
    let '(now, w) := Now w in
    let lr := mkLogRotator (FilePath config) MaxSize' MaxAge' MaxBackups'
                (Compress config) (RotateDaily config)
                (Truncate now (24 * Hour)) None 0 in
    let dir := Dir (FilePath config) in
    let '(err, w) := MkdirAll dir w in
    match err with
    | Some err => (inl (Wrap "failed to create log directory" err), w)
    | None =>
        let '(err, lr, w) := openFile lr w in
        match err with
        | Some err => (inl err, w)
        | None => (inr lr, w)
        end
    end.

End WithRuntime.

(** The values of the map [GetStats] returns. *)
Inductive Value :=
| VString (s : string)
| VInt (z : Z)
| VDuration (d : Duration)
| VBool (b : bool)
| VTime (t : Time).

(** [GetStats]. *)
Definition GetStats (lr : LogRotator) : gmap string Value :=
  let stats : gmap string Value :=
    <["rotate_time" := VTime (rotateTime lr)]>
    (<["rotate_daily" := VBool (rotateDaily lr)]>
    (<["compress" := VBool (compress lr)]>
    (<["max_backups" := VInt (maxBackups lr)]>
    (<["max_age" := VDuration (maxAge lr)]>
    (<["max_size" := VInt (maxSize lr)]>
    (<["file_size" := VInt (fileSize lr)]>
    (<["file_path" := VString (filePath lr)]> ∅))))))) in
  match file lr with
  | Some _ => <["file_open" := VBool true]> stats
  | None => <["file_open" := VBool false]> stats
  end.

End Rotator.

(** ** A concrete runtime, for running the model

    The compressor puts the two magic bytes of gzip before the bytes,
    which it stores as they are; the two bytes are written as soon as
    there is something to compress, the rest when the writer is closed.
    The sort is a merge sort. The theorems below hold for every
    runtime. *)

Module Sample.
Import Errors GoTime OS Rotator.

Definition older_or_same (a b : Entry) : Prop := modTime a <= modTime b.

#[global] Instance older_or_same_dec a b : Decision (older_or_same a b).
Proof. unfold older_or_same. apply _. Defined.

#[global] Instance older_or_same_trans : Transitive older_or_same.
Proof. unfold older_or_same. intros a b c. lia. Qed.

#[global] Instance older_or_same_total : Total older_or_same.
Proof. unfold older_or_same. intros a b. lia. Qed.

#[global] Instance runtime : Runtime.
Proof.
  refine {| gzip := fun d => Byte.x1f :: Byte.x8b :: d;
            flushed := fun d => match d with [] => O | _ => 2%nat end;
            sortSlice := merge_sort older_or_same |}.
  - apply merge_sort_Permutation.
  - intros l.
    induction (StronglySorted_merge_sort older_or_same l) as [|a l' Hl IH Ha];
      constructor; [assumption |].
    eapply Forall_impl; [exact Ha |].
    intros b Hab. unfold Before, older_or_same in *. lia.
Defined.

(** An empty disk at the Unix epoch, UTC, where nothing fails. *)
Definition quiet : World := mkWorld ∅ ∅ 3 0 [] 0 [] [].

End Sample.

(** ** What the logger takes from logrus *)

Module Logrus.
Import Errors.

(** [logrus.Level]. *)
Inductive Level :=
| PanicLevel | FatalLevel | ErrorLevel | WarnLevel
| InfoLevel | DebugLevel | TraceLevel.

(** The formatters that [getFormatter] builds, with the fields it
    sets. *)
Inductive Formatter :=
| JSONFormatter (TimestampFormat : string)
| TextFormatter (FullTimestamp : bool) (TimestampFormat : string)
                (DisableColors : bool).

(** [logrus.ParseLevel]: the level that a name stands for, or an error.
    Which names it knows plays no part below. *)
Class Library := { ParseLevel : string -> error + Level }.

End Logrus.

(** ** The logger *)

Module Logger.
Import Errors GoTime OS.

(** [time.RFC3339]. *)
Definition RFC3339 : string := "2006-01-02T15:04:05Z07:00".

(** [LoggerConfig]. *)
Record LoggerConfig := mkLoggerConfig {
  LogLevel : string;
  LogFile : string;
  MaxSize : Z;
  MaxAge : Duration;
  MaxBackups : Z;
  Compress : bool;
  RotateDaily : bool;
  JSONFormat : bool;
  ConsoleOutput : bool
}.

(** The writers that [NewLogger] collects: the rotator of the logger (a
    pointer, so the writer and the field [rotator] are one object) and
    [os.Stdout]. *)
Inductive Writer := ToRotator | ToStdout.

(** The value of [Out]: one of the writers, or the [io.MultiWriter] of
    several. *)
Inductive Output :=
| Single (x : Writer)
| MultiWriter (writers : list Writer).

(** [Logger]: the fields of the embedded [logrus.Logger] that
    [NewLogger] sets, the rotator and the configuration. *)
Record Logger := mkLogger {
  Out : Output;
  Formatter : Logrus.Formatter;
  Level : Logrus.Level;
  rotator : option Rotator.LogRotator;
  config : LoggerConfig
}.

Definition set_rotator (lr : Rotator.LogRotator) (l : Logger) : Logger :=
  mkLogger (Out l) (Formatter l) (Level l) (Some lr) (config l).

(** [getFormatter]. *)
Definition getFormatter (jsonFormat : bool) : Logrus.Formatter :=
  if jsonFormat then Logrus.JSONFormatter RFC3339
  else Logrus.TextFormatter true RFC3339 false.

(** The values of the map that [GetStats] returns. *)
Inductive StatValue :=
| ConfigValue (c : LoggerConfig)
| RotatorValue (stats : gmap string Rotator.Value).

(** [os.Stdout]: descriptor 1, under the name [/dev/stdout]. *)
Definition Stdout : Handle := mkHandle 1 "/dev/stdout".

(** [io.ErrShortWrite]. *)
Definition ErrShortWrite : error := ErrorNew "short write".

Section WithLibraries.
Context {RT : Rotator.Runtime} {LG : Logrus.Library}.

(** [NewLogger]. *)
Definition NewLogger (config : LoggerConfig) (w : World)
    : (error + Logger) * World :=
  let level := match Logrus.ParseLevel (LogLevel config) with
               | inr level => level
               | inl _ => Logrus.InfoLevel
               end in
  let config :=
    mkLoggerConfig (LogLevel config) (LogFile config)
      (if MaxSize config =? 0 then 100 * 1024 * 1024 else MaxSize config)
      (if MaxAge config =? 0 then 7 * 24 * Hour else MaxAge config)
      (if MaxBackups config =? 0 then 5 else MaxBackups config)
      (Compress config) (RotateDaily config) (JSONFormat config)
      (ConsoleOutput config) in
  let finish (rotator : option Rotator.LogRotator) (writers : list Writer)
             (w : World) :=
    let writers := if ConsoleOutput config then writers ++ [ToStdout]
                   else writers in
    let output := match writers with
                  | [x] => Single x
                  | _ :: _ :: _ => MultiWriter writers
                  | [] => Single ToStdout
                  end in
    (inr (mkLogger output (getFormatter (JSONFormat config)) level rotator
                   config), w) in
  if negb (String.eqb (LogFile config) "") then
    let '(r, w) :=
      Rotator.NewLogRotator
        (Rotator.mkConfig (LogFile config) (MaxSize config) (MaxAge config)
           (MaxBackups config) (Compress config) (RotateDaily config)) w in
    match r with
    | inl err => (inl (Wrap "failed to create log rotator" err), w)
    | inr rotator => finish (Some rotator) [ToRotator] w
    end
  else finish None [] w.

(** [Close]. *)
Definition Close (l : Logger) (w : World) : option error * World :=
  match rotator l with
  | Some lr => Rotator.Close lr w
  | None => (None, w)
  end.

(** [Rotate]. *)
Definition Rotate (l : Logger) (w : World) : option error * Logger * World :=
  match rotator l with
  | Some lr =>
      let '(err, lr, w) := Rotator.Rotate lr w in (err, set_rotator lr l, w)
  | None => (None, l, w)
  end.

(** [GetStats]. *)
Definition GetStats (l : Logger) : gmap string StatValue :=
  let stats : gmap string StatValue :=
    <["config" := ConfigValue (config l)]> ∅ in
  match rotator l with
  | Some lr => <["rotator" := RotatorValue (Rotator.GetStats lr)]> stats
  | None => stats
  end.

(** [DefaultLogger], [DevelopmentLogger], [ProductionLogger]. *)
Definition DefaultLogger : World -> (error + Logger) * World :=
  NewLogger (mkLoggerConfig "info" "logs/app.log" (100 * 1024 * 1024)
               (7 * 24 * Hour) 5 true true false true).

Definition DevelopmentLogger : World -> (error + Logger) * World :=
  NewLogger (mkLoggerConfig "debug" "logs/dev.log" (50 * 1024 * 1024)
               (3 * 24 * Hour) 3 false true false true).

Definition ProductionLogger : World -> (error + Logger) * World :=
  NewLogger (mkLoggerConfig "info" "logs/production.log" (200 * 1024 * 1024)
               (30 * 24 * Hour) 10 true true true false).

(** [x.Write(p)] for a writer of the logger. The rotator as a writer of
    a logger that has none does not occur in a logger that [NewLogger]
    built; it would be a call on a nil pointer, and has no result. *)
Definition writer_Write (x : Writer) (l : Logger) (p : list Byte.byte)
    (w : World) : option ((nat * option error) * Logger * World) :=
  match x with
  | ToStdout => let '(r, w) := FWrite Stdout p w in Some (r, l, w)
  | ToRotator =>
      match rotator l with
      | Some lr =>
          let '(r, lr, w) := Rotator.Write lr p w in
          Some (r, set_rotator lr l, w)
      | None => None
      end
  end.

(** [Write] of an [io.MultiWriter]: the writers in turn, until one
    returns an error or writes less than it was given. *)
Fixpoint multi_Write (writers : list Writer) (l : Logger)
    (p : list Byte.byte) (w : World)
    : option ((nat * option error) * Logger * World) :=
  match writers with
  | [] => Some ((length p, None), l, w)
  | x :: rest =>
      match writer_Write x l p w with
      | None => None
      | Some ((n, Some err), l, w) => Some ((n, Some err), l, w)
      | Some ((n, None), l, w) =>
          if (n =? length p)%nat then multi_Write rest l p w
          else Some ((n, Some ErrShortWrite), l, w)
      end
  end.

(** [l.Out.Write(p)], the call by which logrus puts out an entry. *)
Definition Out_Write (l : Logger) (p : list Byte.byte) (w : World)
    : option ((nat * option error) * Logger * World) :=
  match Out l with
  | Single x => writer_Write x l p w
  | MultiWriter writers => multi_Write writers l p w
  end.

End WithLibraries.

End Logger.

(** ** A sample of logrus, for running the logger

    The names of the levels in lower-case ASCII letters, upper-case ASCII
    letters being taken for their lower case; the theorems hold for every
    library. *)

Module SampleLogrus.
Import Errors.

Definition lower (c : ascii) : ascii :=
  let n := nat_of_ascii c in
  if (65 <=? n)%nat && (n <=? 90)%nat then ascii_of_nat (n + 32) else c.

Fixpoint ToLower (s : string) : string :=
  match s with
  | EmptyString => EmptyString
  | String c s' => String (lower c) (ToLower s')
  end.

Definition ParseLevel (lvl : string) : error + Logrus.Level :=
  let l := ToLower lvl in
  if String.eqb l "panic" then inr Logrus.PanicLevel
  else if String.eqb l "fatal" then inr Logrus.FatalLevel
  else if String.eqb l "error" then inr Logrus.ErrorLevel
  else if String.eqb l "warn" || String.eqb l "warning"
    then inr Logrus.WarnLevel
  else if String.eqb l "info" then inr Logrus.InfoLevel
  else if String.eqb l "debug" then inr Logrus.DebugLevel
  else if String.eqb l "trace" then inr Logrus.TraceLevel
  else inl (ErrorNew "not a valid logrus Level").

#[global] Instance library : Logrus.Library :=
  {| Logrus.ParseLevel := ParseLevel |}.

End SampleLogrus.

Import Errors Filepath GoString GoTime PathMatch OS Rotator.

(** * The vocabulary of the statements *)

(** ** Sequences of calls *)

(** The calls a client can make on a rotator. *)
Inductive Call :=
| CallWrite (p : list Byte.byte)
| CallRotate
| CallClose
| CallGetStats.

Section Calls.
Context {RT : Runtime}.

Definition call (c : Call) (lr : LogRotator) (w : World)
    : LogRotator * World :=
  match c with
  | CallWrite p => let '(_, lr, w) := Write lr p w in (lr, w)
  | CallRotate => let '(_, lr, w) := Rotate lr w in (lr, w)
  | CallClose => (lr, snd (Close lr w))
  | CallGetStats => (lr, w)
  end.

Fixpoint calls (cs : list Call) (lr : LogRotator) (w : World)
    : LogRotator * World :=
  match cs with
  | [] => (lr, w)
  | c :: rest => let '(lr, w) := call c lr w in calls rest lr w
  end.

End Calls.

(** Whether [Write] is among the calls. *)
Fixpoint has_write (cs : list Call) : bool :=
  match cs with
  | [] => false
  | CallWrite _ :: _ => true
  | _ :: rest => has_write rest
  end.

(** ** The state of a rotator *)

(** The rotator holds a handle whose descriptor is closed. *)
Definition holds_closed (lr : LogRotator) (w : World) : Prop :=
  exists h, file lr = Some h /\ fd h ∉ opened w.

(** The rotator holds a handle whose descriptor is open. *)
Definition holds_open (lr : LogRotator) (w : World) : Prop :=
  exists h, file lr = Some h /\ fd h ∈ opened w.

(** The fields a rotation leaves alone. *)
Definition same_settings (a b : LogRotator) : Prop :=
  filePath a = filePath b /\ maxSize a = maxSize b /\ maxAge a = maxAge b /\
  maxBackups a = maxBackups b /\ compress a = compress b /\
  rotateDaily a = rotateDaily b.

(** The default ceiling, 100 MiB. *)
Definition defaultMaxSize : Z := 100 * 1024 * 1024.

(** The day [checkRotation] compares with the reference day: the reading
    of the clock, truncated to 24 hours. *)
Definition currentDay (w : World) : Time := Truncate (clock w) (24 * Hour).

(** The daily trigger and the size trigger, as [checkRotation] tests
    them. *)
Definition daily_due (lr : LogRotator) (w : World) : bool :=
  rotateDaily lr && After (currentDay w) (rotateTime lr).

Definition size_due (lr : LogRotator) : bool := maxSize lr <=? fileSize lr.

(** What [Write] does once [checkRotation] has returned nil: the write
    on the file, and the count of the bytes when it went through. *)
Definition write_file (lr : LogRotator) (p : list Byte.byte) (w : World)
    : (nat * option error) * LogRotator * World :=
  match file lr with
  | None => ((O, Some ErrInvalid), lr, w)
  | Some f =>
      let '((n, err), w) := FWrite f p w in
      match err with
      | Some err => ((n, Some err), lr, w)
      | None =>
          ((n, None), set_fileSize (wrap64 (fileSize lr + Z.of_nat n)) lr, w)
      end
  end.

(** The name [rotate] gives to the rotated file, and the world in which
    the rename is made. *)
Definition rotatedName (lr : LogRotator) (w : World) : string :=
  fst (generateRotatedName lr w).

Definition named (lr : LogRotator) (w : World) : World :=
  snd (generateRotatedName lr w).

(** The rotator is in step with the disk: it holds an open handle on its
    log file, which exists, and its tracked size is the size of that
    file. *)
Definition in_sync (lr : LogRotator) (w : World) : Prop :=
  exists h f, file lr = Some h /\ name h = filePath lr /\ fd h ∈ opened w /\
              fs w !! key (filePath lr) = Some f /\
              fileSize lr = Z.of_nat (length (data f)).

(** Every open descriptor of [w'] was open in [w0] or is the one the
    rotator holds. *)
Definition no_leak (w0 : World) (lr : LogRotator) (w' : World) : Prop :=
  forall d, d ∈ opened w' ->
    d ∈ opened w0 \/ exists h, file lr = Some h /\ fd h = d.

(** The reference day is a midnight, UTC. *)
Definition at_midnight (lr : LogRotator) : Prop :=
  rotateTime lr mod (24 * Hour) = 0.

(** ** Reading the trace *)

(** The calls recorded between two worlds. *)
Definition since (w w' : World) : list Event :=
  drop (length (trace w)) (trace w').

(** [w'] is [w] after the calls [evs]. *)
Definition extends (w w' : World) (evs : list Event) : Prop :=
  trace w' = trace w ++ evs.

(** How many recorded calls satisfy [f]. *)
Fixpoint count (f : Event -> bool) (evs : list Event) : nat :=
  match evs with
  | [] => O
  | e :: rest => if f e then S (count f rest) else count f rest
  end.

Definition is_rename (e : Event) : bool :=
  match e with EvRename _ _ => true | _ => false end.

Definition is_glob (e : Event) : bool :=
  match e with EvGlob _ => true | _ => false end.

Definition is_remove (e : Event) : bool :=
  match e with EvRemove _ => true | _ => false end.

Definition is_openfile (e : Event) : bool :=
  match e with EvOpenFile _ => true | _ => false end.

(** The calls [openFile] makes: open, stat, and a close when the stat
    fails. *)
Definition is_open_call (e : Event) : bool :=
  match e with
  | EvOpenFile _ | EvFStat _ | EvClose _ => true
  | _ => false
  end.

(** The calls [compressFile] makes. *)
Definition is_compress_call (e : Event) : bool :=
  match e with
  | EvOpen _ | EvCreate _ | EvCopy _ _ | EvRemove _ | EvWrite _ _
  | EvClose _ => true
  | _ => false
  end.

(** The calls [cleanup] makes. *)
Definition is_cleanup_call (e : Event) : bool :=
  match e with
  | EvGlob _ | EvStat _ | EvRemove _ => true
  | _ => false
  end.

(** The calls of a rotation: at most one rename and at most one opening
    of the log file. *)
Definition one_cycle (evs : list Event) : Prop :=
  (count is_rename evs <= 1)%nat /\ (count is_openfile evs <= 1)%nat.

(** From [w] to [w'] files were removed and nothing else was done to the
    disk: every path holds what it held, or nothing after a call of
    [os.Remove] on one of the [listed] names. *)
Definition only_removes (listed : list string) (w w' : World) : Prop :=
  exists evs, extends w w' evs /\
    forall k, fs w' !! k = fs w !! k \/
      (fs w' !! k = None /\
       exists m, m ∈ listed /\ EvRemove m ∈ evs /\ key m = k).

(** ** Compression *)




(** ** Retention *)

(** The entry that [cleanup] builds for a listed path. *)
Definition entry_of (files : gmap string File) (p : string) : Entry :=
  mkEntry p (match files !! p with Some f => mtime f | None => 0 end).

(** The cutoff of the age pass: now minus the maximum age. *)
Definition age_cutoff (lr : LogRotator) (w : World) : Time :=
  Add (clock w) (wrap64 (- maxAge lr)).

(** Two worlds with the same files, the same outcomes in store and the
    same time. *)
Definition same_disk (w w' : World) : Prop :=
  fs w' = fs w /\ script w' = script w /\ clock w' = clock w.

(** The largest [int]. *)
Definition max_int : Z := 2 ^ 63 - 1.

(** The entries that the age pass removes. *)
Definition aged (cutoff : Time) (files : list Entry) : list Entry :=
  filter (fun f => Before (modTime f) cutoff = true) files.

(** ** Paths and timestamps *)

(** The length of the elements of a path once joined. *)
Definition joined (l : list (list ascii)) : nat := length (join_sep l).

Definition is_digit (c : ascii) : bool :=
  (48 <=? nat_of_ascii c)%nat && (nat_of_ascii c <=? 57)%nat.


(** The seconds since the epoch at which the local years 0 and 10000
    begin. *)
Definition year_0000 : Z := -62167219200.
Definition year_10000 : Z := 253402300800.

(** [P] holds of the [count] integers from [k] on, and of every
    integer from 0 below [n]. *)
Fixpoint all_from (P : Z -> bool) (count : nat) (k : Z) : bool :=
  match count with
  | O => true
  | S count' => P k && all_from P count' (k + 1)
  end.

Definition all_below (P : Z -> bool) (n : Z) : bool :=
  all_from P (Z.to_nat n) 0.

(** The checks behind the shape of a timestamp: the date of every day of
    an era, and the digits of every value a field can take. *)
Definition era_ok (doe : Z) : bool :=
  let '(y, m, d) := civil_of_era doe in
  (1 <=? m) && (m <=? 12) && (1 <=? d) && (d <=? 31) &&
  (0 <=? y) && (y <=? 400) &&
  (if doe <? 146037 then y <=? 399 else y =? 400).

Definition digits_ok (width : nat) (n : Z) : bool :=
  (length (appendInt n width) =? width)%nat &&
  forallb is_digit (appendInt n width).

(** The number that a run of decimal digits writes. *)
Definition value (l : list ascii) : Z :=
  fold_left (fun acc c => 10 * acc + (Z.of_nat (nat_of_ascii c) - 48)) l 0.

(** [appendInt] can be read back. *)
Definition reads_back (width : nat) (n : Z) : bool :=
  value (appendInt n width) =? n.

(** The day of an era that a date of the era falls on, the year counted
    from the start of the era: the way back from [civil_of_era]. *)
Definition era_day (y m d : Z) : Z :=
  let yoe := y - (if m <=? 2 then 1 else 0) in
  let mp := if 2 <? m then m - 3 else m + 9 in
  let doy := (153 * mp + 2) / 5 + d - 1 in
  yoe * 365 + yoe / 4 - yoe / 100 + doy.

Definition era_back (doe : Z) : bool :=
  let '(y, m, d) := civil_of_era doe in
  let yoe := y - (if m <=? 2 then 1 else 0) in
  (0 <=? yoe) && (yoe <=? 399) && (era_day y m d =? doe).

(** No byte of the string is a path separator. *)
Definition one_element (s : string) : Prop :=
  forall c, c ∈ list_ascii_of_string s -> IsPathSeparator c = false.

(** ** The logger *)

(** The configuration that [NewLogger] hands to [NewLogRotator]. *)
Definition rotator_config (c : Logger.LoggerConfig) : LogRotatorConfig :=
  mkConfig (Logger.LogFile c) (Logger.MaxSize c) (Logger.MaxAge c)
           (Logger.MaxBackups c) (Logger.Compress c) (Logger.RotateDaily c).

(** A configuration after [NewLogger] has set the defaults. *)
Definition with_defaults (c : Logger.LoggerConfig) : Logger.LoggerConfig :=
  Logger.mkLoggerConfig (Logger.LogLevel c) (Logger.LogFile c)
    (if Logger.MaxSize c =? 0 then 100 * 1024 * 1024 else Logger.MaxSize c)
    (if Logger.MaxAge c =? 0 then 7 * 24 * Hour else Logger.MaxAge c)
    (if Logger.MaxBackups c =? 0 then 5 else Logger.MaxBackups c)
    (Logger.Compress c) (Logger.RotateDaily c) (Logger.JSONFormat c)
    (Logger.ConsoleOutput c).

(** The settings of a rotator are those of a configuration. *)
Definition configured (c : Logger.LoggerConfig) (lr : LogRotator) : Prop :=
  filePath lr = Logger.LogFile c /\ maxSize lr = Logger.MaxSize c /\
  maxAge lr = Logger.MaxAge c /\ maxBackups lr = Logger.MaxBackups c /\
  compress lr = Logger.Compress c /\ rotateDaily lr = Logger.RotateDaily c.

(** * Worlds for the examples *)

Definition plain_config (p : string) (gz : bool) : LogRotatorConfig :=
  mkConfig p 1024 0 0 gz false.

(** The rotator and the world that [NewLogRotator] returns for
    [plain_config "app.log" false] in the quiet world. *)
Definition app_rotator : LogRotator :=
  mkLogRotator "app.log" 1024 (7 * 24 * Hour) 5 false false 0
               (Some (mkHandle 3 "app.log")) 0.

Definition app_world : World :=
  mkWorld {["app.log" := mkFile [] 0]} {[3%nat]} 4 0 [] 0 []
          [EvMkdirAll "."; EvOpenFile "app.log"; EvFStat 3].

(** [app_world] after a [Close]. *)
Definition app_closed : World :=
  mkWorld {["app.log" := mkFile [] 0]} ∅ 4 0 [] 0 []
          [EvMkdirAll "."; EvOpenFile "app.log"; EvFStat 3; EvClose 3].

(** A rotator on ["app.log"] that compresses, with its open handle, and
    a world in which the creation of the compressed file will fail for
    lack of space: the close, the rename and the opening of the rotated
    file go through first. *)
Definition gz_rotator : LogRotator :=
  mkLogRotator "app.log" 1024 (7 * 24 * Hour) 5 true false 0
               (Some (mkHandle 3 "app.log")) 0.

Definition disk_full : World :=
  mkWorld {["app.log" := mkFile [Byte.x41] 0]} {[3%nat]} 4 0 [] 0
          [Works; Works; Works; Fails ENOSPC] [].

(** A log file whose name holds an opening bracket: the glob pattern of
    [cleanup] is then malformed. *)
Definition bracket_rotator : LogRotator :=
  mkLogRotator "app[.log" 1024 (7 * 24 * Hour) 5 false false 0
               (Some (mkHandle 3 "app[.log")) 0.

Definition bracket_world : World :=
  mkWorld {["app[.log" := mkFile [Byte.x41] 0]} {[3%nat]} 4 0 [] 0 [] [].

(** A world in which the next write gets four bytes through and then
    fails for lack of space. *)
Definition short_write : World :=
  mkWorld {["app.log" := mkFile [] 0]} {[3%nat]} 4 0 [] 0
          [Partial 4 ENOSPC] [].

Definition ten_bytes : list Byte.byte := repeat Byte.x41 10.

(** A rotator with daily rotation whose reference day is the day of the
    epoch, and a world whose clock is one hour into the next day. *)
Definition daily_rotator : LogRotator :=
  mkLogRotator "app.log" 1024 (7 * 24 * Hour) 5 false true 0
               (Some (mkHandle 3 "app.log")) 0.

Definition next_day : World :=
  mkWorld {["app.log" := mkFile [Byte.x41] 0]} {[3%nat]} 4 (25 * Hour) [] 0
          [] [].

(** A configuration whose size ceiling is 0, and a world in which the
    log file already holds [d]. *)
Definition zero_config : LogRotatorConfig :=
  mkConfig "app.log" 0 0 0 false false.

Definition holding (d : list Byte.byte) : World :=
  mkWorld {["app.log" := mkFile d 0]} ∅ 3 0 [] 0 [] [].

(** 100 MiB of zero bytes. *)
Definition full_log : list Byte.byte :=
  repeat Byte.x00 (Z.to_nat defaultMaxSize).

(** Four rotated files next to the active file, and a rotator that keeps
    two backups. The clock stands at 50 ns, so that no file is older
    than the maximum age. *)
Definition crowded : World :=
  mkWorld (<["app-1970-01-01-000001.log" := mkFile [Byte.x61] 10]>
          (<["app-1970-01-01-000002.log" := mkFile [Byte.x62] 30]>
          (<["app-1970-01-01-000003.log.gz" := mkFile [Byte.x63] 20]>
          (<["app-1970-01-01-000004.log" := mkFile [Byte.x64] 40]>
          (<["app.log" := mkFile [] 45]> ∅)))))
          ∅ 4 50 [] 0 [] [].

Definition keep_two : LogRotator :=
  mkLogRotator "app.log" 1024 (7 * 24 * Hour) 2 false false 0 None 0.



(** A world in which the next call fails for lack of permission. *)
Definition no_permission : World :=
  mkWorld ∅ ∅ 3 0 [] 0 [Fails EACCES] [].

(** A rotator whose size ceiling is negative. *)
Definition eager_rotator : LogRotator :=
  mkLogRotator "app.log" (-1) (7 * 24 * Hour) 5 false false 0
               (Some (mkHandle 3 "app.log")) 0.

(** A rotator that keeps one backup, and none older than 25 ns. *)
Definition strict_rotator : LogRotator :=
  mkLogRotator "app.log" 1024 25 1 false false 0 None 0.

(** A rotated file, and a world in which it can be opened but the file
    to compress it into cannot be created. *)
Definition no_space : World :=
  mkWorld {["app-1970-01-01-000000.log" := mkFile [Byte.x41] 0]} ∅ 3 0 [] 0
          [Works; Fails ENOSPC] [].

(** The configuration of [app_rotator]. *)
Definition app_config : LogRotatorConfig := plain_config "app.log" false.

(** A logger on a file and the console, as [NewLogger] builds it in the
    quiet world, and a configuration without a log file. *)
Definition app_logger_config : Logger.LoggerConfig :=
  Logger.mkLoggerConfig "verbose" "app.log" 1024 0 0 false false false true.

Definition app_logger : Logger.Logger :=
  Logger.mkLogger (Logger.MultiWriter [Logger.ToRotator; Logger.ToStdout])
    (Logrus.TextFormatter true Logger.RFC3339 false) Logrus.InfoLevel
    (Some app_rotator)
    (Logger.mkLoggerConfig "verbose" "app.log" 1024 (7 * 24 * Hour) 5
       false false false true).

Definition console_config : Logger.LoggerConfig :=
  Logger.mkLoggerConfig "debug" "" 0 0 0 false false false false.

(** The crowded world, where the second stat will fail for lack of
    permission. *)
Definition unreadable : World := set_script [Works; Fails EACCES] crowded.

(** * Properties *)

(** ** The library functions on some inputs *)

Example Ext_examples :
  Ext "logs/app.log" = ".log" /\ Ext "logs.d/app" = "" /\
  Ext "a.b/c.tar.gz" = ".gz" /\ Ext "app." = ".".
Proof. repeat split. Qed.

Example Clean_examples :
  Clean "a//b/./c/.." = "a/b" /\ Clean "/../a" = "/a" /\
  Clean "../../a/.." = "../.." /\ Clean "" = "." /\
  Clean "./app.log" = "app.log" /\ Clean "logs/" = "logs".
Proof. repeat split. Qed.

Example Dir_Base_Join_examples :
  Dir "logs/app.log" = "logs" /\ Dir "app.log" = "." /\
  Base "logs/app.log" = "app.log" /\ Base "a/b//" = "b" /\
  Join "logs" "app-*.log*" = "logs/app-*.log*" /\
  Join "." "app-*.log*" = "app-*.log*".
Proof. repeat split. Qed.

Example Match_examples :
  Match "app-*.log*" "app-2026-10-30-224000.log" = inr true /\
  Match "app-*.log*" "app-2026-10-30-224000.log.gz" = inr true /\
  Match "app-*.log*" "app.log" = inr false /\
  Match "logs/app-*.log*" "logs/app-x/y.log" = inr false /\
  Match "a[b-d]?" "acx" = inr true /\ Match "a[^b-d]*" "aez" = inr true /\
  Match "a*b*c" "a12b34c" = inr true /\
  Match "app[-*.log*" "" = inl ErrBadPattern /\
  Match "[]" "x" = inl ErrBadPattern /\ Match "a\" "a" = inl ErrBadPattern.
Proof. vm_compute. repeat split. Qed.

Example Format_examples :
  Format 0 0 = "1970-01-01-000000" /\
  Format 0 (1793400000 * Second) = "2026-10-30-224000" /\
  Format 3600 (951782400 * Second - 1) = "2000-02-29-005959" /\
  Format 0 (-1) = "1969-12-31-235959".
Proof. vm_compute. repeat split. Qed.

Example Truncate_examples :
  Truncate (1793400000 * Second + 5) (24 * Hour) = 1793318400 * Second /\
  Truncate (25 * Hour) (24 * Hour) = 24 * Hour.
Proof. vm_compute. repeat split. Qed.

(** A whole life of a rotator: built in the quiet world with a ceiling
    of 10 bytes and compression, it takes 12 bytes, and rotates at the
    next write. *)
Example size_rotation :
  let config := mkConfig "logs/app.log" 10 0 2 true false in
  match NewLogRotator config Sample.quiet with
  | (inr lr, w) =>
      let '(r1, lr1, w1) := Write lr (repeat Byte.x41 12) w in
      let '(r2, lr2, w2) := Write lr1 (repeat Byte.x42 3) w1 in
      r1 = (12%nat, None) /\ fileSize lr1 = 12 /\
      since w w1 = [EvWrite 3 12] /\
      r2 = (3%nat, None) /\ fileSize lr2 = 3 /\
      since w1 w2 =
        [EvClose 3;
         EvRename "logs/app.log" "logs/app-1970-01-01-000000.log";
         EvOpen "logs/app-1970-01-01-000000.log";
         EvCreate "logs/app-1970-01-01-000000.log.gz";
         EvCopy "logs/app-1970-01-01-000000.log"
                "logs/app-1970-01-01-000000.log.gz";
         EvRemove "logs/app-1970-01-01-000000.log"; EvWrite 5 12;
         EvClose 5; EvClose 4;
         EvGlob "logs/app-*.log*";
         EvStat "logs/app-1970-01-01-000000.log.gz";
         EvOpenFile "logs/app.log"; EvFStat 6; EvWrite 6 3]
  | _ => False
  end.
Proof. vm_compute. repeat split. Qed.

(** ** Facts about the operating system model *)

(** The next outcome is taken from the script, which is all that
    changes. *)
Lemma pop_spec w : exists o s, pop w = (o, set_script s w).
Proof.
  unfold pop. destruct w as [f o n c t z s tr]. destruct s as [|x s]; cbn.
  - exists Works, []. reflexivity.
  - exists x, s. reflexivity.
Qed.

Lemma pop_quiet w : script w = [] -> pop w = (Works, w).
Proof. unfold pop. intros ->. reflexivity. Qed.


(** Proof steps that come back all the time: take the next outcome,
    decide whether a descriptor is open, run one call and keep what it
    added to the trace. *)
Ltac pop_next :=
  match goal with
  | |- context [pop ?x] =>
      let o := fresh "o" in let s := fresh "s" in
      destruct (pop_spec x) as (o & s & ->); cbn
  end.

Ltac split_decide :=
  match goal with
  | |- context [decide (?a ∈ ?s)] => destruct (decide (a ∈ s)); cbn
  end.

Ltac run_call c lem r w1 H :=
  pose proof lem as H; destruct c as [r w1]; cbn [snd] in H.

Section OSFacts.

Lemma FClose_closed h w :
  fd h ∉ opened w ->
  FClose h w = (Some (PathError "close" (name h) ErrClosed),
                emit (EvClose (fd h)) w).
Proof.
  intros Hc. unfold FClose. cbn.
  destruct (decide (fd h ∈ opened w)); [contradiction | reflexivity].
Qed.

Lemma FWrite_closed h p w :
  fd h ∉ opened w ->
  FWrite h p w = ((O, Some (PathError "write" (name h) ErrClosed)),
                  emit (EvWrite (fd h) (length p)) w).
Proof.
  intros Hc. unfold FWrite. cbn.
  destruct (decide (fd h ∈ opened w)); [contradiction | reflexivity].
Qed.

Lemma pop_opened w : opened (snd (pop w)) = opened w.
Proof. unfold pop. destruct (script w); reflexivity. Qed.

(** After [Close] the descriptor is closed, whatever [Close] says. *)
Lemma FClose_after h w : fd h ∉ opened (snd (FClose h w)).
Proof.
  unfold FClose.
  destruct (decide (fd h ∈ opened (emit (EvClose (fd h)) w))) as [Hin|Hout].
  - destruct (pop _) as [o w1].
    destruct (failure o); cbn; rewrite elem_of_difference, elem_of_singleton;
      tauto.
  - exact Hout.
Qed.

(** What [glob] lists when no match fails: the names that match, in
    the order of the names. *)
Lemma glob_filter pat l m :
  glob pat l = inr m -> m = filter (fun p => Match pat p = inr true) l.
Proof.
  revert m. induction l as [|n rest IH]; intros m; cbn [glob].
  - intros [= <-]. reflexivity.
  - destruct (Match pat n) as [e|b] eqn:E; [intros [=] |].
    destruct (glob pat rest) as [e|m']; [intros [=] |].
    intros [= <-]. rewrite (IH m' eq_refl), filter_cons.
    destruct b.
    + rewrite decide_True by exact E. reflexivity.
    + rewrite decide_False by (rewrite E; discriminate). reflexivity.
Qed.

(** [Glob] changes nothing but the trace, and what it lists is
    [matching]. *)
Lemma Glob_cases p w :
  (exists e, Glob p w = (inl e, emit (EvGlob p) w)) \/
  Glob p w = (inr (matching p (fs w)), emit (EvGlob p) w).
Proof.
  unfold Glob. destruct (Match p "") as [e|b]; [left; eauto |].
  cbn [fs emit]. destruct (glob p (names (fs w))) as [e|m] eqn:E;
    [left; eauto |].
  right. apply glob_filter in E. subst m. reflexivity.
Qed.

Lemma Glob_inr p w matches :
  fst (Glob p w) = inr matches ->
  Glob p w = (inr matches, emit (EvGlob p) w) /\ matching p (fs w) = matches.
Proof.
  destruct (Glob_cases p w) as [[e ->]| ->]; cbn; [discriminate |].
  intros [= <-]. split; reflexivity.
Qed.

End OSFacts.

(** ** A closed handle stays closed *)

Section ClosedHandle.
Context {RT : Runtime}.

Lemma rotate_closed lr w h :
  file lr = Some h -> fd h ∉ opened w ->
  rotate lr w =
    (Some (Wrap "failed to close log file"
                (PathError "close" (name h) ErrClosed)),
     lr, emit (EvClose (fd h)) w).
Proof.
  intros Hf Hc. unfold rotate. rewrite Hf, (FClose_closed h w Hc).
  reflexivity.
Qed.

(** With a closed handle, [checkRotation] changes neither the rotator,
    nor the files, nor the descriptors, and any error it returns is the
    "file already closed" of the close it attempted. *)
Lemma checkRotation_closed lr w :
  holds_closed lr w ->
  exists r w', checkRotation lr w = (r, lr, w') /\
    fs w' = fs w /\ opened w' = opened w /\
    (forall e, r = Some e -> Is e ErrClosed = true).
Proof.
  intros (h & Hf & Hc). unfold checkRotation. cbn.
  set (w0 := mkWorld _ _ _ _ _ _ _ _).
  assert (Hc0 : fd h ∉ opened w0) by exact Hc.
  destruct (rotateDaily lr && After _ _).
  - rewrite (rotate_closed lr w0 h Hf Hc0).
    eexists _, _. split; [reflexivity |]. repeat split.
    intros e [= <-]. reflexivity.
  - destruct (maxSize lr <=? fileSize lr).
    + rewrite (rotate_closed lr w0 h Hf Hc0).
      eexists _, _. split; [reflexivity |]. repeat split.
      intros e [= <-]. reflexivity.
    + eexists _, _. split; [reflexivity |]. repeat split.
      intros e [=].
Qed.

Lemma Write_closed lr p w :
  holds_closed lr w ->
  exists err w', Write lr p w = ((O, Some err), lr, w') /\
    Is err ErrClosed = true /\ fs w' = fs w /\ opened w' = opened w.
Proof.
  intros Hh. destruct (checkRotation_closed lr w Hh) as (r & w1 & Hcr & Hfs & Hop & Herr).
  destruct Hh as (h & Hf & Hc).
  unfold Write. rewrite Hcr. destruct r as [e|].
  - exists e, w1. repeat split; auto.
  - rewrite Hf. rewrite FWrite_closed by (rewrite Hop; exact Hc).
    eexists _, _. split; [reflexivity |]. repeat split; assumption.
Qed.

Lemma call_closed c lr w :
  holds_closed lr w ->
  exists w', call c lr w = (lr, w') /\ fs w' = fs w /\ opened w' = opened w.
Proof.
  intros Hh. destruct c as [p| | |]; cbn.
  - destruct (Write_closed lr p w Hh) as (e & w' & -> & _ & Hfs & Hop).
    exists w'. auto.
  - destruct Hh as (h & Hf & Hc). unfold Rotate.
    rewrite (rotate_closed lr w h Hf Hc). eexists. repeat split.
  - destruct Hh as (h & Hf & Hc). unfold Close. rewrite Hf.
    rewrite (FClose_closed h w Hc). eexists. repeat split.
  - exists w. auto.
Qed.

Lemma calls_closed cs lr w :
  holds_closed lr w ->
  exists w', calls cs lr w = (lr, w') /\ fs w' = fs w /\ opened w' = opened w.
Proof.
  revert w. induction cs as [|c cs IH]; intros w Hh; cbn.
  - exists w. auto.
  - destruct (call_closed c lr w Hh) as (w1 & -> & Hfs & Hop).
    destruct (IH w1) as (w2 & -> & Hfs2 & Hop2).
    + destruct Hh as (h & Hf & Hc). exists h. rewrite Hop. auto.
    + exists w2. repeat split; congruence.
Qed.

End ClosedHandle.

(** ** What a rotation can do to the rotator *)

Section RotatorShape.
Context {RT : Runtime}.

(** [openFile] either fails and leaves the rotator as it was, or
    installs a handle whose descriptor is open. *)
Lemma openFile_cases lr w :
  forall r lr' w', openFile lr w = (r, lr', w') ->
    (is_Some r /\ lr' = lr) \/
    (r = None /\ exists f size, lr' = set_file f size lr /\ fd f ∈ opened w').
Proof.
  intros r lr' w'. unfold openFile, OpenFile.
  destruct (pop (emit (EvOpenFile (filePath lr)) w)) as [o w1].
  destruct (failure o).
  - intros [= <- <- <-]. left. split; [eexists |]; reflexivity.
  - set (w2 := match fs w1 !! key (filePath lr) with
               | Some _ => w1 | None => _ end).
    cbn. unfold FStat.
    match goal with |- context [decide (?a ∈ ?s)] =>
      destruct (decide (a ∈ s)) as [Hin|Hout] end.
    + match goal with |- context [pop ?x] =>
        pose proof (pop_opened x) as Hop; destruct (pop x) as [o2 w3] end.
      cbn in Hop. destruct (failure o2).
      * unfold FClose. cbn.
        match goal with |- context [decide (?a ∈ ?s)] =>
          destruct (decide (a ∈ s)) end.
        -- match goal with |- context [pop ?x] => destruct (pop x) as [o3 w4] end.
           destruct (failure o3); intros [= <- <- <-]; left;
             (split; [eexists |]; reflexivity).
        -- intros [= <- <- <-]. left. split; [eexists |]; reflexivity.
      * destruct (fs w3 !! _); intros [= <- <- <-]; right;
          (split; [reflexivity |]); eexists _, _;
          (split; [reflexivity |]); rewrite Hop; exact Hin.
    + unfold FClose. cbn.
      match goal with |- context [decide (?a ∈ ?s)] =>
        destruct (decide (a ∈ s)) end.
      * match goal with |- context [pop ?x] => destruct (pop x) as [o3 w4] end.
        destruct (failure o3); intros [= <- <- <-]; left;
          (split; [eexists |]; reflexivity).
      * intros [= <- <- <-]. left. split; [eexists |]; reflexivity.
Qed.

Lemma rotate_cases lr w :
  forall r lr' w', rotate lr w = (r, lr', w') ->
    (is_Some r /\ lr' = lr) \/
    (r = None /\ exists f size, lr' = set_file f size lr /\ fd f ∈ opened w').
Proof.
  intros r lr' w'. unfold rotate.
  destruct (file lr) as [f|]; [| apply openFile_cases].
  destruct (FClose f w) as [[e|] w1].
  { intros [= <- <- <-]. left. split; [eexists |]; reflexivity. }
  destruct (generateRotatedName lr w1) as [rotatedName w2].
  destruct (String.eqb rotatedName "").
  { intros [= <- <- <-]. left. split; [eexists |]; reflexivity. }
  destruct (Rename (filePath lr) rotatedName w2) as [[e|] w3].
  { intros [= <- <- <-]. left. split; [eexists |]; reflexivity. }
  destruct (if compress lr then compressFile rotatedName w3 else (None, w3))
    as [[e|] w4].
  { intros [= <- <- <-]. left. split; [eexists |]; reflexivity. }
  destruct (cleanup lr w4) as [[e|] w5].
  { intros [= <- <- <-]. left. split; [eexists |]; reflexivity. }
  apply openFile_cases.
Qed.

Lemma same_settings_refl a : same_settings a a.
Proof. repeat split. Qed.

Lemma same_settings_trans a b c :
  same_settings a b -> same_settings b c -> same_settings a c.
Proof. unfold same_settings. intuition congruence. Qed.

Lemma rotate_settings lr w :
  forall r lr' w', rotate lr w = (r, lr', w') ->
    same_settings lr lr' /\ rotateTime lr' = rotateTime lr /\
    (is_Some (file lr) -> is_Some (file lr')).
Proof.
  intros r lr' w' H.
  destruct (rotate_cases lr w r lr' w' H) as [[_ ->]|[_ (f & sz & -> & _)]].
  - split; [apply same_settings_refl | auto].
  - repeat split. intros _. eexists. reflexivity.
Qed.

Lemma checkRotation_settings lr w :
  forall r lr' w', checkRotation lr w = (r, lr', w') ->
    same_settings lr lr' /\ (is_Some (file lr) -> is_Some (file lr')).
Proof.
  intros r lr' w'. unfold checkRotation. cbn.
  set (w0 := mkWorld _ _ _ _ _ _ _ _).
  destruct (rotateDaily lr && After _ _).
  - destruct (rotate lr w0) as [[r1 lr1] w1] eqn:Hr.
    destruct (rotate_settings lr w0 r1 lr1 w1 Hr) as (Hs & _ & Hf).
    destruct r1; intros [= <- <- <-]; split; auto.
  - destruct (maxSize lr <=? fileSize lr).
    + intros Hr. destruct (rotate_settings lr w0 r lr' w' Hr) as (Hs & _ & Hf).
      auto.
    + intros [= <- <- <-]. split; [apply same_settings_refl | auto].
Qed.

Lemma Write_settings lr p w :
  forall r lr' w', Write lr p w = (r, lr', w') ->
    same_settings lr lr' /\ (is_Some (file lr) -> is_Some (file lr')).
Proof.
  intros r lr' w'. unfold Write.
  destruct (checkRotation lr w) as [[r1 lr1] w1] eqn:Hc.
  destruct (checkRotation_settings lr w r1 lr1 w1 Hc) as (Hs & Hf).
  destruct r1.
  { intros [= <- <- <-]. auto. }
  destruct (file lr1) as [f|] eqn:Hfile.
  - destruct (FWrite f p w1) as [[n [e|]] w2]; intros [= <- <- <-].
    + split; [exact Hs |]. rewrite Hfile. eauto.
    + split; [exact Hs |]. cbn. rewrite Hfile. eauto.
  - intros [= <- <- <-]. split; [exact Hs |]. rewrite Hfile. exact Hf.
Qed.

Lemma call_settings c lr w :
  same_settings lr (fst (call c lr w)) /\
  (is_Some (file lr) -> is_Some (file (fst (call c lr w)))).
Proof.
  destruct c as [p| | |]; cbn; try (split; [apply same_settings_refl | auto]).
  - destruct (Write lr p w) as [[r lr'] w'] eqn:H.
    apply (Write_settings lr p w r lr' w' H).
  - unfold Rotate. destruct (rotate lr w) as [[r lr'] w'] eqn:H.
    destruct (rotate_settings lr w r lr' w' H) as (? & _ & ?). auto.
Qed.

Lemma calls_settings cs lr w :
  same_settings lr (fst (calls cs lr w)) /\
  (is_Some (file lr) -> is_Some (file (fst (calls cs lr w)))).
Proof.
  revert lr w. induction cs as [|c cs IH]; intros lr w; cbn.
  - split; [apply same_settings_refl | auto].
  - pose proof (call_settings c lr w) as [Hs Hf].
    destruct (call c lr w) as [lr1 w1]. cbn in *.
    destruct (IH lr1 w1) as [Hs' Hf'].
    split; [eapply same_settings_trans; eauto | auto].
Qed.

(** A rotator that [NewLogRotator] returns holds an open handle and has
    the settings of the configuration, defaults applied. *)
Lemma NewLogRotator_ok config w lr w' :
  NewLogRotator config w = (inr lr, w') ->
  holds_open lr w' /\
  filePath lr = FilePath config /\
  maxSize lr = (if MaxSize config =? 0 then 100 * 1024 * 1024
                else MaxSize config) /\
  maxAge lr = (if MaxAge config =? 0 then 7 * 24 * Hour
               else MaxAge config) /\
  maxBackups lr = (if MaxBackups config =? 0 then 5
                   else MaxBackups config) /\
  compress lr = Compress config /\ rotateDaily lr = RotateDaily config.
Proof.
  unfold NewLogRotator. destruct (String.eqb _ ""); [intros [=] |].
  cbn. destruct (MkdirAll _ _) as [[e|] w1]; [intros [=] |].
  match goal with |- context [openFile ?l ?x] =>
    destruct (openFile l x) as [[r lr1] w2] eqn:Ho end.
  destruct (openFile_cases _ _ _ _ _ Ho) as [[[e ->] ->]|[-> (f & sz & -> & Hin)]];
    intros [= <- <-].
  split; [exists f; split; [reflexivity | exact Hin] |].
  repeat split.
Qed.

End RotatorShape.

(** ** Writing after [Close] *)

Section AfterClose.
Context {RT : Runtime}.

(** C5. Every [Write] made after [Close] has returned fails with the
    "file already closed" error of package os, writes no byte, and leaves
    every file as it was: for a rotator built by [NewLogRotator], whatever
    calls came before the [Close] and whatever calls came between the
    [Close] and the [Write]. *)
Theorem write_after_close_fails config w0 lr w1 before after p :
  NewLogRotator config w0 = (inr lr, w1) ->
  let s2 := calls before lr w1 in
  let s3 := calls after (fst s2) (snd (Close (fst s2) (snd s2))) in
  exists err w4,
    Write (fst s3) p (snd s3) = ((O, Some err), fst s3, w4) /\
    Is err ErrClosed = true /\
    fs w4 = fs (snd s3).
Proof.
  intros Hnew s2 s3.
  destruct (NewLogRotator_ok config w0 lr w1 Hnew) as ((h0 & Hf0 & _) & _).
  pose proof (calls_settings before lr w1) as [_ Hsome].
  fold s2 in Hsome. destruct s2 as [lr2 w2]. cbn in Hsome, s3.
  destruct Hsome as [h Hh]; [rewrite Hf0; eauto |].
  assert (Hclosed : holds_closed lr2 (snd (Close lr2 w2))).
  { exists h. split; [exact Hh |]. unfold Close. rewrite Hh. apply FClose_after. }
  destruct (calls_closed after lr2 _ Hclosed) as (w3 & Heq & _ & Hop).
  subst s3. rewrite Heq. cbn.
  assert (Hclosed3 : holds_closed lr2 w3).
  { destruct Hclosed as (h' & Hf' & Hc'). exists h'. rewrite Hop. auto. }
  destruct (Write_closed lr2 p w3 Hclosed3) as (err & w4 & Hw & His & Hfs & _).
  exists err, w4. auto.
Qed.

(** C10. [Close] does not clear the handle: after a [Close] that
    succeeded the rotator still holds the handle, now closed, so that a
    second [Close] returns the "file already closed" error instead of
    nil, and [GetStats] still reports [file_open] as true. *)
Theorem close_keeps_handle lr w h w' :
  file lr = Some h ->
  Close lr w = (None, w') ->
  (fd h ∉ opened w') /\
  (exists e, fst (Close lr w') = Some e /\ Is e ErrClosed = true) /\
  GetStats lr !! "file_open" = Some (VBool true).
Proof.
  intros Hf Hclose. unfold Close in *. rewrite Hf in *.
  assert (Hc : fd h ∉ opened w').
  { pose proof (FClose_after h w) as H. rewrite Hclose in H. exact H. }
  split; [exact Hc |]. split.
  - rewrite (FClose_closed h w' Hc). eexists. split; reflexivity.
  - unfold GetStats. rewrite Hf. apply lookup_insert_eq.
Qed.

End AfterClose.

Lemma write_after_close_fails_witness :
  NewLogRotator (plain_config "app.log" false) Sample.quiet
    = (inr app_rotator, app_world) /\
  let s2 := calls [CallWrite [Byte.x41]] app_rotator app_world in
  let s3 := calls [CallRotate; CallGetStats] (fst s2)
                  (snd (Close (fst s2) (snd s2))) in
  exists err w4,
    Write (fst s3) [Byte.x42] (snd s3) = ((O, Some err), fst s3, w4) /\
    Is err ErrClosed = true /\
    fs w4 = fs (snd s3).
Proof.
  assert (H : NewLogRotator (plain_config "app.log" false) Sample.quiet
              = (inr app_rotator, app_world)) by (vm_compute; reflexivity).
  split; [exact H |].
  exact (write_after_close_fails (plain_config "app.log" false) Sample.quiet
           app_rotator app_world [CallWrite [Byte.x41]]
           [CallRotate; CallGetStats] [Byte.x42] H).
Defined.

Lemma close_keeps_handle_witness :
  file app_rotator = Some (mkHandle 3 "app.log") /\
  Close app_rotator app_world = (None, app_closed) /\
  (3%nat ∉ opened app_closed) /\
  (exists e, fst (Close app_rotator app_closed) = Some e /\
             Is e ErrClosed = true) /\
  GetStats app_rotator !! "file_open" = Some (VBool true).
Proof.
  assert (H : Close app_rotator app_world = (None, app_closed))
    by (vm_compute; reflexivity).
  split; [reflexivity |]. split; [exact H |].
  exact (close_keeps_handle app_rotator app_world (mkHandle 3 "app.log")
           app_closed eq_refl H).
Defined.

(** ** What each call adds to the trace *)

Section Traces.

Lemma OpenFile_trace p w :
  trace (snd (OpenFile p w)) = trace w ++ [EvOpenFile p].
Proof.
  unfold OpenFile. pop_next. destruct (failure o); [reflexivity |].
  destruct (fs w !! key p); reflexivity.
Qed.

Lemma Open_trace p w : trace (snd (Open p w)) = trace w ++ [EvOpen p].
Proof.
  unfold Open. pop_next. destruct (failure o); [reflexivity |].
  destruct (fs w !! key p); reflexivity.
Qed.

Lemma Create_trace p w : trace (snd (Create p w)) = trace w ++ [EvCreate p].
Proof. unfold Create. pop_next. destruct (failure o); reflexivity. Qed.

Lemma FStat_trace h w : trace (snd (FStat h w)) = trace w ++ [EvFStat (fd h)].
Proof.
  unfold FStat. split_decide; [| reflexivity]. pop_next.
  destruct (failure o); [reflexivity |].
  destruct (fs w !! key (name h)); reflexivity.
Qed.

Lemma FWrite_trace h p w :
  trace (snd (FWrite h p w)) = trace w ++ [EvWrite (fd h) (length p)].
Proof.
  unfold FWrite. split_decide; [| reflexivity]. pop_next.
  destruct o as [|err|k err]; try reflexivity.
  match goal with |- context [if ?b then _ else _] => destruct b end;
    reflexivity.
Qed.

Lemma FClose_trace h w :
  trace (snd (FClose h w)) = trace w ++ [EvClose (fd h)].
Proof.
  unfold FClose. split_decide; [| reflexivity]. pop_next.
  destruct (failure o); reflexivity.
Qed.

Lemma Rename_trace a b w :
  trace (snd (Rename a b w)) = trace w ++ [EvRename a b].
Proof.
  unfold Rename. pop_next. destruct (failure o); [reflexivity |].
  destruct (fs w !! key a); reflexivity.
Qed.

Lemma Remove_trace p w : trace (snd (Remove p w)) = trace w ++ [EvRemove p].
Proof.
  unfold Remove. pop_next. destruct (failure o); [reflexivity |].
  destruct (fs w !! key p); reflexivity.
Qed.

Lemma Stat_trace p w : trace (snd (Stat p w)) = trace w ++ [EvStat p].
Proof.
  unfold Stat. pop_next. destruct (failure o); [reflexivity |].
  destruct (fs w !! key p); reflexivity.
Qed.

Lemma Glob_trace p w : trace (snd (Glob p w)) = trace w ++ [EvGlob p].
Proof. destruct (Glob_cases p w) as [[e ->]| ->]; reflexivity. Qed.

Lemma Copy_trace z fl dst src w :
  trace (snd (Copy z fl dst src w))
    = trace w ++ [EvCopy (name src) (name dst)].
Proof. unfold Copy. pop_next. destruct o; reflexivity. Qed.

Lemma drop_handle_trace h w :
  trace (drop_handle h w) = trace w ++ [EvClose (fd h)].
Proof. reflexivity. Qed.

Lemma since_app w w' evs : trace w' = trace w ++ evs -> since w w' = evs.
Proof. unfold since. intros ->. apply drop_app_length. Qed.

End Traces.

(** ** The calls of each method *)

Section MethodTraces.
Context {RT : Runtime}.

Lemma count_app f a b : count f (a ++ b) = (count f a + count f b)%nat.
Proof. induction a as [|e a IH]; cbn; [reflexivity |]. destruct (f e); lia. Qed.

Lemma extends_refl w : extends w w [].
Proof. unfold extends. rewrite app_nil_r. reflexivity. Qed.

Lemma extends_trans w w1 w2 a b :
  extends w w1 a -> extends w1 w2 b -> extends w w2 (a ++ b).
Proof. unfold extends. intros H1 H2. rewrite H2, H1, app_assoc. reflexivity. Qed.

Lemma Now_extends w : extends w (snd (Now w)) [].
Proof. unfold extends. cbn. rewrite app_nil_r. reflexivity. Qed.

Lemma openFile_extends lr w :
  exists evs, extends w (snd (openFile lr w)) evs /\
              forallb is_open_call evs = true.
Proof.
  unfold openFile.
  run_call (OpenFile (filePath lr) w) (OpenFile_trace (filePath lr) w) r w1 H1.
  destruct r as [e|f]; [eexists; split; [exact H1 | reflexivity] |].
  run_call (FStat f w1) (FStat_trace f w1) r w2 H2.
  destruct r as [e|st].
  - run_call (FClose f w2) (FClose_trace f w2) r w3 H3. cbn.
    exists ([EvOpenFile (filePath lr)] ++ [EvFStat (fd f)] ++ [EvClose (fd f)]).
    split; [| reflexivity].
    eapply extends_trans; [exact H1 |]. eapply extends_trans; eassumption.
  - cbn. exists ([EvOpenFile (filePath lr)] ++ [EvFStat (fd f)]).
    split; [| reflexivity]. eapply extends_trans; eassumption.
Qed.

Lemma forallb_count_0 (P f : Event -> bool) evs :
  (forall e, P e = true -> f e = false) ->
  forallb P evs = true -> count f evs = O.
Proof.
  intros Hpf. induction evs as [|e evs IH]; cbn; [reflexivity |].
  intros [He Hr]%andb_prop. rewrite (Hpf e He). auto.
Qed.

Lemma forallb_app_2 (P : Event -> bool) a b :
  forallb P a = true -> forallb P b = true -> forallb P (a ++ b) = true.
Proof. intros Ha Hb. rewrite forallb_app, Ha, Hb. reflexivity. Qed.

Lemma compressFile_calls filename w :
  exists evs, extends w (snd (compressFile filename w)) evs /\
              forallb is_compress_call evs = true.
Proof.
  unfold compressFile.
  destruct (HasSuffix filename ".gz");
    [exists []; split; [apply extends_refl | reflexivity] |].
  run_call (Open filename w) (Open_trace filename w) r w1 H1.
  destruct r as [e|source]; [eexists; split; [exact H1 | reflexivity] |].
  run_call (Create (filename +:+ ".gz") w1)
           (Create_trace (filename +:+ ".gz") w1) r w2 H2.
  destruct r as [e|compressed].
  - cbn. eexists. split.
    + eapply extends_trans; [exact H1 |]. eapply extends_trans; [exact H2 |].
      apply drop_handle_trace.
    + reflexivity.
  - run_call (Copy gzip flushed compressed source w2)
             (Copy_trace gzip flushed compressed source w2) r w3 H3.
    destruct r as [e|held].
    + cbn. eexists. split.
      * eapply extends_trans; [exact H1 |]. eapply extends_trans; [exact H2 |].
        eapply extends_trans; [exact H3 |].
        eapply extends_trans; apply drop_handle_trace.
      * reflexivity.
    + run_call (Remove filename w3) (Remove_trace filename w3) r w4 H4.
      run_call (FWrite compressed held w4) (FWrite_trace compressed held w4)
               r' w5 H5.
      cbn. eexists. split.
      * eapply extends_trans; [exact H1 |]. eapply extends_trans; [exact H2 |].
        eapply extends_trans; [exact H3 |]. eapply extends_trans; [exact H4 |].
        eapply extends_trans; [exact H5 |].
        eapply extends_trans; apply drop_handle_trace.
      * reflexivity.
Qed.

Lemma stat_matches_extends matches w :
  exists evs, extends w (snd (stat_matches matches w)) evs /\
              forallb is_cleanup_call evs = true.
Proof.
  revert w. induction matches as [|m rest IH]; intros w; cbn.
  - exists []. split; [apply extends_refl | reflexivity].
  - run_call (Stat m w) (Stat_trace m w) r w1 H1.
    destruct (IH w1) as (evs & He & Hc).
    destruct (stat_matches rest w1) as [files w2]. cbn in He.
    exists ([EvStat m] ++ evs). split.
    + destruct r; cbn [snd]; eapply extends_trans; eassumption.
    + apply forallb_app_2; [reflexivity | exact Hc].
Qed.

Lemma remove_aged_extends cutoff files w :
  exists evs, extends w (remove_aged cutoff files w) evs /\
              forallb is_cleanup_call evs = true.
Proof.
  revert w. induction files as [|f rest IH]; intros w; cbn.
  - exists []. split; [apply extends_refl | reflexivity].
  - destruct (Before (modTime f) cutoff); [| apply IH].
    destruct (IH (snd (Remove (path f) w))) as (evs & He & Hc).
    exists ([EvRemove (path f)] ++ evs). split.
    + eapply extends_trans; [apply Remove_trace | exact He].
    + apply forallb_app_2; [reflexivity | exact Hc].
Qed.

Lemma remove_excess_extends toRemove i files w :
  exists evs, extends w (remove_excess toRemove i files w) evs /\
              forallb is_cleanup_call evs = true.
Proof.
  revert i w. induction files as [|f rest IH]; intros i w; cbn.
  - exists []. split; [apply extends_refl | reflexivity].
  - destruct (i <? toRemove);
      [| exists []; split; [apply extends_refl | reflexivity]].
    destruct (IH (i + 1) (snd (Remove (path f) w))) as (evs & He & Hc).
    exists ([EvRemove (path f)] ++ evs). split.
    + eapply extends_trans; [apply Remove_trace | exact He].
    + apply forallb_app_2; [reflexivity | exact Hc].
Qed.

Lemma cleanup_extends lr w :
  exists evs, extends w (snd (cleanup lr w)) evs /\
              forallb is_cleanup_call evs = true.
Proof.
  unfold cleanup.
  run_call (Glob (pattern lr) w) (Glob_trace (pattern lr) w) r w1 H1.
  destruct r as [e|matches]; [eexists; split; [exact H1 | reflexivity] |].
  destruct (stat_matches_extends matches w1) as (evs2 & H2 & C2).
  destruct (stat_matches matches w1) as [files w2]. cbn [snd] in H2. cbn.
  set (w3 := mkWorld _ _ _ _ _ _ _ _).
  assert (H3 : extends w2 w3 []) by apply (Now_extends w2).
  set (cutoff := Add _ _).
  destruct (remove_aged_extends cutoff (sortSlice files) w3) as (evs4 & H4 & C4).
  set (w4 := remove_aged _ _ _) in *.
  destruct (maxBackups lr <? _).
  - match goal with |- context [remove_excess ?a ?b ?c ?d] =>
      destruct (remove_excess_extends a b c d) as (evs5 & H5 & C5) end.
    eexists. split.
    + eapply extends_trans; [exact H1 |]. eapply extends_trans; [exact H2 |].
      eapply extends_trans; [exact H3 |]. eapply extends_trans; eassumption.
    + repeat apply forallb_app_2; auto.
  - eexists. split.
    + eapply extends_trans; [exact H1 |]. eapply extends_trans; [exact H2 |].
      eapply extends_trans; [exact H3 | exact H4].
    + repeat apply forallb_app_2; auto.
Qed.

Lemma one_cycle_quiet (P : Event -> bool) evs :
  (forall e, P e = true -> is_rename e = false /\ is_openfile e = false) ->
  forallb P evs = true ->
  count is_rename evs = O /\ count is_openfile evs = O.
Proof.
  intros HP H. split; apply (forallb_count_0 P); try exact H;
    intros e He; apply HP in He; tauto.
Qed.

Lemma compress_calls_quiet evs :
  forallb is_compress_call evs = true ->
  count is_rename evs = O /\ count is_openfile evs = O.
Proof. apply one_cycle_quiet. intros []; cbn; auto; discriminate. Qed.

Lemma cleanup_calls_quiet evs :
  forallb is_cleanup_call evs = true ->
  count is_rename evs = O /\ count is_openfile evs = O.
Proof. apply one_cycle_quiet. intros []; cbn; auto; discriminate. Qed.

Lemma openFile_one_cycle lr w :
  exists evs, extends w (snd (openFile lr w)) evs /\ one_cycle evs.
Proof.
  unfold openFile.
  run_call (OpenFile (filePath lr) w) (OpenFile_trace (filePath lr) w) r w1 H1.
  destruct r as [e|f];
    [eexists; split; [exact H1 | split; cbn; lia] |].
  run_call (FStat f w1) (FStat_trace f w1) r w2 H2.
  destruct r as [e|st].
  - run_call (FClose f w2) (FClose_trace f w2) r w3 H3. cbn [snd].
    exists ([EvOpenFile (filePath lr)] ++ [EvFStat (fd f)] ++ [EvClose (fd f)]).
    split; [| split; cbn; lia].
    eapply extends_trans; [exact H1 |]. eapply extends_trans; eassumption.
  - cbn [snd]. exists ([EvOpenFile (filePath lr)] ++ [EvFStat (fd f)]).
    split; [| split; cbn; lia]. eapply extends_trans; eassumption.
Qed.

Lemma rotate_extends lr w :
  exists evs, extends w (snd (rotate lr w)) evs /\ one_cycle evs.
Proof.
  unfold rotate. destruct (file lr) as [f|]; [| apply openFile_one_cycle].
  run_call (FClose f w) (FClose_trace f w) r w1 H1.
  destruct r as [e|]; [eexists; split; [exact H1 | split; cbn; lia] |].
  unfold generateRotatedName. cbn.
  set (w2 := mkWorld _ _ _ _ _ _ _ _).
  assert (H2 : extends w1 w2 []) by apply (Now_extends w1).
  set (rotatedName := _ +:+ _).
  destruct (String.eqb rotatedName "").
  { eexists. split; [eapply extends_trans; [exact H1 | exact H2] |].
    split; cbn; lia. }
  run_call (Rename (filePath lr) rotatedName w2)
           (Rename_trace (filePath lr) rotatedName w2) r w3 H3.
  destruct r as [e|].
  { eexists. split.
    - eapply extends_trans; [exact H1 |].
      eapply extends_trans; [exact H2 | exact H3].
    - split; cbn; lia. }
  assert (Hz : exists evs, extends w3
             (snd (if compress lr then compressFile rotatedName w3
                   else (None, w3))) evs /\
             count is_rename evs = O /\ count is_openfile evs = O).
  { destruct (compress lr).
    - destruct (compressFile_calls rotatedName w3) as (evs & He & Hc).
      exists evs. split; [exact He | apply compress_calls_quiet; exact Hc].
    - exists []. split; [apply extends_refl | split; reflexivity]. }
  destruct Hz as (evs4 & H4 & C4r & C4o).
  destruct (if compress lr then _ else _) as [r w4]. cbn [snd] in H4.
  destruct r as [e|].
  { eexists. split.
    - eapply extends_trans; [exact H1 |]. eapply extends_trans; [exact H2 |].
      eapply extends_trans; [exact H3 | exact H4].
    - split; rewrite !count_app, ?C4r, ?C4o; cbn; lia. }
  destruct (cleanup_extends lr w4) as (evs5 & H5 & C5).
  apply cleanup_calls_quiet in C5 as [C5r C5o].
  destruct (cleanup lr w4) as [r w5]. cbn [snd] in H5.
  destruct r as [e|].
  { eexists. split.
    - eapply extends_trans; [exact H1 |]. eapply extends_trans; [exact H2 |].
      eapply extends_trans; [exact H3 |].
      eapply extends_trans; [exact H4 | exact H5].
    - split; rewrite !count_app, ?C4r, ?C4o, ?C5r, ?C5o; cbn; lia. }
  destruct (openFile_extends lr w5) as (evs6 & H6 & C6).
  assert (C6r : count is_rename evs6 = O).
  { apply (forallb_count_0 is_open_call); [| exact C6].
    intros []; cbn; congruence. }
  destruct (openFile_one_cycle lr w5) as (evs6' & H6' & _ & C6o).
  assert (evs6' = evs6).
  { unfold extends in H6, H6'. rewrite H6 in H6'.
    apply app_inv_head in H6'. congruence. }
  subst evs6'.
  eexists. split.
  - eapply extends_trans; [exact H1 |]. eapply extends_trans; [exact H2 |].
    eapply extends_trans; [exact H3 |]. eapply extends_trans; [exact H4 |].
    eapply extends_trans; [exact H5 | exact H6].
  - split; rewrite !count_app, ?C4r, ?C4o, ?C5r, ?C5o, ?C6r; cbn; lia.
Qed.

End MethodTraces.

(** ** The rotation triggers *)

Section Triggers.
Context {RT : Runtime}.

(** [checkRotation], trigger by trigger. *)
Lemma checkRotation_eq lr w :
  checkRotation lr w =
    if daily_due lr w then
      let '(err, lr', w') := rotate lr (snd (Now w)) in
      match err with
      | Some e => (Some e, lr', w')
      | None => (None, set_rotateTime (currentDay w) lr', w')
      end
    else if size_due lr then rotate lr (snd (Now w))
    else (None, lr, snd (Now w)).
Proof. reflexivity. Qed.

Lemma checkRotation_extends lr w :
  exists evs, extends w (snd (checkRotation lr w)) evs /\ one_cycle evs.
Proof.
  rewrite checkRotation_eq.
  destruct (rotate_extends lr (snd (Now w))) as (evs & He & Hc).
  assert (H0 : extends w (snd (Now w)) []) by apply Now_extends.
  destruct (daily_due lr w).
  - destruct (rotate lr (snd (Now w))) as [[[e|] lr'] w']; cbn [snd] in *;
      exists ([] ++ evs); (split; [eapply extends_trans; eassumption | exact Hc]).
  - destruct (size_due lr).
    + exists ([] ++ evs). split; [eapply extends_trans; eassumption | exact Hc].
    + exists []. split; [exact H0 | split; cbn; lia].
Qed.

Lemma Write_extends lr p w :
  exists evs, extends w (snd (Write lr p w)) evs /\ one_cycle evs.
Proof.
  unfold Write.
  destruct (checkRotation_extends lr w) as (evs & He & Hc).
  destruct (checkRotation lr w) as [[[e|] lr1] w1]; cbn [snd] in *.
  - exists evs. auto.
  - destruct (file lr1) as [f|]; [| exists evs; auto].
    pose proof (FWrite_trace f p w1) as Hw.
    destruct (FWrite f p w1) as [[n [e|]] w2]; cbn [snd] in *;
      exists (evs ++ [EvWrite (fd f) (length p)]);
      (split; [eapply extends_trans; [exact He | exact Hw] |]);
      destruct Hc as [Hr Ho]; split; rewrite count_app; cbn; lia.
Qed.

(** [Write], trigger by trigger. *)
Lemma Write_eq lr p w :
  Write lr p w =
    if daily_due lr w then
      let '(err, lr', w') := rotate lr (snd (Now w)) in
      match err with
      | Some e => ((O, Some e), lr', w')
      | None => write_file (set_rotateTime (currentDay w) lr') p w'
      end
    else if size_due lr then
      let '(err, lr', w') := rotate lr (snd (Now w)) in
      match err with
      | Some e => ((O, Some e), lr', w')
      | None => write_file lr' p w'
      end
    else write_file lr p (snd (Now w)).
Proof.
  unfold Write. rewrite checkRotation_eq.
  destruct (daily_due lr w).
  - destruct (rotate lr (snd (Now w))) as [[[e|] lr'] w']; reflexivity.
  - destruct (size_due lr); [| reflexivity].
    destruct (rotate lr (snd (Now w))) as [[[e|] lr'] w']; reflexivity.
Qed.

Lemma write_file_rotateTime lr p w :
  rotateTime (snd (fst (write_file lr p w))) = rotateTime lr.
Proof.
  unfold write_file. destruct (file lr) as [f|]; [| reflexivity].
  destruct (FWrite f p w) as [[n [e|]] w']; reflexivity.
Qed.

(** C7. With daily rotation enabled, every [Write] reads the clock and
    runs the daily trigger on it: when the current day (the reading
    truncated to 24 hours) is strictly after the reference day, the
    [Write] runs one rotation, whatever the size, and then, when the
    rotation succeeded, moves the reference day to the current day and
    writes; when the current day is not after the reference day, the
    size check decides. A rotation that failed ends the [Write] with its
    error and no byte written, and leaves the rotator as it was, the
    reference day included, so that the trigger fires again at the next
    [Write] that reads a day after the reference day. In all, a [Write]
    renames the active file at most once and opens it at most once. *)
Theorem daily_trigger lr p w :
  rotateDaily lr = true ->
  (rotateTime lr < currentDay w ->
     Write lr p w =
       let '(err, lr', w') := rotate lr (snd (Now w)) in
       match err with
       | Some e => ((O, Some e), lr', w')
       | None => write_file (set_rotateTime (currentDay w) lr') p w'
       end) /\
  (currentDay w <= rotateTime lr ->
     Write lr p w =
       if maxSize lr <=? fileSize lr then
         let '(err, lr', w') := rotate lr (snd (Now w)) in
         match err with
         | Some e => ((O, Some e), lr', w')
         | None => write_file lr' p w'
         end
       else write_file lr p (snd (Now w))) /\
  (forall r lr' w', Write lr p w = (r, lr', w') ->
     rotateTime lr < currentDay w ->
     match fst (fst (rotate lr (snd (Now w)))) with
     | None => rotateTime lr' = currentDay w
     | Some e =>
         r = (O, Some e) /\ lr' = lr /\
         forall w2, rotateTime lr < currentDay w2 -> daily_due lr' w2 = true
     end) /\
  (exists evs,
     extends w (snd (Write lr p w)) evs /\
     (count is_rename evs <= 1)%nat /\ (count is_openfile evs <= 1)%nat).
Proof.
  intros Hd.
  assert (Hdue : forall w2, rotateTime lr < currentDay w2 ->
            daily_due lr w2 = true).
  { intros w2 H. unfold daily_due, After. rewrite Hd. cbn. lia. }
  assert (Hnot : currentDay w <= rotateTime lr -> daily_due lr w = false).
  { intros H. unfold daily_due, After. rewrite Hd. cbn. lia. }
  split; [| split; [| split]].
  - intros H. rewrite Write_eq, (Hdue w H). reflexivity.
  - intros H. rewrite Write_eq, (Hnot H). reflexivity.
  - intros r lr' w' Hw H. rewrite Write_eq, (Hdue w H) in Hw.
    destruct (rotate lr (snd (Now w))) as [[r1 lr1] w1] eqn:Hr.
    cbn [fst]. destruct r1 as [e|].
    + injection Hw as <- <- <-.
      destruct (rotate_cases lr _ _ _ _ Hr) as [[_ ->]|[[=] _]].
      split; [reflexivity |]. split; [reflexivity |]. exact Hdue.
    + pose proof (write_file_rotateTime
                    (set_rotateTime (currentDay w) lr1) p w1) as Ht.
      rewrite Hw in Ht. exact Ht.
  - apply Write_extends.
Qed.

End Triggers.

(** ** Descriptors across a rotation *)

Section Descriptors.
Context {RT : Runtime}.

Lemma Rename_opened a b w : opened (snd (Rename a b w)) = opened w.
Proof.
  unfold Rename. pop_next. destruct (failure o); [reflexivity |].
  destruct (fs w !! key a); reflexivity.
Qed.

Lemma Remove_opened p w : opened (snd (Remove p w)) = opened w.
Proof.
  unfold Remove. pop_next. destruct (failure o); [reflexivity |].
  destruct (fs w !! key p); reflexivity.
Qed.

Lemma Stat_opened p w : opened (snd (Stat p w)) = opened w.
Proof.
  unfold Stat. pop_next. destruct (failure o); [reflexivity |].
  destruct (fs w !! key p); reflexivity.
Qed.

Lemma Glob_opened p w : opened (snd (Glob p w)) = opened w.
Proof. destruct (Glob_cases p w) as [[e ->]| ->]; reflexivity. Qed.

Lemma Copy_opened z fl dst src w :
  opened (snd (Copy z fl dst src w)) = opened w.
Proof. unfold Copy. pop_next. destruct o; reflexivity. Qed.

Lemma FWrite_opened h p w : opened (snd (FWrite h p w)) = opened w.
Proof.
  unfold FWrite. split_decide; [| reflexivity]. pop_next.
  destruct o as [|err|k err]; try reflexivity.
  match goal with |- context [if ?b then _ else _] => destruct b end;
    reflexivity.
Qed.

Lemma Open_opened p w :
  opened (snd (Open p w)) ⊆ opened w ∪
    match fst (Open p w) with inr h => {[fd h]} | inl _ => ∅ end.
Proof.
  unfold Open. pop_next. destruct (failure o); cbn; [set_solver |].
  destruct (fs w !! key p); cbn; set_solver.
Qed.

Lemma Create_opened p w :
  opened (snd (Create p w)) ⊆ opened w ∪
    match fst (Create p w) with inr h => {[fd h]} | inl _ => ∅ end.
Proof.
  unfold Create. pop_next. destruct (failure o); cbn; set_solver.
Qed.

(** [compressFile] closes what it opens. *)
Lemma compressFile_opened filename w :
  opened (snd (compressFile filename w)) ⊆ opened w.
Proof.
  unfold compressFile. destruct (HasSuffix filename ".gz"); [set_solver |].
  pose proof (Open_opened filename w) as H1.
  destruct (Open filename w) as [[e|source] w1]; cbn [fst snd] in *;
    [set_solver |].
  pose proof (Create_opened (filename +:+ ".gz") w1) as H2.
  destruct (Create (filename +:+ ".gz") w1) as [[e|compressed] w2];
    cbn [fst snd] in *; [cbn; set_solver |].
  pose proof (Copy_opened gzip flushed compressed source w2) as H3.
  destruct (Copy gzip flushed compressed source w2) as [[e|held] w3];
    cbn [snd] in *; [cbn; set_solver |].
  pose proof (Remove_opened filename w3) as H4.
  destruct (Remove filename w3) as [r w4]. cbn [snd] in *.
  pose proof (FWrite_opened compressed held w4) as H5.
  destruct (FWrite compressed held w4) as [r' w5]. cbn in *. set_solver.
Qed.

Lemma stat_matches_opened matches w :
  opened (snd (stat_matches matches w)) = opened w.
Proof.
  revert w. induction matches as [|m rest IH]; intros w; cbn; [reflexivity |].
  pose proof (Stat_opened m w) as H1. destruct (Stat m w) as [r w1].
  specialize (IH w1). destruct (stat_matches rest w1) as [files w2].
  cbn in *. destruct r; cbn; congruence.
Qed.

Lemma remove_aged_opened cutoff files w :
  opened (remove_aged cutoff files w) = opened w.
Proof.
  revert w. induction files as [|f rest IH]; intros w; cbn; [reflexivity |].
  destruct (Before _ _); rewrite IH; [apply Remove_opened | reflexivity].
Qed.

Lemma remove_excess_opened toRemove i files w :
  opened (remove_excess toRemove i files w) = opened w.
Proof.
  revert i w. induction files as [|f rest IH]; intros i w; cbn; [reflexivity |].
  destruct (i <? toRemove); [| reflexivity]. rewrite IH. apply Remove_opened.
Qed.

Lemma cleanup_opened lr w : opened (snd (cleanup lr w)) = opened w.
Proof.
  unfold cleanup. pose proof (Glob_opened (pattern lr) w) as H1.
  destruct (Glob (pattern lr) w) as [[e|matches] w1]; cbn [snd] in *;
    [exact H1 |].
  pose proof (stat_matches_opened matches w1) as H2.
  destruct (stat_matches matches w1) as [files w2]. cbn [snd] in *. cbn.
  destruct (maxBackups lr <? _);
    rewrite ?remove_excess_opened, remove_aged_opened; cbn; congruence.
Qed.

(** The rotated name is never empty, so the guard of [rotate] on it
    never stops a rotation. *)
Lemma rotatedName_not_empty lr w : String.eqb (rotatedName lr w) "" = false.
Proof.
  unfold rotatedName, generateRotatedName. cbn.
  destruct (TrimSuffix (filePath lr) (Ext (filePath lr))); reflexivity.
Qed.

(** [rotate] on a rotator that holds a handle, up to the compression
    step. *)
Lemma rotate_eq lr w f :
  file lr = Some f ->
  rotate lr w =
    let '(err, w1) := FClose f w in
    match err with
    | Some err => (Some (Wrap "failed to close log file" err), lr, w1)
    | None =>
        let '(err, w3) := Rename (filePath lr) (rotatedName lr w1)
                                 (named lr w1) in
        match err with
        | Some err => (Some (Wrap "failed to rename log file" err), lr, w3)
        | None =>
            let '(err, w4) :=
              if compress lr then compressFile (rotatedName lr w1) w3
              else (None, w3) in
            match err with
            | Some err =>
                (Some (Wrap "failed to compress log file" err), lr, w4)
            | None =>
                let '(err, w5) := cleanup lr w4 in
                match err with
                | Some err =>
                    (Some (Wrap "failed to cleanup old files" err), lr, w5)
                | None => openFile lr w5
                end
            end
        end
    end.
Proof.
  intros Hf. unfold rotate. rewrite Hf.
  destruct (FClose f w) as [[e|] w1]; [reflexivity |].
  pose proof (rotatedName_not_empty lr w1) as Hne.
  unfold rotatedName, named in *.
  destruct (generateRotatedName lr w1) as [n w2]. cbn [fst snd] in *.
  rewrite Hne. reflexivity.
Qed.

End Descriptors.

(** ** Failures inside a rotation *)

Section RotationFailures.
Context {RT : Runtime}.

(** C1, as the code has it. When compression is enabled and the
    compression step fails, the rotation stops there: [rotate] returns
    the compression error wrapped as "failed to compress log file", the
    rotator is unchanged and still holds the handle closed at the start
    of the cycle, and neither the cleanup nor the reopening of the active
    file is attempted. *)
Theorem compress_failure_aborts lr w f w1 w3 e w4 :
  file lr = Some f ->
  compress lr = true ->
  FClose f w = (None, w1) ->
  Rename (filePath lr) (rotatedName lr w1) (named lr w1) = (None, w3) ->
  compressFile (rotatedName lr w1) w3 = (Some e, w4) ->
  rotate lr w = (Some (Wrap "failed to compress log file" e), lr, w4) /\
  (fd f ∉ opened w4) /\
  exists evs, extends w3 w4 evs /\
              count is_glob evs = O /\ count is_openfile evs = O.
Proof.
  intros Hf Hz Hclose Hren Hcomp. split; [| split].
  - rewrite (rotate_eq lr w f Hf), Hclose, Hren, Hz, Hcomp. reflexivity.
  - pose proof (FClose_after f w) as H1. rewrite Hclose in H1. cbn in H1.
    pose proof (Rename_opened (filePath lr) (rotatedName lr w1) (named lr w1))
      as H3. rewrite Hren in H3. cbn in H3.
    pose proof (compressFile_opened (rotatedName lr w1) w3) as H4.
    rewrite Hcomp in H4. cbn in H4.
    assert (H2 : opened (named lr w1) = opened w1) by reflexivity.
    set_solver.
  - destruct (compressFile_calls (rotatedName lr w1) w3) as (evs & He & Hc).
    rewrite Hcomp in He. exists evs. split; [exact He |].
    split; apply (forallb_count_0 is_compress_call); try exact Hc;
      intros []; cbn; congruence.
Qed.

(** C2, as the code has it. In a rotation whose close, rename and
    compression steps went through, the cleanup runs first and the
    active file is opened afterwards, in the world the cleanup left; when
    the cleanup returns an error the rotation stops with that error,
    wrapped as "failed to cleanup old files", and the file is not
    reopened: the rotator still holds the closed handle, and the listing
    of the backups was the last call of the cycle. *)
Theorem cleanup_precedes_reopen lr w f w1 w3 w4 :
  file lr = Some f ->
  FClose f w = (None, w1) ->
  Rename (filePath lr) (rotatedName lr w1) (named lr w1) = (None, w3) ->
  (if compress lr then compressFile (rotatedName lr w1) w3 else (None, w3))
    = (None, w4) ->
  (forall w5, cleanup lr w4 = (None, w5) -> rotate lr w = openFile lr w5) /\
  (forall e w5, cleanup lr w4 = (Some e, w5) ->
     rotate lr w = (Some (Wrap "failed to cleanup old files" e), lr, w5) /\
     (fd f ∉ opened w5) /\
     extends w4 w5 [EvGlob (pattern lr)]).
Proof.
  intros Hf Hclose Hren Hcomp.
  assert (Hrot : rotate lr w =
            let '(err, w5) := cleanup lr w4 in
            match err with
            | Some err => (Some (Wrap "failed to cleanup old files" err), lr, w5)
            | None => openFile lr w5
            end).
  { rewrite (rotate_eq lr w f Hf), Hclose, Hren, Hcomp. reflexivity. }
  split.
  - intros w5 Hc. rewrite Hrot, Hc. reflexivity.
  - intros e w5 Hc. split; [rewrite Hrot, Hc; reflexivity |]. split.
    + pose proof (FClose_after f w) as H1. rewrite Hclose in H1. cbn in H1.
      pose proof (Rename_opened (filePath lr) (rotatedName lr w1) (named lr w1))
        as H3. rewrite Hren in H3. cbn in H3.
      assert (H2 : opened (named lr w1) = opened w1) by reflexivity.
      assert (H4 : opened w4 ⊆ opened w3).
      { destruct (compress lr).
        - pose proof (compressFile_opened (rotatedName lr w1) w3) as H.
          rewrite Hcomp in H. exact H.
        - injection Hcomp as <-. set_solver. }
      pose proof (cleanup_opened lr w4) as H5. rewrite Hc in H5. cbn in H5.
      set_solver.
    + revert Hc. unfold cleanup.
      destruct (Glob_cases (pattern lr) w4) as [[e' ->]| ->].
      * intros [= <- <-]. reflexivity.
      * destruct (stat_matches _ _) as [files w']. cbn. intros [=].
Qed.

(** What [Write] does with an error of the write itself: the count and
    the error are returned and [fileSize] is left as it was. *)
Lemma Write_error_keeps_fileSize lr p w lr1 w1 f n e w2 :
  checkRotation lr w = (None, lr1, w1) ->
  file lr1 = Some f ->
  FWrite f p w1 = ((n, Some e), w2) ->
  Write lr p w = ((n, Some e), lr1, w2).
Proof.
  intros Hc Hf Hw. unfold Write. rewrite Hc, Hf, Hw. reflexivity.
Qed.

End RotationFailures.

(** C1 at a concrete input: the disk is full when the compressed file is
    to be created. The rotation returns the error, no file is opened for
    the log again, and the next [Write] finds a closed handle. *)
Lemma compress_failure_leaves_writer_closed :
  compress gz_rotator = true /\
  fst (Rotate gz_rotator disk_full) =
    (Some (Wrap "failed to compress log file"
             (PathError "open" "app-1970-01-01-000000.log.gz"
                        (SyscallError ENOSPC))),
     gz_rotator) /\
  since disk_full (snd (Rotate gz_rotator disk_full)) =
    [EvClose 3; EvRename "app.log" "app-1970-01-01-000000.log";
     EvOpen "app-1970-01-01-000000.log";
     EvCreate "app-1970-01-01-000000.log.gz"; EvClose 4] /\
  opened (snd (Rotate gz_rotator disk_full)) = ∅ /\
  fst (Write gz_rotator [Byte.x42] (snd (Rotate gz_rotator disk_full))) =
    ((O, Some (PathError "write" "app.log" ErrClosed)), gz_rotator).
Proof. vm_compute. repeat split. Qed.

Lemma compress_failure_aborts_witness :
  file gz_rotator = Some (mkHandle 3 "app.log") /\
  compress gz_rotator = true /\
  rotate gz_rotator disk_full =
    (Some (Wrap "failed to compress log file"
             (PathError "open" "app-1970-01-01-000000.log.gz"
                        (SyscallError ENOSPC))),
     gz_rotator, snd (rotate gz_rotator disk_full)) /\
  (3%nat ∉ opened (snd (rotate gz_rotator disk_full))) /\
  exists evs,
    extends (snd (Rename "app.log" "app-1970-01-01-000000.log"
                    (named gz_rotator
                       (snd (FClose (mkHandle 3 "app.log") disk_full)))))
            (snd (rotate gz_rotator disk_full)) evs /\
    count is_glob evs = O /\ count is_openfile evs = O.
Proof.
  split; [reflexivity |]. split; [reflexivity |].
  refine (compress_failure_aborts gz_rotator disk_full (mkHandle 3 "app.log")
            (snd (FClose (mkHandle 3 "app.log") disk_full))
            (snd (Rename "app.log" "app-1970-01-01-000000.log"
                    (named gz_rotator
                       (snd (FClose (mkHandle 3 "app.log") disk_full)))))
            (PathError "open" "app-1970-01-01-000000.log.gz"
                       (SyscallError ENOSPC))
            (snd (rotate gz_rotator disk_full))
            eq_refl eq_refl _ _ _); vm_compute; reflexivity.
Defined.

(** C2 at a concrete input: the log file is ["app[.log"], nothing fails
    in the environment. The glob pattern ["app[-*.log*"] is malformed,
    the cleanup returns [ErrBadPattern] and the rotation stops before
    the active file is opened again: the next [Write] finds a closed
    handle. The glob is the last call of the cycle. *)
Lemma cleanup_failure_leaves_writer_closed :
  pattern bracket_rotator = "app[-*.log*" /\
  fst (Rotate bracket_rotator bracket_world) =
    (Some (Wrap "failed to cleanup old files" ErrBadPattern),
     bracket_rotator) /\
  since bracket_world (snd (Rotate bracket_rotator bracket_world)) =
    [EvClose 3; EvRename "app[.log" "app[-1970-01-01-000000.log";
     EvGlob "app[-*.log*"] /\
  opened (snd (Rotate bracket_rotator bracket_world)) = ∅ /\
  fst (Write bracket_rotator [Byte.x42]
         (snd (Rotate bracket_rotator bracket_world))) =
    ((O, Some (PathError "write" "app[.log" ErrClosed)), bracket_rotator).
Proof. vm_compute. repeat split. Qed.

Lemma cleanup_precedes_reopen_witness :
  file bracket_rotator = Some (mkHandle 3 "app[.log") /\
  (forall w5,
     cleanup bracket_rotator
       (snd (Rename "app[.log" "app[-1970-01-01-000000.log"
               (named bracket_rotator
                  (snd (FClose (mkHandle 3 "app[.log") bracket_world)))))
       = (None, w5) ->
     rotate bracket_rotator bracket_world = openFile bracket_rotator w5) /\
  (forall e w5,
     cleanup bracket_rotator
       (snd (Rename "app[.log" "app[-1970-01-01-000000.log"
               (named bracket_rotator
                  (snd (FClose (mkHandle 3 "app[.log") bracket_world)))))
       = (Some e, w5) ->
     rotate bracket_rotator bracket_world =
       (Some (Wrap "failed to cleanup old files" e), bracket_rotator, w5) /\
     (3%nat ∉ opened w5) /\
     extends (snd (Rename "app[.log" "app[-1970-01-01-000000.log"
               (named bracket_rotator
                  (snd (FClose (mkHandle 3 "app[.log") bracket_world)))))
             w5 [EvGlob (pattern bracket_rotator)]).
Proof.
  split; [reflexivity |].
  refine (cleanup_precedes_reopen bracket_rotator bracket_world
            (mkHandle 3 "app[.log")
            (snd (FClose (mkHandle 3 "app[.log") bracket_world))
            (snd (Rename "app[.log" "app[-1970-01-01-000000.log"
               (named bracket_rotator
                  (snd (FClose (mkHandle 3 "app[.log") bracket_world)))))
            _ eq_refl _ _ _); vm_compute; reflexivity.
Defined.

(** C4 at a concrete input: ten bytes are written, four get through
    before the disk is full. [Write] returns 4 and the error, the file
    has grown by four bytes, and [fileSize] is still 0. *)
Lemma partial_write_not_counted :
  fileSize app_rotator = 0 /\
  fst (Write app_rotator ten_bytes short_write) =
    ((4%nat, Some (PathError "write" "app.log" (SyscallError ENOSPC))),
     app_rotator) /\
  fs (snd (Write app_rotator ten_bytes short_write)) !! "app.log" =
    Some (mkFile (repeat Byte.x41 4) 0) /\
  fileSize (snd (fst (Write app_rotator ten_bytes short_write))) = 0.
Proof. vm_compute. repeat split. Qed.

Section RotateAfterClose.
Context {RT : Runtime}.

Lemma openFile_quiet lr w :
  script w = [] ->
  exists f size w',
    openFile lr w = (None, set_file f size lr, w') /\
    fd f ∈ opened w' /\ is_Some (fs w' !! key (filePath lr)).
Proof.
  intros Hq. unfold openFile, OpenFile.
  rewrite pop_quiet by exact Hq. cbn [failure].
  set (w2 := match fs _ !! key (filePath lr) with Some _ => _ | None => _ end).
  assert (Hs2 : script w2 = []).
  { subst w2. destruct (fs _ !! _); exact Hq. }
  assert (Hk : is_Some (fs w2 !! key (filePath lr))).
  { subst w2. destruct (fs (emit _ w) !! key (filePath lr)) eqn:E.
    - rewrite E. eauto.
    - cbn. rewrite lookup_insert_eq. eauto. }
  cbn. unfold FStat. cbn.
  destruct (decide (nextfd w2 ∈ {[nextfd w2]} ∪ opened w2)) as [Hin|Hout];
    [| set_solver].
  rewrite pop_quiet by exact Hs2. cbn.
  destruct Hk as [file Hk]. rewrite Hk.
  eexists _, _, _. split; [reflexivity |]. cbn. split; [exact Hin | eauto].
Qed.

(** C6, what the code does. [Close] leaves the handle in the rotator,
    and nothing ever takes it out: the rotator that [NewLogRotator] built
    holds a handle for good, so that [Rotate] never takes its branch for
    a rotator without a file. After a [Close], whatever calls came before
    it and whatever calls came after it, [Rotate] goes for the close of
    the handle it holds, fails there with the "file already closed" error
    of package os, wrapped as "failed to close log file", and makes no
    other call: no file is opened, and the rotator, the files and the
    descriptors are as they were, where [openFile] in the same state and
    with nothing failing would have opened the log file. *)
Theorem rotate_after_close_fails config w0 lr w1 before after :
  NewLogRotator config w0 = (inr lr, w1) ->
  let s2 := calls before lr w1 in
  let s3 := calls after (fst s2) (snd (Close (fst s2) (snd s2))) in
  exists h,
    file (fst s3) = Some h /\
    (fd h ∉ opened (snd s3)) /\
    Rotate (fst s3) (snd s3) =
      (Some (Wrap "failed to close log file"
               (PathError "close" (name h) ErrClosed)),
       fst s3, emit (EvClose (fd h)) (snd s3)) /\
    (script (snd s3) = [] ->
     exists f size w4,
       openFile (fst s3) (snd s3) = (None, set_file f size (fst s3), w4) /\
       fd f ∈ opened w4).
Proof.
  intros Hnew s2 s3.
  destruct (NewLogRotator_ok config w0 lr w1 Hnew) as ((h0 & Hf0 & _) & _).
  pose proof (calls_settings before lr w1) as [_ Hsome].
  fold s2 in Hsome. destruct s2 as [lr2 w2]. cbn in Hsome, s3.
  destruct Hsome as [h Hh]; [rewrite Hf0; eauto |].
  assert (Hclosed : holds_closed lr2 (snd (Close lr2 w2))).
  { exists h. split; [exact Hh |]. unfold Close. rewrite Hh. apply FClose_after. }
  destruct (calls_closed after lr2 _ Hclosed) as (w3 & Heq & _ & Hop).
  subst s3. rewrite Heq. cbn [fst snd].
  assert (Hc3 : fd h ∉ opened w3).
  { destruct Hclosed as (h' & Hf' & Hc'). rewrite Hop. congruence. }
  exists h. split; [exact Hh |]. split; [exact Hc3 |]. split.
  - unfold Rotate. apply rotate_closed; assumption.
  - intros Hq. destruct (openFile_quiet lr2 w3 Hq) as (f & sz & w4 & Ho & Hin & _).
    eauto.
Qed.

End RotateAfterClose.

(** C6 at a concrete input: a rotator on ["app.log"] is built in the
    quiet world and closed; the [Rotate] that follows fails at its close
    step and opens nothing. *)
Lemma rotate_after_close_fails_witness :
  NewLogRotator (plain_config "app.log" false) Sample.quiet
    = (inr app_rotator, app_world) /\
  Close app_rotator app_world = (None, app_closed) /\
  let s2 := calls [] app_rotator app_world in
  let s3 := calls [] (fst s2) (snd (Close (fst s2) (snd s2))) in
  exists h,
    file (fst s3) = Some h /\
    (fd h ∉ opened (snd s3)) /\
    Rotate (fst s3) (snd s3) =
      (Some (Wrap "failed to close log file"
               (PathError "close" (name h) ErrClosed)),
       fst s3, emit (EvClose (fd h)) (snd s3)) /\
    (script (snd s3) = [] ->
     exists f size w4,
       openFile (fst s3) (snd s3) = (None, set_file f size (fst s3), w4) /\
       fd f ∈ opened w4).
Proof.
  assert (H : NewLogRotator (plain_config "app.log" false) Sample.quiet
              = (inr app_rotator, app_world)) by (vm_compute; reflexivity).
  split; [exact H |]. split; [vm_compute; reflexivity |].
  exact (rotate_after_close_fails (plain_config "app.log" false) Sample.quiet
           app_rotator app_world [] [] H).
Defined.

Lemma daily_trigger_witness :
  rotateDaily daily_rotator = true /\
  (rotateTime daily_rotator < currentDay next_day ->
     Write daily_rotator [Byte.x42] next_day =
       let '(err, lr', w') := rotate daily_rotator (snd (Now next_day)) in
       match err with
       | Some e => ((O, Some e), lr', w')
       | None =>
           write_file (set_rotateTime (currentDay next_day) lr') [Byte.x42] w'
       end) /\
  (currentDay next_day <= rotateTime daily_rotator ->
     Write daily_rotator [Byte.x42] next_day =
       if maxSize daily_rotator <=? fileSize daily_rotator then
         let '(err, lr', w') := rotate daily_rotator (snd (Now next_day)) in
         match err with
         | Some e => ((O, Some e), lr', w')
         | None => write_file lr' [Byte.x42] w'
         end
       else write_file daily_rotator [Byte.x42] (snd (Now next_day))) /\
  (forall r lr' w',
     Write daily_rotator [Byte.x42] next_day = (r, lr', w') ->
     rotateTime daily_rotator < currentDay next_day ->
     match fst (fst (rotate daily_rotator (snd (Now next_day)))) with
     | None => rotateTime lr' = currentDay next_day
     | Some e =>
         r = (O, Some e) /\ lr' = daily_rotator /\
         forall w2, rotateTime daily_rotator < currentDay w2 ->
                    daily_due lr' w2 = true
     end) /\
  (exists evs,
     extends next_day (snd (Write daily_rotator [Byte.x42] next_day)) evs /\
     (count is_rename evs <= 1)%nat /\ (count is_openfile evs <= 1)%nat).
Proof.
  split; [reflexivity |].
  exact (daily_trigger daily_rotator [Byte.x42] next_day eq_refl).
Defined.

(** The daily trigger at work: one hour into the next day a [Write]
    rotates once and moves the reference day; the [Write] after it, the
    same day, does not rotate. *)
Example daily_rotation_once :
  let '(r1, lr1, w1) := Write daily_rotator [Byte.x42] next_day in
  let '(r2, lr2, w2) := Write lr1 [Byte.x43] w1 in
  r1 = (1%nat, None) /\ rotateTime lr1 = 24 * Hour /\
  count is_rename (since next_day w1) = 1%nat /\
  r2 = (1%nat, None) /\ count is_rename (since w1 w2) = O.
Proof. vm_compute. repeat split. Qed.

(** ** The size ceiling 0 *)

Section ZeroCeiling.
Context {RT : Runtime}.

(** When no trigger is due, [Write] is the write on the handle. *)
Lemma Write_no_rotation lr p w f :
  daily_due lr w = false -> size_due lr = false -> file lr = Some f ->
  Write lr p w =
    let '((n, err), w2) := FWrite f p (snd (Now w)) in
    match err with
    | Some err => ((n, Some err), lr, w2)
    | None => ((n, None),
               set_fileSize (wrap64 (fileSize lr + Z.of_nat n)) lr, w2)
    end.
Proof.
  intros Hd Hs Hf. unfold Write. rewrite checkRotation_eq, Hd, Hs, Hf.
  reflexivity.
Qed.

(** C3, as the code has it. A size ceiling of 0 in the configuration
    selects the default ceiling of 100 MiB. For a rotator built with
    ceiling 0 and without daily rotation, after any calls: the ceiling is
    104857600; a [Write] made while the tracked size is below it rotates
    nothing, its only call being the write itself; and once the tracked
    size has reached it, the size trigger fires and the rotation is
    run. *)
Theorem zero_size_selects_default config w0 lr w1 cs :
  NewLogRotator config w0 = (inr lr, w1) ->
  MaxSize config = 0 ->
  RotateDaily config = false ->
  let s := calls cs lr w1 in
  maxSize (fst s) = defaultMaxSize /\
  (fileSize (fst s) < defaultMaxSize ->
   forall p, exists f,
     file (fst s) = Some f /\
     since (snd s) (snd (Write (fst s) p (snd s)))
       = [EvWrite (fd f) (length p)]) /\
  (defaultMaxSize <= fileSize (fst s) ->
   checkRotation (fst s) (snd s) = rotate (fst s) (snd (Now (snd s)))).
Proof.
  intros Hnew Hsize Hdaily s.
  destruct (NewLogRotator_ok config w0 lr w1 Hnew)
    as ((h0 & Hf0 & _) & _ & Hmax & _ & _ & _ & Hrd).
  rewrite Hsize in Hmax. cbn in Hmax. rewrite Hdaily in Hrd.
  destruct (calls_settings cs lr w1) as [Hs Hsome]. fold s in Hs, Hsome.
  destruct s as [lr' w']. cbn [fst snd] in *.
  destruct Hs as (_ & Hm & _ & _ & _ & Hd).
  assert (Hmax' : maxSize lr' = defaultMaxSize) by (rewrite <- Hm; exact Hmax).
  assert (Hnd : daily_due lr' w' = false).
  { unfold daily_due. rewrite <- Hd, Hrd. reflexivity. }
  split; [exact Hmax' |]. split.
  - intros Hlt p. destruct Hsome as [f Hf]; [rewrite Hf0; eauto |].
    exists f. split; [exact Hf |].
    rewrite (Write_no_rotation lr' p w' f Hnd); [| | exact Hf].
    + pose proof (FWrite_trace f p (snd (Now w'))) as Ht.
      destruct (FWrite f p (snd (Now w'))) as [[n [e|]] w2]; cbn [snd] in *;
        apply since_app; exact Ht.
    + unfold size_due. rewrite Hmax'. lia.
  - intros Hge. rewrite checkRotation_eq, Hnd.
    unfold size_due. rewrite Hmax'.
    destruct (defaultMaxSize <=? fileSize lr') eqn:E; [reflexivity | lia].
Qed.

End ZeroCeiling.

(** With the log file already holding 100 MiB, the first [Write] of a
    rotator built with ceiling 0 rotates. *)
Lemma full_file_rotates (d : list Byte.byte) :
  Z.of_nat (length d) = defaultMaxSize ->
  exists lr w1,
    NewLogRotator zero_config (holding d) = (inr lr, w1) /\
    maxSize lr = defaultMaxSize /\
    fileSize lr = defaultMaxSize /\
    since w1 (snd (Write lr [Byte.x41] w1)) =
      [EvClose 3; EvRename "app.log" "app-1970-01-01-000000.log";
       EvGlob "app-*.log*"; EvStat "app-1970-01-01-000000.log";
       EvOpenFile "app.log"; EvFStat 4; EvWrite 4 1].
Proof.
  intros Hlen.
  assert (Hnew : NewLogRotator zero_config (holding d) =
    (inr (mkLogRotator "app.log" defaultMaxSize (7 * 24 * Hour) 5 false false
            0 (Some (mkHandle 3 "app.log")) (Z.of_nat (length d))),
     mkWorld {["app.log" := mkFile d 0]} {[3%nat]} 4 0 [] 0 []
             [EvMkdirAll "."; EvOpenFile "app.log"; EvFStat 3]))
    by (vm_compute; reflexivity).
  rewrite Hlen in Hnew.
  eexists _, _. split; [exact Hnew |]. split; [reflexivity |].
  split; [reflexivity |]. vm_compute. reflexivity.
Qed.

Lemma full_log_length : Z.of_nat (length full_log) = defaultMaxSize.
Proof.
  unfold full_log. rewrite repeat_length. apply Z2Nat.id.
  unfold defaultMaxSize. lia.
Qed.

(** C3 at a concrete input: the configured ceiling is 0, the log file
    holds 100 MiB when the rotator is built, and the first [Write]
    rotates it. *)
Lemma zero_size_still_rotates :
  MaxSize zero_config = 0 /\
  exists lr w1,
    NewLogRotator zero_config (holding full_log) = (inr lr, w1) /\
    maxSize lr = defaultMaxSize /\
    fileSize lr = defaultMaxSize /\
    since w1 (snd (Write lr [Byte.x41] w1)) =
      [EvClose 3; EvRename "app.log" "app-1970-01-01-000000.log";
       EvGlob "app-*.log*"; EvStat "app-1970-01-01-000000.log";
       EvOpenFile "app.log"; EvFStat 4; EvWrite 4 1].
Proof.
  split; [reflexivity |]. exact (full_file_rotates full_log full_log_length).
Qed.

Lemma zero_size_selects_default_witness :
  NewLogRotator zero_config Sample.quiet
    = (inr (mkLogRotator "app.log" defaultMaxSize (7 * 24 * Hour) 5 false
              false 0 (Some (mkHandle 3 "app.log")) 0),
       app_world) /\
  MaxSize zero_config = 0 /\
  RotateDaily zero_config = false /\
  let s := calls [CallWrite ten_bytes; CallRotate]
             (mkLogRotator "app.log" defaultMaxSize (7 * 24 * Hour) 5 false
                false 0 (Some (mkHandle 3 "app.log")) 0)
             app_world in
  maxSize (fst s) = defaultMaxSize /\
  (fileSize (fst s) < defaultMaxSize ->
   forall p, exists f,
     file (fst s) = Some f /\
     since (snd s) (snd (Write (fst s) p (snd s)))
       = [EvWrite (fd f) (length p)]) /\
  (defaultMaxSize <= fileSize (fst s) ->
   checkRotation (fst s) (snd s) = rotate (fst s) (snd (Now (snd s)))).
Proof.
  assert (H : NewLogRotator zero_config Sample.quiet
    = (inr (mkLogRotator "app.log" defaultMaxSize (7 * 24 * Hour) 5 false
              false 0 (Some (mkHandle 3 "app.log")) 0),
       app_world)) by (vm_compute; reflexivity).
  split; [exact H |]. split; [reflexivity |]. split; [reflexivity |].
  exact (zero_size_selects_default zero_config Sample.quiet _ _
           [CallWrite ten_bytes; CallRotate] H eq_refl eq_refl).
Defined.

(** ** Retention: the count pass *)

Section Retention.
Context {RT : Runtime}.

Lemma wrap64_small z : - 2 ^ 63 <= z < 2 ^ 63 -> wrap64 z = z.
Proof.
  intros H. unfold wrap64.
  rewrite Z.mod_small by lia. lia.
Qed.

Lemma Stat_quiet p w f :
  script w = [] -> fs w !! key p = Some f ->
  Stat p w = (inr (info f), emit (EvStat p) w).
Proof.
  intros Hq Hf. unfold Stat. rewrite pop_quiet by exact Hq. cbn.
  rewrite Hf. reflexivity.
Qed.

Lemma Remove_quiet p w f :
  script w = [] -> fs w !! key p = Some f ->
  Remove p w = (None, set_fs (delete (key p) (fs w)) (emit (EvRemove p) w)).
Proof.
  intros Hq Hf. unfold Remove. rewrite pop_quiet by exact Hq. cbn.
  rewrite Hf. reflexivity.
Qed.

Lemma stat_matches_quiet matches w :
  script w = [] ->
  (forall m, m ∈ matches -> key m = m /\ is_Some (fs w !! m)) ->
  exists w', stat_matches matches w = (entry_of (fs w) <$> matches, w') /\
             same_disk w w'.
Proof.
  revert w. induction matches as [|m rest IH]; intros w Hq Hm; cbn.
  - exists w. repeat split.
  - destruct (Hm m) as [Hk [f Hf]]; [left |].
    rewrite (Stat_quiet m w f Hq) by (rewrite Hk; exact Hf).
    destruct (IH (emit (EvStat m) w)) as (w' & -> & Hfs & Hs & Hc).
    + exact Hq.
    + intros m' Hin. apply Hm. right. exact Hin.
    + exists w'. split; [| repeat split; assumption].
      cbn. unfold entry_of at 2. rewrite Hf. reflexivity.
Qed.

Lemma remove_aged_none cutoff files w :
  (forall f, f ∈ files -> Before (modTime f) cutoff = false) ->
  remove_aged cutoff files w = w.
Proof.
  induction files as [|f rest IH]; intros H; cbn; [reflexivity |].
  rewrite (H f) by left. apply IH. intros g Hg. apply H. right. exact Hg.
Qed.

(** The count loop where nothing fails: the first [toRemove - i] files
    are gone and the others are as they were. *)
Lemma remove_excess_quiet toRemove files : forall i w,
  script w = [] ->
  NoDup (path <$> files) ->
  (forall f, f ∈ files -> key (path f) = path f /\ is_Some (fs w !! path f)) ->
  forall p,
    fs (remove_excess toRemove i files w) !! p =
      if decide (p ∈ path <$> take (Z.to_nat (toRemove - i)) files)
      then None else fs w !! p.
Proof.
  induction files as [|f rest IH]; intros i w Hq Hnd Hf p; cbn.
  - rewrite take_nil. cbn. destruct (decide _) as [Hin|]; [| reflexivity].
    inversion Hin.
  - destruct (i <? toRemove) eqn:E.
    + destruct (Hf f) as [Hk [g Hg]]; [left |].
      rewrite (Remove_quiet (path f) w g Hq) by (rewrite Hk; exact Hg).
      cbn [snd]. rewrite Hk.
      apply NoDup_cons in Hnd as [Hnotin Hnd'].
      rewrite IH; [| exact Hq | exact Hnd' |].
      * replace (Z.to_nat (toRemove - i)) with (S (Z.to_nat (toRemove - (i + 1))))
          by lia.
        cbn [take fmap list_fmap].
        destruct (decide (p = path f)) as [->|Hne].
        -- cbn [fs set_fs]. rewrite lookup_delete_eq.
           rewrite (decide_True (P := path f ∈ path f :: _)) by left.
           destruct (decide _); reflexivity.
        -- cbn [fs set_fs]. rewrite lookup_delete_ne by congruence.
           apply decide_ext. rewrite elem_of_cons. tauto.
      * intros f' Hin'. destruct (Hf f') as [Hk' [g' Hg']]; [right; exact Hin' |].
        split; [exact Hk' |]. cbn. exists g'.
        rewrite lookup_delete_ne; [exact Hg' |].
        intros Heq. apply Hnotin. rewrite Heq.
        apply list_elem_of_fmap_2. exact Hin'.
    + replace (Z.to_nat (toRemove - i)) with O by lia. cbn.
      destruct (decide _) as [Hin|]; [inversion Hin | reflexivity].
Qed.

Lemma matching_spec pat files m :
  m ∈ matching pat files <-> Match pat m = inr true /\ m ∈ dom files.
Proof.
  unfold matching, names.
  rewrite list_elem_of_filter, merge_sort_Permutation, elem_of_elements.
  tauto.
Qed.

Lemma matching_NoDup pat files : NoDup (matching pat files).
Proof.
  unfold matching, names. apply NoDup_filter.
  rewrite merge_sort_Permutation. apply NoDup_elements.
Qed.

(** [cleanup] where nothing fails, no listed file is older than the
    cutoff and more files are listed than may be kept: all it does to
    the disk is the count loop on the sorted entries. *)
Lemma cleanup_quiet lr w matches :
  script w = [] ->
  fst (Glob (pattern lr) w) = inr matches ->
  (forall m, m ∈ matches -> key m = m) ->
  0 <= maxBackups lr ->
  maxBackups lr < Z.of_nat (length matches) <= max_int ->
  (forall m f, m ∈ matches -> fs w !! m = Some f ->
     Before (mtime f) (age_cutoff lr w) = false) ->
  exists w3,
    fs w3 = fs w /\ script w3 = [] /\
    cleanup lr w =
      (None,
       remove_excess (Z.of_nat (length matches) - maxBackups lr) 0
                     (sortSlice (entry_of (fs w) <$> matches)) w3).
Proof.
  intros Hq Hglob Hclean HK Hn Hage.
  apply Glob_inr in Hglob as [Hglob Hm].
  assert (Hin : forall m, m ∈ matches ->
            key m = m /\ is_Some (fs (emit (EvGlob (pattern lr)) w) !! m)).
  { intros m Hmm. split; [apply Hclean; exact Hmm |].
    rewrite <- Hm in Hmm. apply matching_spec in Hmm as [_ Hd].
    apply elem_of_dom in Hd. exact Hd. }
  destruct (stat_matches_quiet matches (emit (EvGlob (pattern lr)) w) Hq Hin)
    as (w2 & Hst & Hfs2 & Hs2 & Hc2).
  cbn in Hfs2, Hs2, Hc2.
  unfold cleanup. rewrite Hglob. cbn iota beta. rewrite Hst.
  cbn [Now]. cbn iota beta.
  change (fs (emit (EvGlob (pattern lr)) w)) with (fs w) in *.
  set (sorted := sortSlice (entry_of (fs w) <$> matches)).
  set (w3 := mkWorld _ _ _ _ _ _ _ _).
  assert (Hlen : length sorted = length matches).
  { unfold sorted. rewrite (Permutation_length (sortSlice_perm _)).
    apply length_fmap. }
  rewrite remove_aged_none.
  - rewrite Hlen.
    destruct (maxBackups lr <? Z.of_nat (length matches)) eqn:E; [| lia].
    rewrite wrap64_small by (unfold max_int in Hn; lia).
    exists w3. repeat split; cbn; congruence.
  - intros f Hf. unfold sorted in Hf. rewrite (sortSlice_perm _) in Hf.
    apply list_elem_of_fmap in Hf as (m & -> & Hmm).
    destruct (Hin m Hmm) as [_ [g Hg]]. cbn in Hg.
    unfold entry_of. rewrite Hg. cbn. rewrite Hc2.
    apply (Hage m g Hmm Hg).
Qed.

(** C8, as the code has it. Retention, count bound. Let K >= 0 be the
    maximum number of backups. If the listing of the rotated files
    returns more than K paths, none of them older than the maximum age,
    and no call of the cleanup fails, neither a deletion nor the stat of
    a listed file, then the cleanup succeeds and afterwards exactly K
    files match the pattern; they are among the files listed before, they
    are untouched, and none of the removed files was modified later than
    a file that is kept. *)
Theorem cleanup_keeps_newest lr w matches :
  script w = [] ->
  fst (Glob (pattern lr) w) = inr matches ->
  (forall m, m ∈ matches -> key m = m) ->
  0 <= maxBackups lr ->
  maxBackups lr < Z.of_nat (length matches) <= max_int ->
  (forall m f, m ∈ matches -> fs w !! m = Some f ->
     Before (mtime f) (age_cutoff lr w) = false) ->
  let w' := snd (cleanup lr w) in
  let kept := matching (pattern lr) (fs w') in
  fst (cleanup lr w) = None /\
  Z.of_nat (length kept) = maxBackups lr /\
  (forall k, k ∈ kept -> k ∈ matches /\ fs w' !! k = fs w !! k) /\
  (forall k r f g, k ∈ kept -> r ∈ matches -> r ∉ kept ->
     fs w !! k = Some f -> fs w !! r = Some g -> mtime g <= mtime f).
Proof.
  intros Hq Hglob Hclean HK Hn Hage w' kept.
  destruct (cleanup_quiet lr w matches Hq Hglob Hclean HK Hn Hage)
    as (w3 & Hfs3 & Hs3 & Hcl).
  apply Glob_inr in Hglob as [_ Hm].
  set (entries := entry_of (fs w) <$> matches) in *.
  set (sorted := sortSlice entries) in *.
  set (j := Z.to_nat (Z.of_nat (length matches) - maxBackups lr - 0)).
  assert (Hperm : path <$> sorted ≡ₚ matches).
  { unfold sorted. rewrite (sortSlice_perm _). unfold entries.
    rewrite <- list_fmap_compose. clear.
    induction matches as [|m l IH]; cbn; [reflexivity |].
    apply Permutation_cons; [reflexivity | exact IH]. }
  assert (Hndm : NoDup matches) by (rewrite <- Hm; apply matching_NoDup).
  assert (Hnd : NoDup (path <$> sorted)) by (rewrite Hperm; exact Hndm).
  assert (Hpres : forall f, f ∈ sorted ->
            key (path f) = path f /\ is_Some (fs w3 !! path f)).
  { intros f Hf. assert (Hp : path f ∈ matches).
    { rewrite <- Hperm. apply list_elem_of_fmap_2. exact Hf. }
    split; [apply Hclean; exact Hp |].
    rewrite Hfs3. rewrite <- Hm in Hp. apply matching_spec in Hp as [_ Hd].
    apply elem_of_dom in Hd. exact Hd. }
  pose proof (remove_excess_quiet
                (Z.of_nat (length matches) - maxBackups lr) sorted 0 w3
                Hs3 Hnd Hpres) as Hrem.
  fold j in Hrem.
  assert (Hw' : w' = remove_excess
                  (Z.of_nat (length matches) - maxBackups lr) 0 sorted w3).
  { unfold w'. rewrite Hcl. reflexivity. }
  assert (Hrem' : forall p,
            fs w' !! p = if decide (p ∈ path <$> take j sorted)
                         then None else fs w !! p).
  { intros p. rewrite Hw', Hrem, Hfs3. reflexivity. }
  clear Hrem. rename Hrem' into Hrem.
  assert (Hsplit : path <$> sorted =
            (path <$> take j sorted) ++ (path <$> drop j sorted)).
  { rewrite <- fmap_app, take_drop. reflexivity. }
  assert (Hkept : forall x, x ∈ kept <-> x ∈ path <$> drop j sorted).
  { intros x. unfold kept. rewrite matching_spec, elem_of_dom, Hrem.
    rewrite Hsplit in Hnd. apply NoDup_app in Hnd as (_ & Hdisj & _).
    split.
    - intros [Hmatch Hsome]. destruct (decide _) as [Hin|Hout].
      + destruct Hsome as [? [=]].
      + assert (Hx : x ∈ matches).
        { rewrite <- Hm. apply matching_spec. split; [exact Hmatch |].
          apply elem_of_dom. exact Hsome. }
        rewrite <- Hperm, Hsplit, elem_of_app in Hx. tauto.
    - intros Hx. assert (Hxm : x ∈ matches).
      { rewrite <- Hperm, Hsplit, elem_of_app. right. exact Hx. }
      rewrite <- Hm in Hxm. apply matching_spec in Hxm as [Hmatch Hd].
      split; [exact Hmatch |].
      rewrite decide_False; [apply elem_of_dom; exact Hd |].
      intros Hin. exact (Hdisj x Hin Hx). }
  assert (Hkp : kept ≡ₚ path <$> drop j sorted).
  { apply NoDup_Permutation; [apply matching_NoDup | | exact Hkept].
    rewrite Hsplit in Hnd. apply NoDup_app in Hnd as (_ & _ & H). exact H. }
  assert (Hlen : length sorted = length matches).
  { rewrite <- (Permutation_length Hperm). symmetry. apply length_fmap. }
  split; [rewrite Hcl; reflexivity |]. split; [| split].
  - rewrite (Permutation_length Hkp), length_fmap, length_drop, Hlen.
    unfold j. lia.
  - intros k Hk. apply Hkept in Hk as Hk'. split.
    + rewrite <- Hperm, Hsplit, elem_of_app. right. exact Hk'.
    + rewrite Hrem. rewrite decide_False; [reflexivity |].
      rewrite Hsplit in Hnd. apply NoDup_app in Hnd as (_ & Hdisj & _).
      intros Hin. exact (Hdisj k Hin Hk').
  - intros k r f g Hk Hr Hrk Hfk Hgr.
    apply Hkept in Hk.
    assert (Hrt : r ∈ path <$> take j sorted).
    { rewrite <- Hperm, Hsplit, elem_of_app in Hr.
      destruct Hr as [?|Hrd]; [assumption |].
      exfalso. apply Hrk. apply Hkept. exact Hrd. }
    apply list_elem_of_fmap in Hk as (ek & -> & Hek).
    apply list_elem_of_fmap in Hrt as (er & -> & Her).
    pose proof (sortSlice_sorted entries) as Hsorted. fold sorted in Hsorted.
    rewrite <- (take_drop j sorted) in Hsorted.
    pose proof (StronglySorted_app_1_elem_of _ _ _ er ek Hsorted Her Hek)
      as Hle. cbn in Hle.
    assert (Hmod : forall e', e' ∈ sorted -> forall h,
              fs w !! path e' = Some h -> modTime e' = mtime h).
    { intros e' He' h Hh. unfold sorted in He'.
      rewrite (sortSlice_perm _) in He'. unfold entries in He'.
      apply list_elem_of_fmap in He' as (m & -> & _).
      cbn in *. rewrite Hh. reflexivity. }
    assert (Hek' : ek ∈ sorted).
    { rewrite <- (take_drop j sorted), elem_of_app. right. exact Hek. }
    assert (Her' : er ∈ sorted).
    { rewrite <- (take_drop j sorted), elem_of_app. left. exact Her. }
    rewrite (Hmod ek Hek' f Hfk), (Hmod er Her' g Hgr) in Hle.
    unfold Before in Hle. lia.
Qed.

End Retention.

Lemma cleanup_keeps_newest_witness :
  script crowded = [] /\
  fst (Glob (pattern keep_two) crowded) =
    inr ["app-1970-01-01-000001.log"; "app-1970-01-01-000002.log";
         "app-1970-01-01-000003.log.gz"; "app-1970-01-01-000004.log"] /\
  maxBackups keep_two = 2 /\
  let w' := snd (cleanup keep_two crowded) in
  let kept := matching (pattern keep_two) (fs w') in
  fst (cleanup keep_two crowded) = None /\
  Z.of_nat (length kept) = maxBackups keep_two /\
  (forall k, k ∈ kept ->
     k ∈ ["app-1970-01-01-000001.log"; "app-1970-01-01-000002.log";
          "app-1970-01-01-000003.log.gz"; "app-1970-01-01-000004.log"] /\
     fs w' !! k = fs crowded !! k) /\
  (forall k r f g, k ∈ kept ->
     r ∈ ["app-1970-01-01-000001.log"; "app-1970-01-01-000002.log";
          "app-1970-01-01-000003.log.gz"; "app-1970-01-01-000004.log"] ->
     r ∉ kept ->
     fs crowded !! k = Some f -> fs crowded !! r = Some g ->
     mtime g <= mtime f).
Proof.
  assert (Hglob : fst (Glob (pattern keep_two) crowded) =
    inr ["app-1970-01-01-000001.log"; "app-1970-01-01-000002.log";
         "app-1970-01-01-000003.log.gz"; "app-1970-01-01-000004.log"])
    by (vm_compute; reflexivity).
  split; [reflexivity |]. split; [exact Hglob |]. split; [reflexivity |].
  refine (cleanup_keeps_newest keep_two crowded _ eq_refl Hglob _ _ _ _).
  - intros m Hm.
    repeat (apply elem_of_cons in Hm as [->|Hm]; [vm_compute; reflexivity |]).
    inversion Hm.
  - vm_compute. discriminate.
  - vm_compute. split; [reflexivity | discriminate].
  - intros m f Hm.
    repeat (apply elem_of_cons in Hm as [->|Hm];
            [intros Hf; vm_compute in Hf; injection Hf as <-; reflexivity |]).
    inversion Hm.
Defined.


(** C8 at a concrete input: two backups are to be kept and four rotated
    files are listed, none of them older than the maximum age; the stat
    of the second fails for lack of permission and nothing else does.
    The cleanup returns no error and its one deletion goes through, and
    yet three rotated files are left, not two: the file that could not
    be statted is left out of the count, and stays. *)
Lemma failed_stat_leaves_one_more :
  maxBackups keep_two = 2 /\
  script unreadable = [Works; Fails EACCES] /\
  fst (Glob (pattern keep_two) unreadable) =
    inr ["app-1970-01-01-000001.log"; "app-1970-01-01-000002.log";
         "app-1970-01-01-000003.log.gz"; "app-1970-01-01-000004.log"] /\
  forallb (fun m => match fs unreadable !! m with
                    | Some f => negb (Before (mtime f)
                                        (age_cutoff keep_two unreadable))
                    | None => false
                    end)
    ["app-1970-01-01-000001.log"; "app-1970-01-01-000002.log";
     "app-1970-01-01-000003.log.gz"; "app-1970-01-01-000004.log"] = true /\
  fst (cleanup keep_two unreadable) = None /\
  since unreadable (snd (cleanup keep_two unreadable)) =
    [EvGlob "app-*.log*"; EvStat "app-1970-01-01-000001.log";
     EvStat "app-1970-01-01-000002.log";
     EvStat "app-1970-01-01-000003.log.gz";
     EvStat "app-1970-01-01-000004.log";
     EvRemove "app-1970-01-01-000001.log"] /\
  fs (snd (cleanup keep_two unreadable)) !! "app-1970-01-01-000001.log"
    = None /\
  matching (pattern keep_two) (fs (snd (cleanup keep_two unreadable))) =
    ["app-1970-01-01-000002.log"; "app-1970-01-01-000003.log.gz";
     "app-1970-01-01-000004.log"].
Proof. vm_compute. repeat split. Qed.

(** The files that the cleanup keeps in the crowded world: the two
    modified last. *)
Example cleanup_keeps_two :
  matching (pattern keep_two) (fs (snd (cleanup keep_two crowded))) =
    ["app-1970-01-01-000002.log"; "app-1970-01-01-000004.log"].
Proof. vm_compute. reflexivity. Qed.

(** ** The name of the rotated file *)

Section Strings.

Lemma append_cons c (a b : string) : String c a +:+ b = String c (a +:+ b).
Proof. reflexivity. Qed.

Lemma length_append (a b : string) :
  String.length (a +:+ b) = (String.length a + String.length b)%nat.
Proof.
  induction a as [|c a IH]; [reflexivity |].
  rewrite append_cons. simpl. rewrite IH. reflexivity.
Qed.

Lemma append_empty_r (a : string) : a +:+ "" = a.
Proof.
  induction a as [|c a IH]; [reflexivity |].
  rewrite append_cons, IH. reflexivity.
Qed.

Lemma substring_all (a : string) : String.substring 0 (String.length a) a = a.
Proof. induction a as [|c a IH]; simpl; [reflexivity | rewrite IH; reflexivity]. Qed.

Lemma substring_append_l (a b : string) :
  String.substring 0 (String.length a) (a +:+ b) = a.
Proof.
  induction a as [|c a IH].
  - destruct b; reflexivity.
  - rewrite append_cons. simpl. rewrite IH. reflexivity.
Qed.

Lemma substring_append_r (a b : string) :
  String.substring (String.length a) (String.length b) (a +:+ b) = b.
Proof.
  induction a as [|c a IH]; [apply substring_all |].
  rewrite append_cons. simpl. exact IH.
Qed.

Lemma HasSuffix_append (a b : string) : HasSuffix (a +:+ b) b = true.
Proof.
  unfold HasSuffix. rewrite length_append.
  replace (String.length a + String.length b - String.length b)%nat
    with (String.length a) by lia.
  rewrite substring_append_r, String.eqb_refl.
  apply andb_true_iff. split; [apply Nat.leb_le; lia | reflexivity].
Qed.

Lemma TrimSuffix_append (a b : string) : TrimSuffix (a +:+ b) b = a.
Proof.
  unfold TrimSuffix. rewrite HasSuffix_append, length_append.
  replace (String.length a + String.length b - String.length b)%nat
    with (String.length a) by lia.
  apply substring_append_l.
Qed.

Lemma string_of_list_ascii_app (a b : list ascii) :
  string_of_list_ascii (a ++ b) =
    string_of_list_ascii a +:+ string_of_list_ascii b.
Proof.
  induction a as [|c a IH]; [reflexivity |].
  simpl. rewrite IH, append_cons. reflexivity.
Qed.

Lemma ContainsByte_spec (l : list ascii) (c : ascii) :
  ContainsByte (string_of_list_ascii l) c = false <-> forall x, x ∈ l -> x <> c.
Proof.
  induction l as [|a l IH]; cbn.
  - split; [intros _ x Hx; inversion Hx | reflexivity].
  - rewrite orb_false_iff, IH, Ascii.eqb_neq. split.
    + intros [Ha Hl] x Hx. apply elem_of_cons in Hx as [->|Hx]; auto.
    + intros H. split; [apply H; left | intros x Hx; apply H; right; exact Hx].
Qed.

(** What the scan of [Ext] returns: nothing, or the dot it stopped at
    followed by what it had walked over, in which there is neither a dot
    nor a separator. *)
Lemma ext_scan_spec (r : list ascii) : forall acc,
  ext_scan r acc = [] \/
  exists pre rest,
    r = pre ++ "."%char :: rest /\
    ext_scan r acc = "."%char :: rev pre ++ acc /\
    forall x, x ∈ pre -> x <> "."%char /\ x <> "/"%char.
Proof.
  induction r as [|c r IH]; intros acc; cbn; [left; reflexivity |].
  unfold IsPathSeparator, Separator.
  destruct (Ascii.eqb c "/") eqn:Es; [left; reflexivity |].
  destruct (Ascii.eqb c ".") eqn:Ed.
  - right. exists [], r. apply Ascii.eqb_eq in Ed as ->.
    split; [reflexivity |]. split; [reflexivity |].
    intros y Hy. inversion Hy.
  - destruct (IH (c :: acc)) as [H|(pre & rest & -> & H & Hp)]; [left; exact H |].
    right. exists (c :: pre), rest. split; [reflexivity |]. split.
    + rewrite H. cbn. rewrite <- app_assoc. reflexivity.
    + intros x Hx. apply elem_of_cons in Hx as [->|Hx]; [| apply Hp; exact Hx].
      apply Ascii.eqb_neq in Es, Ed. auto.
Qed.

(** [Ext] splits the path: the path is what [TrimSuffix] leaves followed
    by the extension. *)
Lemma Ext_split (p : string) : p = TrimSuffix p (Ext p) +:+ Ext p.
Proof.
  assert (H : exists b, p = b +:+ Ext p).
  { unfold Ext.
    destruct (ext_scan_spec (rev (list_ascii_of_string p)) [])
      as [->|(pre & rest & Hr & -> & _)].
    - exists p. simpl. symmetry. apply append_empty_r.
    - exists (string_of_list_ascii (rev rest)).
      rewrite <- string_of_list_ascii_app, app_nil_r.
      rewrite <- (string_of_list_ascii_of_string p) at 1. f_equal.
      rewrite <- (rev_involutive (list_ascii_of_string p)), Hr.
      rewrite rev_app_distr. cbn. rewrite <- app_assoc. reflexivity. }
  destruct H as [b Hb]. rewrite Hb at 2. rewrite TrimSuffix_append. exact Hb.
Qed.

(** The extension is empty or runs from the last dot of the last element
    to the end. *)
Lemma Ext_shape (p : string) :
  Ext p = "" \/
  exists e, Ext p = String "."%char e /\
            ContainsByte e "."%char = false /\ ContainsByte e "/"%char = false.
Proof.
  unfold Ext.
  destruct (ext_scan_spec (rev (list_ascii_of_string p)) [])
    as [->|(pre & rest & Hr & -> & Hp)]; [left; reflexivity |].
  right. exists (string_of_list_ascii (rev pre)). rewrite app_nil_r.
  split; [reflexivity |].
  split; apply ContainsByte_spec; intros x Hx;
    apply list_elem_of_In, in_rev, list_elem_of_In in Hx; apply Hp in Hx; tauto.
Qed.

End Strings.

Section CleanedPaths.

(** A run without separator is one element. *)
Lemma split_sep_plain (q : list ascii) : forall cur,
  (forall c, c ∈ q -> IsPathSeparator c = false) ->
  split_sep q cur = [rev cur ++ q].
Proof.
  induction q as [|c q IH]; intros cur Hq; cbn.
  - rewrite app_nil_r. reflexivity.
  - rewrite (Hq c) by left. rewrite IH.
    + cbn. rewrite <- app_assoc. reflexivity.
    + intros x Hx. apply Hq. right. exact Hx.
Qed.

(** Bytes without separator added to a path go to its last element. *)
Lemma split_sep_snoc (q : list ascii) :
  (forall c, c ∈ q -> IsPathSeparator c = false) ->
  forall p cur, exists l x,
    split_sep p cur = l ++ [x] /\ split_sep (p ++ q) cur = l ++ [x ++ q].
Proof.
  intros Hq p. induction p as [|c p IH]; intros cur; cbn.
  - exists [], (rev cur). split; [reflexivity |].
    apply split_sep_plain. exact Hq.
  - destruct (IsPathSeparator c).
    + destruct (IH []) as (l & x & -> & ->). exists (rev cur :: l), x. auto.
    + apply IH.
Qed.

(** The element loop of [Clean] goes through the elements in turn. *)
Lemma clean_elems_app rooted l : forall out,
  exists out', forall m,
    clean_elems rooted (l ++ m) out = clean_elems rooted m out'.
Proof.
  induction l as [|e l IH]; intros out; cbn.
  - exists out. reflexivity.
  - repeat (case_decide || destruct out as [|top out] || destruct rooted);
      apply IH.
Qed.

Lemma joined_snoc l y :
  joined (l ++ [y]) =
    (joined l + length y + match l with [] => 0 | _ => 1 end)%nat.
Proof.
  unfold joined. induction l as [|a l IH]; cbn [app].
  - cbn. lia.
  - destruct l as [|b l].
    + cbn. rewrite length_app. cbn. lia.
    + change (join_sep (a :: (b :: l) ++ [y]))
        with (a ++ Separator :: join_sep ((b :: l) ++ [y])).
      change (join_sep (a :: b :: l))
        with (a ++ Separator :: join_sep (b :: l)).
      rewrite !length_app. cbn [length]. rewrite IH. lia.
Qed.

Lemma joined_rev_tail top out : (joined (rev out) <= joined (rev (top :: out)))%nat.
Proof. cbn [rev]. rewrite joined_snoc. lia. Qed.

(** One more element, at least three bytes longer than the element it
    replaces, makes the cleaned path longer. *)
Lemma clean_elems_last rooted out x y :
  (length x + 3 <= length y)%nat ->
  (joined (clean_elems rooted [x] out) < joined (clean_elems rooted [y] out))%nat.
Proof.
  intros Hlen.
  assert (Hy : clean_elems rooted [y] out = rev out ++ [y]).
  { cbn. repeat case_decide; subst; cbn in Hlen; try lia. reflexivity. }
  rewrite Hy, joined_snoc. cbn [clean_elems].
  repeat case_decide; subst; try lia.
  - destruct out as [|top out]; [destruct rooted; cbn in *; lia |].
    case_decide.
    + change (rev (dotdot :: top :: out)) with (rev (top :: out) ++ [dotdot]).
      rewrite joined_snoc. cbn [length dotdot] in *. lia.
    + change (rev (top :: out)) with (rev out ++ [top]).
      rewrite joined_snoc. destruct (rev out ++ [top]); lia.
  - change (rev (x :: out)) with (rev out ++ [x]).
    rewrite joined_snoc. lia.
Qed.

Lemma length_string_of_list_ascii (l : list ascii) :
  String.length (string_of_list_ascii l) = length l.
Proof. induction l as [|c l IH]; cbn; [reflexivity | rewrite IH; reflexivity]. Qed.

Lemma list_ascii_of_string_app (a b : string) :
  list_ascii_of_string (a +:+ b) =
    list_ascii_of_string a ++ list_ascii_of_string b.
Proof.
  induction a as [|c a IH]; [reflexivity |].
  change (String c a +:+ b) with (String c (a +:+ b)).
  cbn. rewrite IH. reflexivity.
Qed.

(** Adding [.gz] to a path makes its cleaned form longer, so that the
    two paths name different files. *)
Lemma Clean_gz_longer (p : string) :
  (String.length (Clean p) < String.length (Clean (p +:+ ".gz")))%nat.
Proof.
  unfold Clean. rewrite list_ascii_of_string_app.
  destruct (list_ascii_of_string p) as [|c l] eqn:E; [vm_compute; lia |].
  cbn [app]. set (q := list_ascii_of_string ".gz").
  destruct (split_sep_snoc q) with (p := c :: l) (cur := @nil ascii)
    as (es & x & Hs & Hs').
  { intros a Ha. unfold q in Ha. cbn in Ha.
    repeat (apply elem_of_cons in Ha as [->|Ha]; [reflexivity |]).
    inversion Ha. }
  change ((c :: l) ++ q) with (c :: l ++ q) in Hs'.
  rewrite Hs, Hs'.
  destruct (clean_elems_app (IsPathSeparator c) es []) as (out & Hout).
  rewrite !Hout.
  pose proof (clean_elems_last (IsPathSeparator c) out x (x ++ q)) as Hlt.
  rewrite length_app in Hlt. specialize (Hlt ltac:(cbn; lia)).
  unfold joined in Hlt.
  destruct (IsPathSeparator c).
  - rewrite !length_string_of_list_ascii. cbn [length]. lia.
  - destruct (join_sep (clean_elems false [x] out)) eqn:E1;
      destruct (join_sep (clean_elems false [x ++ q] out)) eqn:E2;
      rewrite ?length_string_of_list_ascii; cbn [length] in *; try lia.
    cbn. 
    assert (Hj : (3 <= joined (clean_elems false [x ++ q] out))%nat).
    { assert (Hy : clean_elems false [x ++ q] out = rev out ++ [x ++ q]).
      { cbn. repeat case_decide; try reflexivity;
          match goal with H : _ ++ _ = _ |- _ =>
            apply (f_equal (@length ascii)) in H; rewrite length_app in H;
            cbn in H; lia end. }
      rewrite Hy, joined_snoc, length_app. cbn. lia. }
    unfold joined in Hj. rewrite E2 in Hj. cbn in Hj. lia.
Qed.

Lemma key_gz_fresh (p : string) : key (p +:+ ".gz") <> key p.
Proof.
  unfold key. intros H. pose proof (Clean_gz_longer p) as Hl.
  rewrite H in Hl. lia.
Qed.

End CleanedPaths.

Section Timestamp.

Lemma all_from_spec P count : forall k,
  all_from P count k = true ->
  forall j, k <= j < k + Z.of_nat count -> P j = true.
Proof.
  induction count as [|c IH]; intros k H j Hj; [lia |].
  cbn [all_from] in H. apply andb_prop in H as [Hk Hr].
  destruct (Z.eq_dec j k) as [->|Hne]; [exact Hk |].
  apply (IH (k + 1) Hr). lia.
Qed.

Lemma all_below_spec P n :
  all_below P n = true -> forall k, 0 <= k < n -> P k = true.
Proof.
  intros H k Hk. apply (all_from_spec P (Z.to_nat n) 0 H). lia.
Qed.

Lemma era_ok_all : all_below era_ok 146097 = true.
Proof. vm_compute. reflexivity. Qed.

Lemma two_digits_all : all_below (digits_ok 2) 100 = true.
Proof. vm_compute. reflexivity. Qed.

Lemma four_digits_all : all_below (digits_ok 4) 10000 = true.
Proof. vm_compute. reflexivity. Qed.

Lemma two_digits n :
  0 <= n < 100 ->
  exists a b, appendInt n 2 = [a; b] /\ is_digit a = true /\ is_digit b = true.
Proof.
  intros Hn. pose proof (all_below_spec _ _ two_digits_all n Hn) as H.
  unfold digits_ok in H. apply andb_prop in H as [Hl Hd].
  apply Nat.eqb_eq in Hl.
  destruct (appendInt n 2) as [|a [|b [|c l]]]; try discriminate.
  cbn in Hd. rewrite andb_true_r in Hd. apply andb_prop in Hd as [Ha Hb].
  exists a, b. auto.
Qed.

Lemma four_digits n :
  0 <= n < 10000 ->
  exists a b c d, appendInt n 4 = [a; b; c; d] /\
    is_digit a = true /\ is_digit b = true /\
    is_digit c = true /\ is_digit d = true.
Proof.
  intros Hn. pose proof (all_below_spec _ _ four_digits_all n Hn) as H.
  unfold digits_ok in H. apply andb_prop in H as [Hl Hd].
  apply Nat.eqb_eq in Hl.
  destruct (appendInt n 4) as [|a [|b [|c [|d [|e l]]]]]; try discriminate.
  cbn in Hd. rewrite andb_true_r in Hd.
  apply andb_prop in Hd as [Ha Hd]. apply andb_prop in Hd as [Hb Hd].
  apply andb_prop in Hd as [Hc Hd].
  exists a, b, c, d. auto.
Qed.

(** The civil date of a day between the first day of year 0 and the last
    day of year 9999. *)
Lemma civil_bounds days :
  -719528 <= days < 2932897 ->
  let '(y, m, d) := civil days in
  0 <= y < 10000 /\ 1 <= m <= 12 /\ 1 <= d <= 31.
Proof.
  intros Hd. unfold civil.
  set (z := days + 719468).
  assert (Hdoe : 0 <= z mod 146097 < 146097) by (apply Z.mod_pos_bound; lia).
  pose proof (all_below_spec _ _ era_ok_all _ Hdoe) as H. unfold era_ok in H.
  pose proof (Z.div_mod z 146097 ltac:(lia)) as Hz.
  destruct (civil_of_era (z mod 146097)) as [[y m] d].
  repeat (apply andb_prop in H as [H ?]).
  assert (He : -1 <= z / 146097 < 25).
  { subst z. split.
    - apply Z.div_le_lower_bound; lia.
    - apply Z.div_lt_upper_bound; lia. }
  destruct (z mod 146097 <? 146037) eqn:E.
  - assert (z / 146097 <> -1) by (subst z; lia). lia.
  - assert (z / 146097 <> 24) by (subst z; lia). lia.
Qed.


End Timestamp.

Section RotatedName.
Context {RT : Runtime}.










End RotatedName.


(** For comparison, the same rotation of ["app.log"]. *)
Example log_extension_gets_gz :
  since disk_full (snd (Rotate gz_rotator (set_script [] disk_full))) =
    [EvClose 3; EvRename "app.log" "app-1970-01-01-000000.log";
     EvOpen "app-1970-01-01-000000.log";
     EvCreate "app-1970-01-01-000000.log.gz";
     EvCopy "app-1970-01-01-000000.log" "app-1970-01-01-000000.log.gz";
     EvRemove "app-1970-01-01-000000.log"; EvWrite 5 1; EvClose 5;
     EvClose 4; EvGlob "app-*.log*"; EvStat "app-1970-01-01-000000.log.gz";
     EvOpenFile "app.log"; EvFStat 6] /\
  fs (snd (Rotate gz_rotator (set_script [] disk_full)))
    !! "app-1970-01-01-000000.log.gz" =
    Some (mkFile [Byte.x1f; Byte.x8b; Byte.x41] 0).
Proof. vm_compute. repeat split. Qed.

(** * Further properties

    The rest of [LogRotator] (how a rotator is built, what a rotation and
    a [Write] do to the disk, the descriptors, the reference day,
    retention in general, the statistics) and the logger built on it. *)

(** ** The calls of the operating system, one by one *)

Section SystemCalls.

Lemma FClose_frame h w :
  fs (snd (FClose h w)) = fs w /\ clock (snd (FClose h w)) = clock w /\
  forall d, d ∈ opened (snd (FClose h w)) <-> d ∈ opened w /\ d <> fd h.
Proof.
  unfold FClose. cbn [emit opened].
  destruct (decide (fd h ∈ opened w)) as [Hin|Hout].
  - match goal with |- context [pop ?x] =>
      destruct (pop_spec x) as (o & s & ->) end.
    destruct (failure o); cbn; (split; [reflexivity |]);
      (split; [reflexivity |]); intros d; set_solver.
  - cbn. split; [reflexivity |]. split; [reflexivity |]. intros d. set_solver.
Qed.

Lemma FClose_zone h w : zone (snd (FClose h w)) = zone w.
Proof.
  unfold FClose. cbn [emit opened].
  destruct (decide (fd h ∈ opened w)); [| reflexivity].
  match goal with |- context [pop ?x] =>
    destruct (pop_spec x) as (o & s & ->) end.
  destruct (failure o); reflexivity.
Qed.

Lemma OpenFile_spec p w r w' :
  OpenFile p w = (r, w') ->
  clock w' = clock w /\
  (forall k, k <> key p -> fs w' !! k = fs w !! k) /\
  match r with
  | inl e => fs w' = fs w /\ opened w' = opened w
  | inr h =>
      name h = p /\ opened w' = {[fd h]} ∪ opened w /\
      fs w' !! key p = Some (default (mkFile [] (clock w)) (fs w !! key p))
  end.
Proof.
  unfold OpenFile.
  destruct (pop_spec (emit (EvOpenFile p) w)) as (o & s & ->).
  destruct (failure o) as [e|].
  { intros [= <- <-]. cbn. auto. }
  cbn [fs set_script emit].
  destruct (fs w !! key p) as [f|] eqn:E; cbn; intros [= <- <-]; cbn.
  - rewrite E. auto.
  - split; [reflexivity |]. split.
    + intros k Hk. rewrite lookup_insert_ne by congruence. reflexivity.
    + rewrite lookup_insert_eq. auto.
Qed.

Lemma FStat_spec h w r w' :
  FStat h w = (r, w') ->
  fs w' = fs w /\ clock w' = clock w /\ opened w' = opened w /\
  match r with
  | inl _ => True
  | inr st => forall f, fs w !! key (name h) = Some f -> st = info f
  end.
Proof.
  unfold FStat. cbn [emit opened].
  destruct (decide (fd h ∈ opened w)).
  - match goal with |- context [pop ?x] =>
      destruct (pop_spec x) as (o & s & ->) end.
    destruct (failure o); cbn.
    + intros [= <- <-]. auto.
    + destruct (fs w !! key (name h)) eqn:E; intros [= <- <-]; cbn;
        repeat split; congruence.
  - intros [= <- <-]. cbn. auto.
Qed.

Lemma Open_spec p w r w' :
  Open p w = (r, w') ->
  fs w' = fs w /\ clock w' = clock w /\
  match r with inr h => name h = p | inl _ => True end.
Proof.
  unfold Open. pop_next. destruct (failure o); [intros [= <- <-]; auto |].
  destruct (fs w !! key p); intros [= <- <-]; auto.
Qed.

Lemma Create_spec p w r w' :
  Create p w = (r, w') ->
  clock w' = clock w /\
  (forall k, k <> key p -> fs w' !! k = fs w !! k) /\
  match r with inr h => name h = p | inl _ => True end.
Proof.
  unfold Create. pop_next. destruct (failure o); intros [= <- <-]; cbn; [auto |].
  repeat split. intros k Hk. rewrite lookup_insert_ne by congruence. reflexivity.
Qed.

Lemma Copy_spec z fl dst src w :
  clock (snd (Copy z fl dst src w)) = clock w /\
  forall k, k <> key (name dst) ->
    fs (snd (Copy z fl dst src w)) !! k = fs w !! k.
Proof.
  unfold Copy. pop_next.
  destruct o; cbn; (split; [reflexivity |]); intros x Hx;
    rewrite ?lookup_alter_ne by congruence; reflexivity.
Qed.

Lemma Remove_spec p w r w' :
  Remove p w = (r, w') ->
  clock w' = clock w /\
  (forall k, k <> key p -> fs w' !! k = fs w !! k) /\
  match r with
  | None => fs w' !! key p = None
  | Some _ => fs w' = fs w
  end.
Proof.
  unfold Remove. pop_next. destruct (failure o); [intros [= <- <-]; auto |].
  destruct (fs w !! key p); intros [= <- <-]; cbn; [| auto].
  split; [reflexivity |]. split; [| apply lookup_delete_eq].
  intros k Hk. rewrite lookup_delete_ne by congruence. reflexivity.
Qed.

Lemma Stat_fs p w : fs (snd (Stat p w)) = fs w.
Proof.
  unfold Stat. pop_next. destruct (failure o); [reflexivity |].
  destruct (fs w !! key p); reflexivity.
Qed.

Lemma MkdirAll_spec dir w :
  fs (snd (MkdirAll dir w)) = fs w /\ clock (snd (MkdirAll dir w)) = clock w /\
  opened (snd (MkdirAll dir w)) = opened w.
Proof. unfold MkdirAll. pop_next. destruct (failure o); auto. Qed.

(** A write on a handle appends the bytes it counts to the file the
    handle is on and touches nothing else. *)
Lemma FWrite_spec h p w n err w' :
  FWrite h p w = ((n, err), w') ->
  clock w' = clock w /\ opened w' = opened w /\
  (n <= length p)%nat /\ (err = None -> n = length p /\ fd h ∈ opened w) /\
  (forall k, k <> key (name h) -> fs w' !! k = fs w !! k) /\
  forall f, fs w !! key (name h) = Some f ->
    exists f', fs w' !! key (name h) = Some f' /\ data f' = data f ++ take n p.
Proof.
  unfold FWrite. cbn [emit opened].
  assert (Hnil : forall f : File, data f = data f ++ take 0 p).
  { intros f. cbn. rewrite app_nil_r. reflexivity. }
  assert (Halter : forall (x : gmap string File) bytes t,
    (forall k, k <> key (name h) ->
       alter (fun f => mkFile (data f ++ bytes) t) (key (name h)) x !! k = x !! k) /\
    forall f, x !! key (name h) = Some f ->
      exists f', alter (fun f => mkFile (data f ++ bytes) t) (key (name h)) x
                   !! key (name h) = Some f' /\ data f' = data f ++ bytes).
  { intros x bytes t. split.
    - intros k Hk. apply lookup_alter_ne. congruence.
    - intros f Hf. rewrite lookup_alter_eq, Hf. cbn. eauto. }
  destruct (decide (fd h ∈ opened w)) as [Hin|Hout].
  - match goal with |- context [pop ?x] =>
      destruct (pop_spec x) as (o & s & ->) end.
    destruct o as [|e|k e]; cbn -[Nat.ltb].
    + intros Heq; injection Heq as Hn Herr Hw; subst n err w'. cbn. rewrite firstn_all.
      destruct (Halter (fs w) p (clock w)) as [H1 H2]. repeat split; auto.
    + intros Heq; injection Heq as Hn Herr Hw; subst n err w'. cbn. repeat split; auto; try lia; try discriminate.
      intros f Hf. exists f. auto.
    + destruct (k <? length p)%nat eqn:E; intros Heq; injection Heq as Hn Herr Hw; subst n err w'; cbn.
      * apply Nat.ltb_lt in E.
        destruct (Halter (fs w) (take k p) (clock w)) as [H1 H2].
        repeat split; auto; try lia; discriminate.
      * rewrite firstn_all.
        destruct (Halter (fs w) p (clock w)) as [H1 H2]. repeat split; auto.
  - intros Heq; injection Heq as Hn Herr Hw; subst n err w'. cbn. repeat split; auto; try lia; try discriminate.
    intros f Hf. exists f. auto.
Qed.

End SystemCalls.

(** ** Opening the log file *)

Section Opening.
Context {RT : Runtime}.

Lemma openFile_spec lr w r lr' w' :
  openFile lr w = (r, lr', w') ->
  clock w' = clock w /\
  (forall k, k <> key (filePath lr) -> fs w' !! k = fs w !! k) /\
  match fs w !! key (filePath lr) with
  | Some f => fs w' !! key (filePath lr) = Some f
  | None => fs w' !! key (filePath lr) = None \/
            fs w' !! key (filePath lr) = Some (mkFile [] (clock w))
  end /\
  match r with
  | None =>
      exists h f, lr' = set_file h (Z.of_nat (length (data f))) lr /\
        name h = filePath lr /\ fd h ∈ opened w' /\
        fs w' !! key (filePath lr) = Some f /\
        (forall d, d ∈ opened w' -> d ∈ opened w \/ d = fd h)
  | Some e =>
      lr' = lr /\ (forall d, d ∈ opened w' -> d ∈ opened w) /\
      ((exists e', e = Wrap "failed to open log file" e' /\ fs w' = fs w) \/
       (exists e', e = Wrap "failed to get file stats" e'))
  end.
Proof.
  unfold openFile.
  destruct (OpenFile (filePath lr) w) as [[e|h] w1] eqn:Ho;
    apply OpenFile_spec in Ho as (Hc1 & Hk1 & H1).
  { destruct H1 as [Hfs Hop]. intros [= <- <- <-].
    split; [exact Hc1 |]. split; [exact Hk1 |]. rewrite Hfs.
    split; [destruct (fs w !! _); auto |].
    split; [reflexivity |]. rewrite Hop. split; [auto |]. left. eauto. }
  destruct H1 as (Hn & Hop1 & Hf1).
  assert (Hkey : match fs w !! key (filePath lr) with
                 | Some f => fs w1 !! key (filePath lr) = Some f
                 | None => fs w1 !! key (filePath lr) = None \/
                           fs w1 !! key (filePath lr) = Some (mkFile [] (clock w))
                 end).
  { rewrite Hf1. destruct (fs w !! key (filePath lr)); cbn; auto. }
  destruct (FStat h w1) as [[e|st] w2] eqn:Hs;
    apply FStat_spec in Hs as (Hfs2 & Hc2 & Hop2 & H2).
  - destruct (FClose_frame h w2) as (Hf & Hc & Ho).
    destruct (FClose h w2) as [x0 w4]. cbn [snd] in *.
    intros [= <- <- <-]. split; [congruence |].
    split; [intros k Hk; rewrite Hf, Hfs2; auto |].
    split; [rewrite Hf, Hfs2; exact Hkey |].
    split; [reflexivity |]. split; [| right; eauto].
    intros d Hd. apply Ho in Hd. rewrite Hop2, Hop1 in Hd. set_solver.
  - intros [= <- <- <-]. split; [congruence |].
    split; [intros k Hk; rewrite Hfs2; auto |].
    split; [rewrite Hfs2; exact Hkey |].
    rewrite Hn in H2. specialize (H2 _ Hf1). subst st. cbn [Size info].
    eexists h, _. split; [reflexivity |]. split; [exact Hn |].
    rewrite Hop2, Hop1, Hfs2. split; [set_solver |]. split; [exact Hf1 |].
    intros d. set_solver.
Qed.

Lemma openFile_in_sync lr w lr' w' :
  openFile lr w = (None, lr', w') ->
  in_sync lr' w' /\ same_settings lr lr' /\ rotateTime lr' = rotateTime lr.
Proof.
  intros H. apply openFile_spec in H as (_ & _ & _ & h & f & -> & Hn & Ho & Hf & _).
  split; [| split; [repeat split | reflexivity]].
  exists h, f. cbn. auto.
Qed.

Lemma openFile_script lr w :
  script w = [] -> script (snd (openFile lr w)) = [].
Proof.
  intros Hq. unfold openFile.
  assert (H1 : script (snd (OpenFile (filePath lr) w)) = []).
  { unfold OpenFile. rewrite pop_quiet by exact Hq. cbn.
    destruct (fs w !! key (filePath lr)); exact Hq. }
  destruct (OpenFile (filePath lr) w) as [[e|h] w1]; cbn [snd] in *;
    [exact H1 |].
  assert (H2 : script (snd (FStat h w1)) = []).
  { unfold FStat. cbn [emit opened].
    destruct (decide (fd h ∈ opened w1)); [| exact H1].
    rewrite pop_quiet by exact H1. cbn.
    destruct (fs w1 !! key (name h)); exact H1. }
  destruct (FStat h w1) as [[e|st] w2]; cbn [snd] in *; [| exact H2].
  assert (H3 : script (snd (FClose h w2)) = []).
  { unfold FClose. cbn [emit opened].
    destruct (decide (fd h ∈ opened w2)); [| exact H2].
    rewrite pop_quiet by exact H2. cbn. exact H2. }
  destruct (FClose h w2) as [x w3]. exact H3.
Qed.

End Opening.

(** ** Building a rotator *)

Section Construction.
Context {RT : Runtime}.

(** X1. A [NewLogRotator] that returns an error leaves no descriptor
    open that was not open before, and every file that was there is still
    there, as it was. The error is "file path is required" exactly for
    the empty path, and then nothing at all was done; otherwise it wraps
    the error of the creation of the directory, of the opening of the
    file (no file was created in these two cases) or of the stat. *)
Theorem NewLogRotator_failure config w e w' :
  NewLogRotator config w = (inl e, w') ->
  (forall d, d ∈ opened w' -> d ∈ opened w) /\
  (forall k f, fs w !! k = Some f -> fs w' !! k = Some f) /\
  ((e = ErrorNew "file path is required" /\ FilePath config = "" /\ w' = w) \/
   (FilePath config <> "" /\
    ((exists e', e = Wrap "failed to create log directory" e' /\ fs w' = fs w) \/
     (exists e', e = Wrap "failed to open log file" e' /\ fs w' = fs w) \/
     (exists e', e = Wrap "failed to get file stats" e')))).
Proof.
  unfold NewLogRotator. destruct (String.eqb_spec (FilePath config) "") as [E|E].
  { intros [= <- <-]. split; [auto |]. split; [auto |]. left. auto. }
  cbn [Now]. set (w0 := mkWorld _ _ _ _ _ _ _ _).
  destruct (MkdirAll_spec (Dir (FilePath config)) w0) as (Hf1 & Hc1 & Ho1).
  destruct (MkdirAll _ w0) as [[e1|] w1]; cbn [snd] in *.
  { intros [= <- <-]. rewrite Ho1, Hf1. split; [auto |]. split; [auto |].
    right. split; [exact E |]. left. eauto. }
  match goal with |- context [openFile ?l ?x] =>
    destruct (openFile l x) as [[r lr1] w2] eqn:Ho end.
  destruct r as [e2|]; [| intros [=]].
  intros [= <- <-].
  apply openFile_spec in Ho as (_ & Hk & Hm & _ & Hop & He). cbn [filePath] in *.
  split; [intros d Hd; apply Hop in Hd; rewrite Ho1 in Hd; exact Hd |].
  split.
  - intros k f Hkf. destruct (decide (k = key (FilePath config))) as [->|Hne].
    + rewrite Hf1 in Hm. change (fs w0) with (fs w) in Hm. rewrite Hkf in Hm.
      exact Hm.
    + rewrite (Hk k Hne), Hf1. exact Hkf.
  - right. split; [exact E |]. right.
    destruct He as [(e' & -> & Hfs)|(e' & ->)]; [left | right; eauto].
    exists e'. split; [reflexivity |]. rewrite Hfs, Hf1. reflexivity.
Qed.

Lemma NewLogRotator_in_sync config w lr w' :
  NewLogRotator config w = (inr lr, w') -> in_sync lr w'.
Proof.
  unfold NewLogRotator. destruct (String.eqb (FilePath config) ""); [intros [=] |].
  cbn [Now]. destruct (MkdirAll _ _) as [[e1|] w1]; [intros [=] |].
  match goal with |- context [openFile ?l ?x] =>
    destruct (openFile l x) as [[r lr1] w2] eqn:Ho end.
  destruct r as [e2|]; [intros [=] |]. intros [= <- <-].
  apply openFile_in_sync in Ho. apply Ho.
Qed.

(** X2. A [NewLogRotator] that succeeds has opened the log file for
    appending: the rotator holds an open handle on it and its tracked
    size is the size of the file; a file that was there keeps its
    content, a file that was not is created empty; no other path is
    touched; the reference day is the time of construction truncated to
    24 hours. *)
Theorem NewLogRotator_opens_for_append config w lr w' :
  NewLogRotator config w = (inr lr, w') ->
  in_sync lr w' /\
  rotateTime lr = Truncate (clock w) (24 * Hour) /\
  (forall k, k <> key (FilePath config) -> fs w' !! k = fs w !! k) /\
  match fs w !! key (FilePath config) with
  | Some f => fs w' !! key (FilePath config) = Some f /\
              fileSize lr = Z.of_nat (length (data f))
  | None => (exists t, fs w' !! key (FilePath config) = Some (mkFile [] t)) /\
            fileSize lr = 0
  end.
Proof.
  unfold NewLogRotator. destruct (String.eqb (FilePath config) ""); [intros [=] |].
  cbn [Now]. set (w0 := mkWorld _ _ _ _ _ _ _ _).
  destruct (MkdirAll_spec (Dir (FilePath config)) w0) as (Hf1 & Hc1 & Ho1).
  destruct (MkdirAll _ w0) as [[e1|] w1]; cbn [snd] in *; [intros [=] |].
  match goal with |- context [openFile ?l ?x] =>
    destruct (openFile l x) as [[r lr1] w2] eqn:Ho end.
  destruct r as [e2|]; [intros [=] |]. intros [= <- <-].
  pose proof (openFile_in_sync _ _ _ _ Ho) as (Hsync & _ & Hrt).
  apply openFile_spec in Ho as (_ & Hk & Hm & h & f & -> & _ & _ & Hf & _).
  cbn [filePath rotateTime] in *.
  split; [exact Hsync |]. split; [reflexivity |].
  split; [intros k Hne; rewrite (Hk k Hne), Hf1; reflexivity |].
  rewrite Hf1 in Hm. change (fs w0) with (fs w) in Hm.
  destruct (fs w !! key (FilePath config)) as [g|].
  - rewrite Hm in Hf. injection Hf as <-. auto.
  - destruct Hm as [Hm|Hm]; [congruence |].
    rewrite Hm in Hf. injection Hf as <-. split; [eauto | reflexivity].
Qed.

Lemma NewLogRotator_quiet config w :
  script w = [] -> FilePath config <> "" ->
  exists lr w', NewLogRotator config w = (inr lr, w').
Proof.
  intros Hq Hp. unfold NewLogRotator. apply String.eqb_neq in Hp. rewrite Hp.
  cbn [Now]. set (w0 := mkWorld _ _ _ _ _ _ _ _).
  unfold MkdirAll. rewrite pop_quiet by exact Hq. cbn [failure].
  match goal with |- context [openFile ?l ?x] =>
    destruct (openFile_quiet l x Hq) as (f & sz & w2 & -> & _) end.
  eauto.
Qed.

(** X3. Where nothing fails, the only configuration that
    [NewLogRotator] rejects is the empty path; every other value is
    accepted, and a value other than 0 is kept as it is, negative or
    not. *)
Theorem NewLogRotator_accepts config w :
  script w = [] -> FilePath config <> "" ->
  exists lr w',
    NewLogRotator config w = (inr lr, w') /\
    (MaxSize config <> 0 -> maxSize lr = MaxSize config) /\
    (MaxAge config <> 0 -> maxAge lr = MaxAge config) /\
    (MaxBackups config <> 0 -> maxBackups lr = MaxBackups config) /\
    (MaxSize config = 0 -> maxSize lr = 104857600) /\
    (MaxAge config = 0 -> maxAge lr = 604800 * Second) /\
    (MaxBackups config = 0 -> maxBackups lr = 5).
Proof.
  intros Hq Hp.
  destruct (NewLogRotator_quiet config w Hq Hp) as (lr & w' & H).
  exists lr, w'. split; [exact H |].
  destruct (NewLogRotator_ok config w lr w' H) as (_ & _ & Hs & Ha & Hb & _).
  rewrite Hs, Ha, Hb.
  repeat split; intros Hz;
    try (apply Z.eqb_neq in Hz; rewrite Hz; reflexivity);
    rewrite Hz; reflexivity.
Qed.

(** Where nothing fails, [NewLogRotator] on a path that names no file
    yet creates an empty file, and nothing fails afterwards either. *)
Lemma NewLogRotator_fresh config w :
  script w = [] -> FilePath config <> "" ->
  fs w !! key (FilePath config) = None ->
  exists lr w' h t,
    NewLogRotator config w = (inr lr, w') /\ script w' = [] /\
    file lr = Some h /\ name h = FilePath config /\ fd h ∈ opened w' /\
    fileSize lr = 0 /\ fs w' !! key (FilePath config) = Some (mkFile [] t).
Proof.
  intros Hq Hp Hnone. unfold NewLogRotator.
  apply String.eqb_neq in Hp. rewrite Hp.
  cbn [Now]. set (w0 := mkWorld _ _ _ _ _ _ _ _).
  assert (Hq0 : script w0 = []) by exact Hq.
  unfold MkdirAll. rewrite pop_quiet by exact Hq0. cbn [failure].
  set (w1 := emit _ w0).
  assert (Hq1 : script w1 = []) by exact Hq.
  match goal with |- context [openFile ?l w1] => set (lr0 := l) end.
  pose proof (openFile_script lr0 w1 Hq1) as Hs.
  destruct (openFile_quiet lr0 w1 Hq1) as (f & sz & w2 & Ho & _).
  rewrite Ho in Hs |- *. cbn [snd] in Hs.
  apply openFile_spec in Ho as (_ & _ & Hm & h & g & Hset & Hn & Hin & Hg & _).
  change (fs w1) with (fs w) in Hm. cbn [filePath lr0] in *.
  rewrite Hnone in Hm. destruct Hm as [Hm|Hm]; [congruence |].
  rewrite Hm in Hg. injection Hg as <-.
  eexists _, w2, h, _. split; [reflexivity |]. rewrite Hset. cbn.
  repeat split; try assumption. exact Hm.
Qed.

End Construction.

Lemma NewLogRotator_failure_witness :
  NewLogRotator app_config no_permission =
    (inl (Wrap "failed to create log directory"
            (PathError "mkdir" "." (SyscallError EACCES))),
     snd (NewLogRotator app_config no_permission)) /\
  (forall d, d ∈ opened (snd (NewLogRotator app_config no_permission)) ->
             d ∈ opened no_permission) /\
  (forall k f, fs no_permission !! k = Some f ->
     fs (snd (NewLogRotator app_config no_permission)) !! k = Some f) /\
  ((Wrap "failed to create log directory"
      (PathError "mkdir" "." (SyscallError EACCES))
    = ErrorNew "file path is required" /\ FilePath app_config = "" /\
    snd (NewLogRotator app_config no_permission) = no_permission) \/
   (FilePath app_config <> "" /\
    ((exists e', Wrap "failed to create log directory"
                   (PathError "mkdir" "." (SyscallError EACCES))
                 = Wrap "failed to create log directory" e' /\
                 fs (snd (NewLogRotator app_config no_permission))
                 = fs no_permission) \/
     (exists e', Wrap "failed to create log directory"
                   (PathError "mkdir" "." (SyscallError EACCES))
                 = Wrap "failed to open log file" e' /\
                 fs (snd (NewLogRotator app_config no_permission))
                 = fs no_permission) \/
     (exists e', Wrap "failed to create log directory"
                   (PathError "mkdir" "." (SyscallError EACCES))
                 = Wrap "failed to get file stats" e')))).
Proof.
  assert (H : NewLogRotator app_config no_permission =
    (inl (Wrap "failed to create log directory"
            (PathError "mkdir" "." (SyscallError EACCES))),
     snd (NewLogRotator app_config no_permission)))
    by (vm_compute; reflexivity).
  split; [exact H |].
  exact (NewLogRotator_failure app_config no_permission _ _ H).
Defined.

Lemma NewLogRotator_opens_for_append_witness :
  NewLogRotator app_config Sample.quiet = (inr app_rotator, app_world) /\
  in_sync app_rotator app_world /\
  rotateTime app_rotator = Truncate (clock Sample.quiet) (24 * Hour) /\
  (forall k, k <> key (FilePath app_config) ->
     fs app_world !! k = fs Sample.quiet !! k) /\
  match fs Sample.quiet !! key (FilePath app_config) with
  | Some f => fs app_world !! key (FilePath app_config) = Some f /\
              fileSize app_rotator = Z.of_nat (length (data f))
  | None => (exists t, fs app_world !! key (FilePath app_config)
                       = Some (mkFile [] t)) /\
            fileSize app_rotator = 0
  end.
Proof.
  assert (H : NewLogRotator app_config Sample.quiet = (inr app_rotator, app_world))
    by (vm_compute; reflexivity).
  split; [exact H |].
  exact (NewLogRotator_opens_for_append app_config Sample.quiet _ _ H).
Defined.

Lemma NewLogRotator_accepts_witness :
  script Sample.quiet = [] /\ FilePath app_config <> "" /\
  exists lr w',
    NewLogRotator app_config Sample.quiet = (inr lr, w') /\
    (MaxSize app_config <> 0 -> maxSize lr = MaxSize app_config) /\
    (MaxAge app_config <> 0 -> maxAge lr = MaxAge app_config) /\
    (MaxBackups app_config <> 0 -> maxBackups lr = MaxBackups app_config) /\
    (MaxSize app_config = 0 -> maxSize lr = 104857600) /\
    (MaxAge app_config = 0 -> maxAge lr = 604800 * Second) /\
    (MaxBackups app_config = 0 -> maxBackups lr = 5).
Proof.
  assert (Hp : FilePath app_config <> "") by discriminate.
  split; [reflexivity |]. split; [exact Hp |].
  exact (NewLogRotator_accepts app_config Sample.quiet eq_refl Hp).
Defined.

(** ** Names that are new *)

Section FreshNames.
Context {RT : Runtime}.

(** Replacing the end of the last element of a path by a longer end
    makes the cleaned path longer. *)
Lemma Clean_longer (b q q' : string) :
  one_element q -> one_element q' ->
  (String.length q + 3 <= String.length q')%nat ->
  (String.length (Clean (b +:+ q)) < String.length (Clean (b +:+ q')))%nat.
Proof.
  intros Hq Hq' Hlen. unfold one_element in *.
  assert (Hl : (length (list_ascii_of_string q) + 3
                <= length (list_ascii_of_string q'))%nat).
  { rewrite <- (length_string_of_list_ascii (list_ascii_of_string q)),
            <- (length_string_of_list_ascii (list_ascii_of_string q')),
            !string_of_list_ascii_of_string.
    exact Hlen. }
  clear Hlen. unfold Clean. rewrite !list_ascii_of_string_app.
  set (lb := list_ascii_of_string b).
  set (lq := list_ascii_of_string q) in *.
  set (lq' := list_ascii_of_string q') in *.
  destruct (split_sep_snoc lq Hq lb []) as (es & x & Hs & Hsq).
  destruct (split_sep_snoc lq' Hq' lb []) as (es' & x' & Hs' & Hsq').
  rewrite Hs in Hs'. apply app_inj_tail in Hs' as [<- <-].
  destruct (lb ++ lq') as [|c' l'] eqn:E'.
  { apply (f_equal (@length ascii)) in E'. rewrite length_app in E'.
    cbn in E'. lia. }
  assert (Hy : forall rooted out,
            clean_elems rooted [x ++ lq'] out = rev out ++ [x ++ lq']).
  { intros rooted out. cbn. repeat case_decide; try reflexivity;
      match goal with H : _ ++ _ = _ |- _ =>
        apply (f_equal (@length ascii)) in H; rewrite length_app in H;
        cbn in H; lia end. }
  rewrite Hsq'.
  destruct (clean_elems_app (IsPathSeparator c') es []) as (out & Hout).
  rewrite Hout, Hy.
  assert (Hbig : (3 <= length (join_sep (rev out ++ [x ++ lq'])))%nat).
  { change (length (join_sep ?l)) with (joined l).
    rewrite joined_snoc, length_app. lia. }
  destruct (lb ++ lq) as [|c l] eqn:E.
  { cbn [String.length]. destruct (IsPathSeparator c').
    - rewrite length_string_of_list_ascii. cbn [length]. lia.
    - destruct (join_sep (rev out ++ [x ++ lq'])) eqn:Ej; cbn in Hbig; [lia |].
      rewrite length_string_of_list_ascii. cbn [length]. lia. }
  assert (Hc : IsPathSeparator c = IsPathSeparator c').
  { destruct lb as [|cb lb']; cbn in E, E'.
    - rewrite (Hq c), (Hq' c'); [reflexivity | rewrite E'; left | rewrite E; left].
    - congruence. }
  rewrite Hsq, Hc, Hout.
  pose proof (clean_elems_last (IsPathSeparator c') out (x ++ lq) (x ++ lq'))
    as Hlt.
  rewrite !length_app in Hlt. specialize (Hlt ltac:(lia)).
  rewrite Hy in Hlt. unfold joined in Hlt.
  destruct (IsPathSeparator c').
  - rewrite !length_string_of_list_ascii. cbn [length]. lia.
  - destruct (join_sep (clean_elems false [x ++ lq] out)) eqn:E1;
      destruct (join_sep (rev out ++ [x ++ lq'])) eqn:E2;
      rewrite ?length_string_of_list_ascii; cbn [length String.length] in *;
      lia.
Qed.

Lemma utod_no_sep u : 0 <= u < 10 -> IsPathSeparator (utod u) = false.
Proof.
  intros H.
  assert (Hu : u = 0 \/ u = 1 \/ u = 2 \/ u = 3 \/ u = 4 \/ u = 5 \/ u = 6 \/
               u = 7 \/ u = 8 \/ u = 9) by lia.
  repeat (destruct Hu as [->|Hu]; [reflexivity |]). subst u. reflexivity.
Qed.

Lemma digits_no_sep fuel : forall u acc,
  0 <= u ->
  (forall c, c ∈ acc -> IsPathSeparator c = false) ->
  forall c, c ∈ digits fuel u acc -> IsPathSeparator c = false.
Proof.
  induction fuel as [|fuel IH]; intros u acc Hu Hacc c; cbn; [apply Hacc |].
  assert (Hacc' : forall c, c ∈ utod (u mod 10) :: acc ->
                            IsPathSeparator c = false).
  { intros a Ha. apply elem_of_cons in Ha as [->|Ha]; [| apply Hacc; exact Ha].
    apply utod_no_sep. apply Z.mod_pos_bound. lia. }
  destruct (u / 10 =? 0); [apply Hacc' |].
  apply IH; [apply Z.div_pos; lia | exact Hacc'].
Qed.

Lemma appendInt_no_sep x width c :
  c ∈ appendInt x width -> IsPathSeparator c = false.
Proof.
  unfold appendInt. rewrite !elem_of_app. intros [H|[H|H]].
  - destruct (x <? 0); [| inversion H].
    apply elem_of_cons in H as [->|H]; [reflexivity | inversion H].
  - apply list_elem_of_In, repeat_spec in H. subst c. reflexivity.
  - revert H. apply digits_no_sep; [lia |]. intros a Ha. inversion Ha.
Qed.

(** A timestamp is one path element of at least three bytes. *)
Lemma Format_one_element zone t :
  one_element (Format zone t) /\ (3 <= String.length (Format zone t))%nat.
Proof.
  unfold Format. destruct (civil _) as [[y m] d].
  split.
  - intros c. rewrite list_ascii_of_string_of_list_ascii.
    repeat (rewrite ?elem_of_app, ?elem_of_cons).
    intros H. decompose [or] H; clear H;
      try (subst c; reflexivity); eapply appendInt_no_sep; eassumption.
  - rewrite length_string_of_list_ascii.
    repeat (rewrite ?length_app; cbn [length]). lia.
Qed.

Lemma Ext_one_element (p : string) : one_element (Ext p).
Proof.
  intros c Hc. destruct (Ext_shape p) as [E|(e & E & _ & He)];
    rewrite E in Hc; cbn in Hc; [inversion Hc |].
  apply elem_of_cons in Hc as [->|Hc]; [reflexivity |].
  rewrite <- (string_of_list_ascii_of_string e) in He.
  rewrite ContainsByte_spec in He. specialize (He c Hc).
  unfold IsPathSeparator, Separator. apply Ascii.eqb_neq. exact He.
Qed.

Lemma append_assoc (a b c : string) : (a +:+ b) +:+ c = a +:+ b +:+ c.
Proof.
  induction a as [|x a IH]; [reflexivity |].
  rewrite !append_cons, IH. reflexivity.
Qed.

Lemma one_element_append (a b : string) :
  one_element a -> one_element b -> one_element (a +:+ b).
Proof.
  intros Ha Hb c. rewrite list_ascii_of_string_app, elem_of_app.
  intros [H|H]; auto.
Qed.

(** The rotated name and the name of its compressed form never name the
    active file. *)
Lemma rotatedName_fresh lr w :
  key (rotatedName lr w) <> key (filePath lr) /\
  key (rotatedName lr w +:+ ".gz") <> key (filePath lr).
Proof.
  unfold rotatedName, generateRotatedName. cbn [Now fst zone].
  set (ext := Ext (filePath lr)).
  set (base := TrimSuffix (filePath lr) ext).
  set (ts := Format (zone w) (clock w)).
  assert (Hp : filePath lr = base +:+ ext) by apply Ext_split.
  destruct (Format_one_element (zone w) (clock w)) as [Hts Hlen]. fold ts in Hts, Hlen.
  assert (Hdash : one_element "-").
  { intros c Hc. cbn in Hc. apply elem_of_cons in Hc as [->|Hc];
      [reflexivity | inversion Hc]. }
  assert (Hgz : one_element ".gz").
  { intros c Hc. cbn in Hc.
    repeat (apply elem_of_cons in Hc as [->|Hc]; [reflexivity |]).
    inversion Hc. }
  pose proof (Ext_one_element (filePath lr)) as Hext. fold ext in Hext.
  unfold key. split; intros Heq.
  - pose proof (Clean_longer base ext ("-" +:+ ts +:+ ext)) as Hl.
    rewrite <- Hp, Heq in Hl.
    assert (Hlt : (String.length (Clean (filePath lr))
                   < String.length (Clean (filePath lr)))%nat); [| lia].
    apply Hl; [exact Hext | repeat apply one_element_append; assumption |].
    rewrite !length_append. cbn [String.length]. lia.
  - pose proof (Clean_longer base ext ("-" +:+ ts +:+ ext +:+ ".gz")) as Hl.
    assert (Hassoc : (base +:+ "-" +:+ ts +:+ ext) +:+ ".gz"
                     = base +:+ "-" +:+ ts +:+ ext +:+ ".gz").
    { rewrite !append_assoc. reflexivity. }
    rewrite Hassoc in Heq. rewrite <- Hp, Heq in Hl.
    assert (Hlt : (String.length (Clean (filePath lr))
                   < String.length (Clean (filePath lr)))%nat); [| lia].
    apply Hl; [exact Hext | repeat apply one_element_append; assumption |].
    rewrite !length_append. cbn [String.length]. lia.
Qed.

(** X4. The rotated name and the name of its compressed form never name
    the active file, so the rename of a rotation moves the log away: after
    a rename that succeeded there is no file under the active path, and
    the file that was there is under the rotated name. *)
Theorem rotated_name_is_fresh lr w :
  key (rotatedName lr w) <> key (filePath lr) /\
  key (rotatedName lr w +:+ ".gz") <> key (filePath lr) /\
  forall w2 w3,
    Rename (filePath lr) (rotatedName lr w) w2 = (None, w3) ->
    fs w3 !! key (filePath lr) = None /\
    exists f, fs w2 !! key (filePath lr) = Some f /\
              fs w3 !! key (rotatedName lr w) = Some f.
Proof.
  destruct (rotatedName_fresh lr w) as [H1 H2].
  split; [exact H1 |]. split; [exact H2 |].
  intros w2 w3. unfold Rename. pop_next.
  destruct (failure o); [intros [=] |].
  destruct (fs w2 !! key (filePath lr)) as [f|]; [| intros [=]].
  intros [= <-]. cbn. split.
  - rewrite lookup_insert_ne by exact H1. apply lookup_delete_eq.
  - exists f. split; [reflexivity | apply lookup_insert_eq].
Qed.

End FreshNames.

(** ** Names that are the same *)

Section NamesBySecond.
Context {RT : Runtime}.

Lemma era_back_all : all_below era_back 146097 = true.
Proof. vm_compute. reflexivity. Qed.

Lemma two_digits_back : all_below (reads_back 2) 100 = true.
Proof. vm_compute. reflexivity. Qed.

Lemma four_digits_back : all_below (reads_back 4) 10000 = true.
Proof. vm_compute. reflexivity. Qed.

Lemma appendInt_2_inj n n' :
  0 <= n < 100 -> 0 <= n' < 100 -> appendInt n 2 = appendInt n' 2 -> n = n'.
Proof.
  intros Hn Hn' H.
  pose proof (all_below_spec _ _ two_digits_back n Hn) as H1.
  pose proof (all_below_spec _ _ two_digits_back n' Hn') as H2.
  unfold reads_back in *. apply Z.eqb_eq in H1, H2. congruence.
Qed.

Lemma appendInt_4_inj n n' :
  0 <= n < 10000 -> 0 <= n' < 10000 ->
  appendInt n 4 = appendInt n' 4 -> n = n'.
Proof.
  intros Hn Hn' H.
  pose proof (all_below_spec _ _ four_digits_back n Hn) as H1.
  pose proof (all_below_spec _ _ four_digits_back n' Hn') as H2.
  unfold reads_back in *. apply Z.eqb_eq in H1, H2. congruence.
Qed.

(** Two days have the same date only when they are the same day. *)
Lemma civil_inj days days' : civil days = civil days' -> days = days'.
Proof.
  unfold civil.
  set (z := days + 719468). set (z' := days' + 719468).
  assert (Hb : 0 <= z mod 146097 < 146097) by (apply Z.mod_pos_bound; lia).
  assert (Hb' : 0 <= z' mod 146097 < 146097) by (apply Z.mod_pos_bound; lia).
  pose proof (all_below_spec _ _ era_back_all _ Hb) as H.
  pose proof (all_below_spec _ _ era_back_all _ Hb') as H'.
  unfold era_back in H, H'.
  pose proof (Z.div_mod z 146097 ltac:(lia)) as Hz.
  pose proof (Z.div_mod z' 146097 ltac:(lia)) as Hz'.
  destruct (civil_of_era (z mod 146097)) as [[y m] d].
  destruct (civil_of_era (z' mod 146097)) as [[y' m'] d'].
  intros [= Hy <- <-].
  apply andb_prop in H as [H He]. apply andb_prop in H as [H0 H399].
  apply andb_prop in H' as [H' He']. apply andb_prop in H' as [H0' H399'].
  apply Z.eqb_eq in He, He'. apply Z.leb_le in H0, H399, H0', H399'.
  assert (Hera : z / 146097 = z' / 146097) by lia.
  assert (Hyy : y = y') by lia. subst y'.
  assert (z mod 146097 = z' mod 146097) by congruence.
  assert (z = z') by lia. subst z z'. lia.
Qed.

(** In the years 0 to 9999, two times have the same timestamp only when
    they fall in the same second. *)
Lemma Format_inj zone t t' :
  year_0000 <= t / Second + zone < year_10000 ->
  year_0000 <= t' / Second + zone < year_10000 ->
  Format zone t = Format zone t' -> t / Second = t' / Second.
Proof.
  unfold year_0000, year_10000. intros Hr Hr'. unfold Format.
  set (secs := t / Second + zone) in *. set (secs' := t' / Second + zone) in *.
  assert (Hdays : -719528 <= secs / 86400 < 2932897).
  { split; [apply Z.div_le_lower_bound | apply Z.div_lt_upper_bound]; lia. }
  assert (Hdays' : -719528 <= secs' / 86400 < 2932897).
  { split; [apply Z.div_le_lower_bound | apply Z.div_lt_upper_bound]; lia. }
  pose proof (civil_bounds _ Hdays) as Hc.
  pose proof (civil_bounds _ Hdays') as Hc'.
  pose proof (civil_inj (secs / 86400) (secs' / 86400)) as Hinj.
  destruct (civil (secs / 86400)) as [[y m] d].
  destruct (civil (secs' / 86400)) as [[y' m'] d'].
  destruct Hc as (Hy & Hm & Hd). destruct Hc' as (Hy' & Hm' & Hd').
  assert (Hrem : 0 <= secs mod 86400 < 86400) by (apply Z.mod_pos_bound; lia).
  assert (Hrem' : 0 <= secs' mod 86400 < 86400) by (apply Z.mod_pos_bound; lia).
  set (r := secs mod 86400) in *. set (r' := secs' mod 86400) in *.
  assert (Hfields : forall x, 0 <= x < 86400 ->
            0 <= x / 3600 < 100 /\ 0 <= x mod 3600 / 60 < 100 /\
            0 <= x mod 60 < 100).
  { intros x Hx. pose proof (Z.mod_pos_bound x 3600 ltac:(lia)).
    pose proof (Z.mod_pos_bound x 60 ltac:(lia)).
    repeat split; try lia;
      try (apply Z.div_pos; lia); apply Z.div_lt_upper_bound; lia. }
  destruct (Hfields r Hrem) as (Hh & Hn & Hs).
  destruct (Hfields r' Hrem') as (Hh' & Hn' & Hs').
  pose proof (appendInt_4_inj y y' Hy Hy') as Iy.
  pose proof (appendInt_2_inj m m' ltac:(lia) ltac:(lia)) as Im.
  pose proof (appendInt_2_inj d d' ltac:(lia) ltac:(lia)) as Id.
  pose proof (appendInt_2_inj _ _ Hh Hh') as Ih.
  pose proof (appendInt_2_inj _ _ Hn Hn') as In'.
  pose proof (appendInt_2_inj _ _ Hs Hs') as Is.
  destruct (four_digits y Hy) as (? & ? & ? & ? & Ey & _).
  destruct (four_digits y' Hy') as (? & ? & ? & ? & Ey' & _).
  destruct (two_digits m ltac:(lia)) as (? & ? & Em & _).
  destruct (two_digits m' ltac:(lia)) as (? & ? & Em' & _).
  destruct (two_digits d ltac:(lia)) as (? & ? & Ed & _).
  destruct (two_digits d' ltac:(lia)) as (? & ? & Ed' & _).
  destruct (two_digits _ Hh) as (? & ? & Eh & _).
  destruct (two_digits _ Hh') as (? & ? & Eh' & _).
  destruct (two_digits _ Hn) as (? & ? & En & _).
  destruct (two_digits _ Hn') as (? & ? & En' & _).
  destruct (two_digits _ Hs) as (? & ? & Es & _).
  destruct (two_digits _ Hs') as (? & ? & Es' & _).
  rewrite Ey, Ey', Em, Em', Ed, Ed', Eh, Eh', En, En', Es, Es' in *.
  intros Heq.
  apply (f_equal list_ascii_of_string) in Heq.
  rewrite !list_ascii_of_string_of_list_ascii in Heq. cbn in Heq.
  injection Heq as -> -> -> -> -> -> -> -> -> -> -> -> -> ->.
  specialize (Iy eq_refl). specialize (Im eq_refl). specialize (Id eq_refl).
  specialize (Ih eq_refl). specialize (In' eq_refl). specialize (Is eq_refl).
  subst y' m' d'. specialize (Hinj eq_refl).
  assert (Hrr : r = r').
  { pose proof (Z.div_mod r 3600 ltac:(lia)).
    pose proof (Z.div_mod r' 3600 ltac:(lia)).
    pose proof (Z.div_mod (r mod 3600) 60 ltac:(lia)).
    pose proof (Z.div_mod (r' mod 3600) 60 ltac:(lia)).
    assert (E1 : (r mod 3600) mod 60 = r mod 60).
    { apply Z.mod_mod_divide. exists 60. reflexivity. }
    assert (E2 : (r' mod 3600) mod 60 = r' mod 60).
    { apply Z.mod_mod_divide. exists 60. reflexivity. }
    lia. }
  pose proof (Z.div_mod secs 86400 ltac:(lia)).
  pose proof (Z.div_mod secs' 86400 ltac:(lia)).
  assert (secs = secs') by (unfold r, r' in Hrr; lia).
  unfold secs, secs' in *. lia.
Qed.

Lemma append_inv_head (a b c : string) : a +:+ b = a +:+ c -> b = c.
Proof.
  induction a as [|x a IH]; [auto |].
  rewrite !append_cons. intros [= H]. auto.
Qed.

Lemma append_inv_tail (b c e : string) : b +:+ e = c +:+ e -> b = c.
Proof.
  intros H. apply (f_equal list_ascii_of_string) in H.
  rewrite !list_ascii_of_string_app in H. apply app_inv_tail in H.
  rewrite <- (string_of_list_ascii_of_string b),
          <- (string_of_list_ascii_of_string c), H. reflexivity.
Qed.

(** X5. The rotated name tells the second of the rotation, and no more.
    In one zone, two rotations of the same second get the same name, and
    in the years 0 to 9999 two rotations get the same name only when they
    are of the same second. When the name is the same, the rename of the
    later rotation replaces the file under that name: the backup of the
    earlier rotation is gone, the log of the later one is in its place. *)
Theorem rotated_names_by_the_second lr w w' :
  zone w' = zone w ->
  (clock w' / Second = clock w / Second ->
   rotatedName lr w' = rotatedName lr w) /\
  (year_0000 <= clock w / Second + zone w < year_10000 ->
   year_0000 <= clock w' / Second + zone w < year_10000 ->
   rotatedName lr w' = rotatedName lr w ->
   clock w' / Second = clock w / Second) /\
  (rotatedName lr w' = rotatedName lr w ->
   forall w2 w3,
     Rename (filePath lr) (rotatedName lr w') w2 = (None, w3) ->
     fs w3 !! key (rotatedName lr w) = fs w2 !! key (filePath lr)).
Proof.
  intros Hz. unfold rotatedName, generateRotatedName. cbn [Now fst zone].
  rewrite Hz. split; [| split].
  - intros Hs. unfold Format. rewrite Hs. reflexivity.
  - intros Hr Hr' Heq.
    apply append_inv_head, append_inv_head, append_inv_tail in Heq.
    exact (Format_inj (zone w) _ _ Hr' Hr Heq).
  - intros Heq w2 w3. rewrite Heq. unfold Rename. pop_next.
    destruct (failure o); [intros [=] |].
    destruct (fs w2 !! key (filePath lr)) as [f|]; [| intros [=]].
    intros [= <-]. cbn. apply lookup_insert_eq.
Qed.

End NamesBySecond.

Lemma rotated_names_by_the_second_witness :
  zone app_world = zone Sample.quiet /\
  (clock app_world / Second = clock Sample.quiet / Second ->
   rotatedName app_rotator app_world = rotatedName app_rotator Sample.quiet) /\
  (year_0000 <= clock Sample.quiet / Second + zone Sample.quiet < year_10000 ->
   year_0000 <= clock app_world / Second + zone Sample.quiet < year_10000 ->
   rotatedName app_rotator app_world = rotatedName app_rotator Sample.quiet ->
   clock app_world / Second = clock Sample.quiet / Second) /\
  (rotatedName app_rotator app_world = rotatedName app_rotator Sample.quiet ->
   forall w2 w3,
     Rename (filePath app_rotator) (rotatedName app_rotator app_world) w2
       = (None, w3) ->
     fs w3 !! key (rotatedName app_rotator Sample.quiet)
       = fs w2 !! key (filePath app_rotator)).
Proof.
  split; [reflexivity |].
  exact (rotated_names_by_the_second app_rotator Sample.quiet app_world eq_refl).
Defined.

(** ** What the cleanup and the compression leave alone *)

Section Frames.
Context {RT : Runtime}.

Lemma only_removes_refl l w : only_removes l w w.
Proof. exists []. split; [apply extends_refl | auto]. Qed.

Lemma only_removes_trans l w1 w2 w3 :
  only_removes l w1 w2 -> only_removes l w2 w3 -> only_removes l w1 w3.
Proof.
  intros (e1 & H1 & F1) (e2 & H2 & F2). exists (e1 ++ e2).
  split; [eapply extends_trans; eassumption |].
  intros k. destruct (F2 k) as [E2|(N2 & m & Hm & He & Hk)].
  - destruct (F1 k) as [E1|(N1 & m & Hm & He & Hk)].
    + left. congruence.
    + right. split; [congruence |]. exists m. rewrite elem_of_app. auto.
  - right. split; [exact N2 |]. exists m. rewrite elem_of_app. auto.
Qed.

Lemma only_removes_weaken l l' w w' :
  (forall m, m ∈ l -> m ∈ l') -> only_removes l w w' -> only_removes l' w w'.
Proof.
  intros Hl (evs & He & F). exists evs. split; [exact He |].
  intros k. destruct (F k) as [E|(N & m & Hm & Hev & Hk)]; [auto |].
  right. split; [exact N |]. exists m. auto.
Qed.

Lemma Remove_only_removes p w : only_removes [p] w (snd (Remove p w)).
Proof.
  exists [EvRemove p]. split; [apply Remove_trace |].
  unfold Remove. pop_next. intros k.
  destruct (failure o); cbn; [auto |].
  destruct (fs w !! key p) eqn:E; cbn; [| auto].
  destruct (decide (k = key p)) as [->|Hne].
  - right. rewrite lookup_delete_eq. split; [reflexivity |].
    exists p. repeat split; left.
  - left. rewrite lookup_delete_ne by congruence. reflexivity.
Qed.

Lemma stat_matches_spec matches : forall w,
  fs (snd (stat_matches matches w)) = fs w /\
  clock (snd (stat_matches matches w)) = clock w /\
  (exists evs, extends w (snd (stat_matches matches w)) evs /\
               count is_remove evs = O) /\
  forall f, f ∈ fst (stat_matches matches w) -> path f ∈ matches.
Proof.
  induction matches as [|m rest IH]; intros w; cbn.
  - split; [reflexivity |]. split; [reflexivity |]. split.
    + exists []. split; [apply extends_refl | reflexivity].
    + intros f Hf. inversion Hf.
  - pose proof (Stat_fs m w) as Hfs. pose proof (Stat_trace m w) as Htr.
    assert (Hck : clock (snd (Stat m w)) = clock w).
    { unfold Stat. pop_next. destruct (failure o); [reflexivity |].
      destruct (fs w !! key m); reflexivity. }
    destruct (Stat m w) as [r w1]. cbn [snd] in *.
    destruct (IH w1) as (Hfs2 & Hck2 & (evs & He & Hc) & Hp).
    destruct (stat_matches rest w1) as [files w2]. cbn [fst snd] in *.
    assert (Hext : exists evs0, extends w w2 evs0 /\ count is_remove evs0 = O).
    { exists ([EvStat m] ++ evs). split.
      - eapply extends_trans; [exact Htr | exact He].
      - rewrite count_app, Hc. reflexivity. }
    destruct r as [e|st]; cbn [fst snd].
    + split; [congruence |]. split; [congruence |]. split; [exact Hext |].
      intros f Hf. right. apply Hp. exact Hf.
    + split; [congruence |]. split; [congruence |]. split; [exact Hext |].
      intros f Hf. apply elem_of_cons in Hf as [->|Hf]; [left | right; auto].
Qed.

Lemma remove_aged_only_removes cutoff files : forall w,
  only_removes (path <$> files) w (remove_aged cutoff files w).
Proof.
  induction files as [|f rest IH]; intros w; cbn.
  - apply only_removes_refl.
  - destruct (Before _ _).
    + eapply only_removes_trans.
      * eapply only_removes_weaken; [| apply Remove_only_removes].
        intros m Hm. apply list_elem_of_singleton in Hm as ->. left.
      * eapply only_removes_weaken; [| apply IH]. intros m Hm. right. exact Hm.
    + eapply only_removes_weaken; [| apply IH]. intros m Hm. right. exact Hm.
Qed.

Lemma remove_excess_only_removes toRemove files : forall i w,
  only_removes (path <$> files) w (remove_excess toRemove i files w).
Proof.
  induction files as [|f rest IH]; intros i w; cbn.
  - apply only_removes_refl.
  - destruct (i <? toRemove); [| apply only_removes_refl].
    eapply only_removes_trans.
    + eapply only_removes_weaken; [| apply Remove_only_removes].
      intros m Hm. apply list_elem_of_singleton in Hm as ->. left.
    + eapply only_removes_weaken; [| apply IH]. intros m Hm. right. exact Hm.
Qed.

(** [cleanup] only removes, and only names whose stat succeeded. *)
Lemma cleanup_only_removes_statted lr w :
  only_removes
    (path <$> fst (stat_matches (matching (pattern lr) (fs w))
                                (emit (EvGlob (pattern lr)) w)))
    w (snd (cleanup lr w)).
Proof.
  unfold cleanup.
  destruct (Glob_cases (pattern lr) w) as [[e ->]| ->].
  { exists [EvGlob (pattern lr)]. split; [reflexivity | auto]. }
  cbn iota beta.
  set (w1 := emit (EvGlob (pattern lr)) w).
  set (matches := matching (pattern lr) (fs w)).
  destruct (stat_matches_spec matches w1) as (Hfs & Hck & (evs & He & _) & Hp).
  destruct (stat_matches matches w1) as [files w2]. cbn [fst snd] in *.
  cbn [Now]. set (w3 := mkWorld _ _ _ _ _ _ _ _).
  assert (H13 : only_removes (path <$> files) w w3).
  { exists ([EvGlob (pattern lr)] ++ evs). split.
    - apply (extends_trans w w1 w3); [reflexivity | exact He].
    - intros k. left. cbn. rewrite Hfs. reflexivity. }
  assert (Hsub : forall m, m ∈ path <$> sortSlice files -> m ∈ path <$> files).
  { intros m Hm. rewrite (sortSlice_perm files) in Hm. exact Hm. }
  cbn [snd]. eapply only_removes_trans; [exact H13 |].
  eapply only_removes_weaken; [exact Hsub |].
  destruct (maxBackups lr <? _).
  - eapply only_removes_trans;
      [apply remove_aged_only_removes | apply remove_excess_only_removes].
  - apply remove_aged_only_removes.
Qed.

(** [cleanup] only removes, and only names that the listing returned. *)
Lemma cleanup_only_removes lr w :
  only_removes (matching (pattern lr) (fs w)) w (snd (cleanup lr w)).
Proof.
  eapply only_removes_weaken; [| apply cleanup_only_removes_statted].
  intros m Hm. apply list_elem_of_fmap in Hm as (f & -> & Hf).
  eapply stat_matches_spec. exact Hf.
Qed.

(** X6. Whatever fails, [cleanup] only removes: it leaves the open
    descriptors alone, and every path holds the file it held, or nothing
    after a call of [os.Remove] on a path of the disk that matches the
    pattern. *)
Theorem cleanup_removes_listed_only lr w :
  let w' := snd (cleanup lr w) in
  opened w' = opened w /\
  forall k,
    fs w' !! k = fs w !! k \/
    (fs w' !! k = None /\
     exists m, Match (pattern lr) m = inr true /\ is_Some (fs w !! m) /\
               key m = k /\ EvRemove m ∈ since w w').
Proof.
  intros w'. split; [apply cleanup_opened |].
  destruct (cleanup_only_removes lr w) as (evs & He & F). fold w' in He, F.
  intros k. destruct (F k) as [E|(N & m & Hm & Hev & Hk)]; [left; exact E |].
  right. split; [exact N |]. exists m.
  apply matching_spec in Hm as [Hmatch Hd]. apply elem_of_dom in Hd.
  rewrite (since_app w w' evs He). auto.
Qed.

(** [compressFile] leaves the clock alone and touches two paths at
    most: the file it is given and its [.gz]; when it fails, the file it
    was given is as it was. *)
Lemma compressFile_frame filename w r w' :
  compressFile filename w = (r, w') ->
  clock w' = clock w /\
  (forall k, k <> key filename -> k <> key (filename +:+ ".gz") ->
     fs w' !! k = fs w !! k) /\
  (is_Some r -> fs w' !! key filename = fs w !! key filename).
Proof.
  unfold compressFile. destruct (HasSuffix filename ".gz").
  { intros [= <- <-]. auto. }
  destruct (Open filename w) as [[e|source] w1] eqn:Ho;
    apply Open_spec in Ho as (Hf1 & Hc1 & Hn1).
  { intros [= <- <-]. rewrite Hf1. auto. }
  destruct (Create (filename +:+ ".gz") w1) as [[e|compressed] w2] eqn:Hcr;
    apply Create_spec in Hcr as (Hc2 & Hf2 & Hn2).
  { intros [= <- <-]. cbn. split; [congruence |].
    split; [intros k _ Hk | intros _]; rewrite Hf2, Hf1; auto.
    apply not_eq_sym, key_gz_fresh. }
  destruct (Copy_spec gzip flushed compressed source w2) as (Hc3 & Hf3).
  rewrite Hn2 in Hf3.
  destruct (Copy gzip flushed compressed source w2) as [[e|held] w3].
  { cbn [snd] in *. intros [= <- <-]. cbn. split; [congruence |].
    split; [intros k _ Hk | intros _]; rewrite Hf3, Hf2, Hf1; auto;
      apply not_eq_sym, key_gz_fresh. }
  cbn [snd] in *.
  destruct (Remove filename w3) as [x w4] eqn:Hr.
  apply Remove_spec in Hr as (Hc4 & Hf4 & H4).
  destruct (FWrite compressed held w4) as [[n err] w5] eqn:Hw.
  apply FWrite_spec in Hw as (Hc5 & _ & _ & _ & Hf5 & _).
  rewrite Hn2 in Hf5.
  intros [= <- <-]. cbn. split; [congruence |]. split.
  - intros k Hk Hk'. rewrite Hf5, Hf4, Hf3, Hf2, Hf1; auto.
  - intros [e ->]. rewrite Hf5, H4, Hf3, Hf2, Hf1; auto;
      apply not_eq_sym, key_gz_fresh.
Qed.

(** X7. A compression that fails loses nothing: the file it was given
    is as it was, the only path that can have changed is that of the
    compressed file, and no descriptor stays open. *)
Theorem compressFile_failure_keeps_source filename w e w' :
  compressFile filename w = (Some e, w') ->
  fs w' !! key filename = fs w !! key filename /\
  (forall k, k <> key (filename +:+ ".gz") -> fs w' !! k = fs w !! k) /\
  (forall d, d ∈ opened w' -> d ∈ opened w).
Proof.
  intros H. pose proof (compressFile_opened filename w) as Hop.
  rewrite H in Hop. cbn [snd] in Hop.
  apply compressFile_frame in H as (_ & Hk & Hsrc).
  specialize (Hsrc ltac:(eauto)).
  split; [exact Hsrc |]. split; [| intros d Hd; apply Hop; exact Hd].
  intros k Hne. destruct (decide (k = key filename)) as [->|Hne'];
    [exact Hsrc | apply Hk; assumption].
Qed.

End Frames.

Lemma compressFile_failure_keeps_source_witness :
  compressFile "app-1970-01-01-000000.log" no_space =
    (Some (PathError "open" "app-1970-01-01-000000.log.gz"
             (SyscallError ENOSPC)),
     snd (compressFile "app-1970-01-01-000000.log" no_space)) /\
  fs (snd (compressFile "app-1970-01-01-000000.log" no_space))
    !! key "app-1970-01-01-000000.log"
  = fs no_space !! key "app-1970-01-01-000000.log" /\
  (forall k, k <> key ("app-1970-01-01-000000.log" +:+ ".gz") ->
     fs (snd (compressFile "app-1970-01-01-000000.log" no_space)) !! k
     = fs no_space !! k) /\
  (forall d,
     d ∈ opened (snd (compressFile "app-1970-01-01-000000.log" no_space)) ->
     d ∈ opened no_space).
Proof.
  assert (H : compressFile "app-1970-01-01-000000.log" no_space =
    (Some (PathError "open" "app-1970-01-01-000000.log.gz"
             (SyscallError ENOSPC)),
     snd (compressFile "app-1970-01-01-000000.log" no_space)))
    by (vm_compute; reflexivity).
  split; [exact H |].
  exact (compressFile_failure_keeps_source _ no_space _ _ H).
Defined.

(** ** A backup that cannot be statted *)

Section Unreadable.
Context {RT : Runtime}.

(** When the stat of the match of index [i] fails, the entries are those
    of other matches. *)
Lemma stat_matches_skip e matches : forall (i : nat) w,
  (i < length matches)%nat ->
  script w = repeat Works i ++ [Fails e] ->
  forall f, f ∈ fst (stat_matches matches w) -> path f ∈ delete i matches.
Proof.
  induction matches as [|x rest IH]; intros i w Hi Hs f; cbn [stat_matches].
  { cbn in Hi. lia. }
  unfold Stat at 1. unfold pop. cbn [script emit]. rewrite Hs.
  destruct i as [|j]; cbn [repeat app failure].
  - match goal with |- context [stat_matches rest ?x] =>
      pose proof (stat_matches_spec rest x) as (_ & _ & _ & Hp);
      destruct (stat_matches rest x) as [files w2] end.
    cbn. intros Hf. apply Hp. exact Hf.
  - cbn [fs set_script emit]. cbn in Hi.
    assert (Hgoal : forall w1 : World,
              script w1 = repeat Works j ++ [Fails e] ->
              forall r : error + FileInfo,
              f ∈ fst (let '(files, w0) := stat_matches rest w1 in
                       match r with
                       | inl _ => (files, w0)
                       | inr stat => (mkEntry x (ModTime stat) :: files, w0)
                       end) ->
              path f ∈ x :: delete j rest).
    { intros w1 Hs1 r. pose proof (IH j w1 ltac:(lia) Hs1) as Hin.
      destruct (stat_matches rest w1) as [files w2].
      destruct r; cbn; intros Hf.
      - right. apply Hin. exact Hf.
      - apply elem_of_cons in Hf as [->|Hf]; [left | right; apply Hin; exact Hf]. }
    set (w1 := set_script (repeat Works j ++ [Fails e]) (emit (EvStat x) w)).
    destruct (fs w !! key x) as [g|].
    + exact (Hgoal w1 eq_refl (inr (info g))).
    + exact (Hgoal w1 eq_refl
               (inl (PathError "stat" x (SyscallError ENOENT)))).
Qed.

Lemma NoDup_delete_index (l : list string) : forall (i : nat) x,
  NoDup l -> l !! i = Some x -> x ∉ delete i l.
Proof.
  induction l as [|a l IH]; intros i x Hnd Hi; [discriminate |].
  apply NoDup_cons in Hnd as [Ha Hnd].
  destruct i as [|j]; cbn in *.
  - injection Hi as <-. exact Ha.
  - intros Hin. apply elem_of_cons in Hin as [->|Hin].
    + apply Ha. eapply list_elem_of_lookup_2. exact Hi.
    + exact (IH j x Hnd Hi Hin).
Qed.

Lemma delete_index_subset (l : list string) : forall (i : nat) x,
  x ∈ delete i l -> x ∈ l.
Proof.
  induction l as [|a l IH]; intros i x Hx; [exact Hx |].
  destruct i as [|j]; cbn in Hx; [right; exact Hx |].
  apply elem_of_cons in Hx as [->|Hx]; [left | right; eauto].
Qed.

(** X8. A backup that cannot be statted is skipped. When the stat of one
    of the listed files fails and nothing else does, the cleanup still
    returns no error, and that file is as it was, however old it is and
    however many backups there are. *)
Theorem unreadable_backup_is_skipped lr w matches (i : nat) m e :
  fst (Glob (pattern lr) w) = inr matches ->
  (forall x, x ∈ matches -> key x = x) ->
  matches !! i = Some m ->
  script w = repeat Works i ++ [Fails e] ->
  fst (cleanup lr w) = None /\
  fs (snd (cleanup lr w)) !! m = fs w !! m.
Proof.
  intros Hglob Hclean Hi Hs.
  apply Glob_inr in Hglob as [Hglob Hm].
  split.
  - unfold cleanup. rewrite Hglob. cbn iota beta.
    destruct (stat_matches _ _) as [files w2]. cbn.
    destruct (Now w2) as [now w3]. reflexivity.
  - destruct (cleanup_only_removes_statted lr w) as (evs & _ & F).
    destruct (F m) as [E|(_ & m' & Hm' & _ & Hk)]; [exact E |].
    exfalso. rewrite Hm in Hm'.
    apply list_elem_of_fmap in Hm' as (f & -> & Hf).
    apply (stat_matches_skip e matches i) in Hf;
      [| eapply lookup_lt_Some; exact Hi | exact Hs].
    assert (Hin : path f ∈ matches) by (eapply delete_index_subset; exact Hf).
    rewrite (Hclean _ Hin) in Hk. rewrite Hk in Hf.
    revert Hf. apply NoDup_delete_index; [| exact Hi].
    rewrite <- Hm. apply matching_NoDup.
Qed.

End Unreadable.

Lemma unreadable_backup_is_skipped_witness :
  fst (Glob (pattern strict_rotator) unreadable) =
    inr ["app-1970-01-01-000001.log"; "app-1970-01-01-000002.log";
         "app-1970-01-01-000003.log.gz"; "app-1970-01-01-000004.log"] /\
  ["app-1970-01-01-000001.log"; "app-1970-01-01-000002.log";
   "app-1970-01-01-000003.log.gz"; "app-1970-01-01-000004.log"] !! 1%nat
    = Some "app-1970-01-01-000002.log" /\
  script unreadable = repeat Works 1 ++ [Fails EACCES] /\
  fst (cleanup strict_rotator unreadable) = None /\
  fs (snd (cleanup strict_rotator unreadable)) !! "app-1970-01-01-000002.log"
    = fs unreadable !! "app-1970-01-01-000002.log".
Proof.
  assert (Hglob : fst (Glob (pattern strict_rotator) unreadable) =
    inr ["app-1970-01-01-000001.log"; "app-1970-01-01-000002.log";
         "app-1970-01-01-000003.log.gz"; "app-1970-01-01-000004.log"])
    by (vm_compute; reflexivity).
  split; [exact Hglob |]. split; [reflexivity |]. split; [reflexivity |].
  refine (unreadable_backup_is_skipped strict_rotator unreadable _ 1 _ EACCES
            Hglob _ eq_refl eq_refl).
  intros x Hx.
  repeat (apply elem_of_cons in Hx as [->|Hx]; [vm_compute; reflexivity |]).
  inversion Hx.
Defined.

(** ** A rotation, step by step *)

Section Rotation.
Context {RT : Runtime}.

Lemma rotatedName_clock lr w w1 :
  clock w1 = clock w -> zone w1 = zone w ->
  rotatedName lr w1 = rotatedName lr w.
Proof.
  intros Hc Hz. unfold rotatedName, generateRotatedName.
  cbn [Now fst zone]. rewrite Hc, Hz. reflexivity.
Qed.

(** A successful rotation of a rotator that holds a handle, step by
    step. *)
Lemma rotate_steps lr w h lr' w' :
  file lr = Some h -> rotate lr w = (None, lr', w') ->
  exists f w3 w4 w5,
    fs w !! key (filePath lr) = Some f /\
    fs w3 = <[key (rotatedName lr w) := f]> (delete (key (filePath lr)) (fs w)) /\
    (exists evs, extends w w3 evs) /\
    (if compress lr then compressFile (rotatedName lr w) w3 = (None, w4)
     else w4 = w3) /\
    cleanup lr w4 = (None, w5) /\
    openFile lr w5 = (None, lr', w').
Proof.
  intros Hf. rewrite (rotate_eq lr w h Hf).
  destruct (FClose_frame h w) as (Hfs1 & Hc1 & _).
  pose proof (FClose_zone h w) as Hz1. pose proof (FClose_trace h w) as Ht1.
  destruct (FClose h w) as [[e|] w1]; [intros [=] |]. cbn [snd] in *.
  rewrite (rotatedName_clock lr w w1 Hc1 Hz1).
  pose proof (Rename_trace (filePath lr) (rotatedName lr w) (named lr w1)) as Ht3.
  unfold Rename in *.
  destruct (pop_spec (emit (EvRename (filePath lr) (rotatedName lr w)) (named lr w1)))
    as (o & s & Hpop).
  rewrite Hpop in *. cbn [snd] in Ht3.
  destruct (failure o); [intros [=] |].
  change (fs (set_script s (emit _ (named lr w1)))) with (fs w1) in *.
  rewrite Hfs1 in *.
  destruct (fs w !! key (filePath lr)) as [f|] eqn:E; [| intros [=]].
  set (w3 := set_fs _ _) in *.
  intros H. exists f, w3.
  assert (He3 : exists evs, extends w w3 evs).
  { eexists. eapply extends_trans; [exact Ht1 |].
    unfold extends. cbn in Ht3. cbn. exact Ht3. }
  destruct (compress lr).
  - destruct (compressFile (rotatedName lr w) w3) as [[e|] w4] eqn:Hcomp;
      [discriminate |].
    destruct (cleanup lr w4) as [[e|] w5] eqn:Hcl; [discriminate |].
    exists w4, w5. repeat split; auto.
  - destruct (cleanup lr w3) as [[e|] w5] eqn:Hcl; [discriminate |].
    exists w3, w5. repeat split; auto.
Qed.

Lemma cleanup_keeps_absent lr w k :
  fs w !! k = None -> fs (snd (cleanup lr w)) !! k = None.
Proof.
  intros Hk. destruct (cleanup_only_removes lr w) as (evs & _ & F).
  destruct (F k) as [E|[E _]]; congruence.
Qed.

(** A rotation that succeeds leaves the rotator in step with the
    disk. *)
Lemma rotate_in_sync lr w lr' w' :
  rotate lr w = (None, lr', w') ->
  in_sync lr' w' /\ same_settings lr lr' /\ rotateTime lr' = rotateTime lr.
Proof.
  intros H. destruct (file lr) as [h|] eqn:Hf.
  - destruct (rotate_steps lr w h lr' w' Hf H) as (f & w3 & w4 & w5 & _ & _ & _ & _ & _ & Ho).
    apply openFile_in_sync in Ho. exact Ho.
  - unfold rotate in H. rewrite Hf in H. apply openFile_in_sync in H. exact H.
Qed.

(** After a successful rotation of a rotator that held a handle, the
    active file is new and empty and the tracked size is 0. *)
Lemma rotate_fresh_file lr w h lr' w' :
  file lr = Some h -> rotate lr w = (None, lr', w') ->
  is_Some (fs w !! key (filePath lr)) /\
  fileSize lr' = 0 /\
  exists t, fs w' !! key (filePath lr) = Some (mkFile [] t).
Proof.
  intros Hf H.
  destruct (rotate_steps lr w h lr' w' Hf H)
    as (f & w3 & w4 & w5 & Hold & Hfs3 & _ & Hcomp & Hcl & Ho).
  destruct (rotatedName_fresh lr w) as [Hfresh Hfreshgz].
  split; [eauto |].
  assert (H3 : fs w3 !! key (filePath lr) = None).
  { rewrite Hfs3, lookup_insert_ne by exact Hfresh. apply lookup_delete_eq. }
  assert (H4 : fs w4 !! key (filePath lr) = None).
  { destruct (compress lr); [| subst w4; exact H3].
    apply compressFile_frame in Hcomp as (_ & Hk & _).
    rewrite Hk; [exact H3 | |]; apply not_eq_sym; assumption. }
  assert (H5 : fs w5 !! key (filePath lr) = None).
  { pose proof (cleanup_keeps_absent lr w4 _ H4) as Hc. rewrite Hcl in Hc.
    exact Hc. }
  apply openFile_spec in Ho as (_ & _ & Hm & h' & f' & -> & _ & _ & Hf' & _).
  rewrite H5 in Hm. destruct Hm as [Hm|Hm]; [congruence |].
  rewrite Hm in Hf'. injection Hf' as <-. cbn. eauto.
Qed.

(** X9. A rotation that succeeds leaves the rotator in step with the
    disk: it holds an open handle on the active file, and its tracked
    size is the size of that file; its settings and its reference day
    are as they were. When the rotator held a handle before, the active
    file is a new, empty file and the tracked size is 0. *)
Theorem successful_rotation lr w lr' w' :
  Rotate lr w = (None, lr', w') ->
  in_sync lr' w' /\ same_settings lr lr' /\ rotateTime lr' = rotateTime lr /\
  (is_Some (file lr) ->
   is_Some (fs w !! key (filePath lr)) /\ fileSize lr' = 0 /\
   exists t, fs w' !! key (filePath lr) = Some (mkFile [] t)).
Proof.
  unfold Rotate. intros H.
  destruct (rotate_in_sync lr w lr' w' H) as (Hs & Hset & Ht).
  split; [exact Hs |]. split; [exact Hset |]. split; [exact Ht |].
  intros [h Hh]. exact (rotate_fresh_file lr w h lr' w' Hh H).
Qed.

(** X10. Without compression, a successful rotation moves the log: the
    active file is new and empty, the old log is under the rotated name,
    and every other path holds what it held, unless the retention pass
    called [os.Remove] on it. *)
Theorem rotation_moves_the_log lr w h lr' w' :
  file lr = Some h -> compress lr = false ->
  Rotate lr w = (None, lr', w') ->
  let active := key (filePath lr) in
  let rotated := key (rotatedName lr w) in
  exists f t,
    fs w !! active = Some f /\
    fs w' !! active = Some (mkFile [] t) /\
    rotated <> active /\
    forall k, k <> active ->
      fs w' !! k = (if decide (k = rotated) then Some f else fs w !! k) \/
      (fs w' !! k = None /\
       exists m, EvRemove m ∈ since w w' /\ key m = k).
Proof.
  intros Hf Hz H active rotated. subst active rotated. unfold Rotate in H.
  destruct (rotate_fresh_file lr w h lr' w' Hf H) as (_ & _ & t & Ht).
  destruct (rotate_steps lr w h lr' w' Hf H)
    as (f & w3 & w4 & w5 & Hold & Hfs3 & (e3 & He3) & Hcomp & Hcl & Ho).
  rewrite Hz in Hcomp. subst w4.
  destruct (rotatedName_fresh lr w) as [Hfresh _].
  exists f, t. split; [exact Hold |]. split; [exact Ht |].
  split; [exact Hfresh |].
  destruct (cleanup_only_removes lr w3) as (e5 & He5 & F).
  rewrite Hcl in He5, F. cbn [snd] in He5, F.
  destruct (openFile_extends lr w5) as (e6 & He6 & _).
  rewrite Ho in He6. cbn [snd] in He6.
  assert (Hsince : since w w' = e3 ++ e5 ++ e6).
  { apply since_app. unfold extends in *. rewrite He6, He5, He3.
    rewrite <- !app_assoc. reflexivity. }
  apply openFile_spec in Ho as (_ & Hframe & _).
  intros k Hk. rewrite (Hframe k Hk).
  destruct (F k) as [E|(N & m & _ & Hm & Hkm)].
  - left. rewrite E, Hfs3.
    destruct (decide (k = key (rotatedName lr w))) as [->|Hne].
    + apply lookup_insert_eq.
    + rewrite lookup_insert_ne by congruence.
      apply lookup_delete_ne. congruence.
  - right. split; [exact N |]. exists m. split; [| exact Hkm].
    rewrite Hsince, !elem_of_app. auto.
Qed.

Lemma rotate_failure_closed lr w h e lr' w' :
  file lr = Some h -> rotate lr w = (Some e, lr', w') ->
  lr' = lr /\ fd h ∉ opened w'.
Proof.
  intros Hf H.
  destruct (rotate_cases lr w _ _ _ H) as [[_ ->]|[[=] _]].
  split; [reflexivity |].
  rewrite (rotate_eq lr w h Hf) in H.
  pose proof (FClose_after h w) as H1.
  destruct (FClose h w) as [[e1|] w1]; cbn [snd] in H1.
  { injection H as <- <-. exact H1. }
  pose proof (Rename_opened (filePath lr) (rotatedName lr w1) (named lr w1)) as H3.
  destruct (Rename _ _ _) as [[e3|] w3]; cbn [snd] in H3.
  { injection H as <- <-. rewrite H3. exact H1. }
  assert (Hn3 : fd h ∉ opened w3) by (rewrite H3; exact H1).
  assert (H4 : forall r w4,
            (if compress lr then compressFile (rotatedName lr w1) w3
             else (None, w3)) = (r, w4) -> fd h ∉ opened w4).
  { intros r w4 Hc. destruct (compress lr).
    - pose proof (compressFile_opened (rotatedName lr w1) w3) as Hs.
      rewrite Hc in Hs. cbn in Hs. set_solver.
    - injection Hc as <- <-. exact Hn3. }
  destruct (if compress lr then _ else _) as [[e4|] w4] eqn:Hc;
    specialize (H4 _ _ eq_refl).
  { injection H as <- <-. exact H4. }
  pose proof (cleanup_opened lr w4) as H5.
  destruct (cleanup lr w4) as [[e5|] w5]; cbn [snd] in H5.
  { injection H as <- <-. rewrite H5. exact H4. }
  apply openFile_spec in H as (_ & _ & _ & _ & Hop & _).
  intros Hin. apply Hop in Hin. rewrite H5 in Hin. contradiction.
Qed.

(** X11. A rotation that fails on a rotator that holds a handle is final:
    the rotator is as it was, its descriptor is closed, and every [Write]
    made afterwards, whatever calls come in between, fails with "file
    already closed" and writes nothing. *)
Theorem failed_rotation_is_final lr w h e lr' w' cs p :
  file lr = Some h -> rotate lr w = (Some e, lr', w') ->
  lr' = lr /\ holds_closed lr w' /\
  let s := calls cs lr w' in
  exists err w2,
    Write (fst s) p (snd s) = ((O, Some err), fst s, w2) /\
    Is err ErrClosed = true /\ fs w2 = fs w'.
Proof.
  intros Hf H. destruct (rotate_failure_closed lr w h e lr' w' Hf H) as [-> Hc].
  assert (Hh : holds_closed lr w') by (exists h; auto).
  split; [reflexivity |]. split; [exact Hh |]. intros s. subst s.
  destruct (calls_closed cs lr w' Hh) as (w1 & -> & Hfs & Hop). cbn [fst snd].
  destruct (Write_closed lr p w1) as (err & w2 & -> & Herr & Hfs2 & _).
  { exists h. rewrite Hop. auto. }
  exists err, w2. repeat split; congruence.
Qed.

End Rotation.

Lemma successful_rotation_witness :
  Rotate app_rotator app_world =
    (None, snd (fst (Rotate app_rotator app_world)),
     snd (Rotate app_rotator app_world)) /\
  in_sync (snd (fst (Rotate app_rotator app_world)))
          (snd (Rotate app_rotator app_world)) /\
  same_settings app_rotator (snd (fst (Rotate app_rotator app_world))) /\
  rotateTime (snd (fst (Rotate app_rotator app_world)))
    = rotateTime app_rotator /\
  (is_Some (file app_rotator) ->
   is_Some (fs app_world !! key (filePath app_rotator)) /\
   fileSize (snd (fst (Rotate app_rotator app_world))) = 0 /\
   exists t, fs (snd (Rotate app_rotator app_world))
               !! key (filePath app_rotator) = Some (mkFile [] t)).
Proof.
  assert (H : Rotate app_rotator app_world =
    (None, snd (fst (Rotate app_rotator app_world)),
     snd (Rotate app_rotator app_world))) by (vm_compute; reflexivity).
  split; [exact H |].
  exact (successful_rotation app_rotator app_world _ _ H).
Defined.

Lemma rotation_moves_the_log_witness :
  file daily_rotator = Some (mkHandle 3 "app.log") /\
  compress daily_rotator = false /\
  Rotate daily_rotator next_day =
    (None, snd (fst (Rotate daily_rotator next_day)),
     snd (Rotate daily_rotator next_day)) /\
  let active := key (filePath daily_rotator) in
  let rotated := key (rotatedName daily_rotator next_day) in
  exists f t,
    fs next_day !! active = Some f /\
    fs (snd (Rotate daily_rotator next_day)) !! active = Some (mkFile [] t) /\
    rotated <> active /\
    forall k, k <> active ->
      fs (snd (Rotate daily_rotator next_day)) !! k
        = (if decide (k = rotated) then Some f else fs next_day !! k) \/
      (fs (snd (Rotate daily_rotator next_day)) !! k = None /\
       exists m, EvRemove m ∈ since next_day (snd (Rotate daily_rotator next_day))
                 /\ key m = k).
Proof.
  assert (H : Rotate daily_rotator next_day =
    (None, snd (fst (Rotate daily_rotator next_day)),
     snd (Rotate daily_rotator next_day))) by (vm_compute; reflexivity).
  split; [reflexivity |]. split; [reflexivity |]. split; [exact H |].
  exact (rotation_moves_the_log daily_rotator next_day _ _ _ eq_refl eq_refl H).
Defined.

Lemma failed_rotation_is_final_witness :
  file gz_rotator = Some (mkHandle 3 "app.log") /\
  rotate gz_rotator disk_full =
    (Some (Wrap "failed to compress log file"
             (PathError "open" "app-1970-01-01-000000.log.gz"
                (SyscallError ENOSPC))),
     gz_rotator, snd (rotate gz_rotator disk_full)) /\
  gz_rotator = gz_rotator /\
  holds_closed gz_rotator (snd (rotate gz_rotator disk_full)) /\
  let s := calls [CallRotate] gz_rotator (snd (rotate gz_rotator disk_full)) in
  exists err w2,
    Write (fst s) ten_bytes (snd s) = ((O, Some err), fst s, w2) /\
    Is err ErrClosed = true /\ fs w2 = fs (snd (rotate gz_rotator disk_full)).
Proof.
  assert (H : rotate gz_rotator disk_full =
    (Some (Wrap "failed to compress log file"
             (PathError "open" "app-1970-01-01-000000.log.gz"
                (SyscallError ENOSPC))),
     gz_rotator, snd (rotate gz_rotator disk_full)))
    by (vm_compute; reflexivity).
  split; [reflexivity |]. split; [exact H |].
  exact (failed_rotation_is_final gz_rotator disk_full _ _ _ _
           [CallRotate] ten_bytes eq_refl H).
Defined.

(** ** Writing *)

Section Writing.
Context {RT : Runtime}.

(** X12. A [Write] for which no rotation is due appends to the log file
    exactly the bytes it counts, the first [n] of the payload, and changes
    no other file; the tracked size grows only when no error is
    returned. *)
Theorem Write_appends lr p w h f :
  daily_due lr w = false -> size_due lr = false ->
  file lr = Some h -> fs w !! key (name h) = Some f ->
  exists n err lr' w',
    Write lr p w = ((n, err), lr', w') /\
    (n <= length p)%nat /\ (err = None -> n = length p) /\
    (exists f', fs w' !! key (name h) = Some f' /\
                data f' = data f ++ take n p) /\
    (forall k, k <> key (name h) -> fs w' !! k = fs w !! k) /\
    lr' = match err with
          | None => set_fileSize (wrap64 (fileSize lr + Z.of_nat n)) lr
          | Some _ => lr
          end.
Proof.
  intros Hd Hs Hf Hfile.
  rewrite (Write_no_rotation lr p w h Hd Hs Hf).
  destruct (FWrite h p (snd (Now w))) as [[n err] w2] eqn:Hw.
  apply FWrite_spec in Hw as (_ & _ & Hn & He & Hk & Hdata).
  change (fs (snd (Now w))) with (fs w) in *.
  exists n, err. destruct err as [e|]; eexists _, _;
    (split; [reflexivity |]); repeat split; auto; apply He; reflexivity.
Qed.

(** X13. A [Write] that returns no error has written the whole payload,
    and leaves the tracked size equal to the size of the log file when it
    was so before, as long as the file stays below 2^63 bytes. *)
Theorem Write_keeps_in_sync lr p w n lr' w' :
  in_sync lr w ->
  Write lr p w = ((n, None), lr', w') ->
  (forall f, fs w' !! key (filePath lr) = Some f ->
             Z.of_nat (length (data f)) < 2 ^ 63) ->
  n = length p /\ in_sync lr' w' /\ filePath lr' = filePath lr.
Proof.
  intros Hsync H Hbound. unfold Write in H.
  destruct (checkRotation lr w) as [[r lr1] w1] eqn:Hc.
  assert (H1 : r = None -> in_sync lr1 w1 /\ filePath lr1 = filePath lr).
  { intros ->. rewrite checkRotation_eq in Hc.
    destruct (daily_due lr w).
    - destruct (rotate lr (snd (Now w))) as [[[e|] lr2] w2] eqn:Hr;
        [discriminate |].
      injection Hc as <- <-.
      apply rotate_in_sync in Hr as ((h & f & Hh) & Hs & _).
      split; [exists h, f; exact Hh | symmetry; apply Hs].
    - destruct (size_due lr).
      + apply rotate_in_sync in Hc as (Hi & Hs & _).
        split; [exact Hi | symmetry; apply Hs].
      + injection Hc as <- <-. split; [exact Hsync | reflexivity]. }
  destruct r as [e|]; [discriminate |].
  destruct (H1 eq_refl) as [(h & f & Hh & Hn & Ho & Hf & Hsz) Hp].
  rewrite Hh in H.
  destruct (FWrite h p w1) as [[n1 err] w2] eqn:Hw.
  destruct err; [discriminate |]. injection H as <- <- <-.
  apply FWrite_spec in Hw as (_ & Hop & _ & He & _ & Hdata).
  destruct (He eq_refl) as [-> _]. rewrite Hn in Hdata.
  destruct (Hdata f Hf) as (f' & Hf' & Hd). rewrite firstn_all in Hd.
  split; [reflexivity |]. split; [| exact Hp].
  exists h, f'. cbn. rewrite Hop. repeat split; auto.
  rewrite Hp in Hf'. specialize (Hbound f' Hf').
  rewrite Hd, length_app in *. rewrite Hsz, wrap64_small; lia.
Qed.

(** X14. With a size ceiling of 0 or less, every [Write] rotates first, so
    that after a [Write] without error the log file holds the payload of
    that [Write] and nothing else. *)
Theorem nonpositive_ceiling_rotates_always lr p w n lr' w' :
  maxSize lr <= 0 -> in_sync lr w ->
  Write lr p w = ((n, None), lr', w') ->
  n = length p /\
  (exists t, fs w' !! key (filePath lr) = Some (mkFile p t)) /\
  fileSize lr' = wrap64 (Z.of_nat (length p)).
Proof.
  intros Hmax (h & f & Hh & _ & _ & _ & Hsz) H. unfold Write in H.
  destruct (checkRotation lr w) as [[r lr1] w1] eqn:Hc.
  assert (Hdue : size_due lr = true).
  { unfold size_due. apply Z.leb_le. lia. }
  assert (H1 : r = None ->
            exists h1 t, file lr1 = Some h1 /\ name h1 = filePath lr /\
              fileSize lr1 = 0 /\
              fs w1 !! key (filePath lr) = Some (mkFile [] t)).
  { intros ->. rewrite checkRotation_eq, Hdue in Hc.
    assert (Hrot : forall lr2 w2, rotate lr (snd (Now w)) = (None, lr2, w2) ->
              exists h1 t, file lr2 = Some h1 /\ name h1 = filePath lr /\
                fileSize lr2 = 0 /\
                fs w2 !! key (filePath lr) = Some (mkFile [] t)).
    { intros lr2 w2 Hr.
      destruct (rotate_fresh_file _ _ h _ _ Hh Hr) as (_ & Hz & t & Ht).
      apply rotate_in_sync in Hr as ((h1 & f1 & Hh1 & Hn1 & _) & Hs & _).
      exists h1, t. rewrite Hn1. destruct Hs as [<- _]. auto. }
    destruct (daily_due lr w).
    - destruct (rotate lr (snd (Now w))) as [[[e|] lr2] w2] eqn:Hr;
        [discriminate |].
      injection Hc as <- <-. destruct (Hrot lr2 w2 eq_refl) as (h1 & t & Hx).
      exists h1, t. exact Hx.
    - apply Hrot. exact Hc. }
  destruct r as [e|]; [discriminate |].
  destruct (H1 eq_refl) as (h1 & t & Hh1 & Hn1 & Hz & Hf1).
  rewrite Hh1 in H.
  destruct (FWrite h1 p w1) as [[n1 err] w2] eqn:Hw.
  destruct err; [discriminate |]. injection H as <- <- <-.
  pose proof Hw as Hw'. unfold FWrite in Hw'. cbn [emit opened] in Hw'.
  apply FWrite_spec in Hw as (_ & _ & _ & He & _ & _).
  destruct (He eq_refl) as [-> Hin].
  split; [reflexivity |]. cbn [fileSize set_fileSize]. rewrite Hz.
  split; [| reflexivity].
  destruct (decide (fd h1 ∈ opened w1)); [| contradiction].
  match type of Hw' with context [pop ?x] =>
    destruct (pop_spec x) as (o & s & Hpop); rewrite Hpop in Hw' end.
  rewrite Hn1 in Hw'.
  destruct o as [|e0|k e0]; cbn -[Nat.ltb] in Hw'.
  - injection Hw' as <-. cbn. rewrite lookup_alter_eq, Hf1. cbn. eauto.
  - discriminate.
  - destruct (k <? length p)%nat; [discriminate |].
    injection Hw' as <-. cbn. rewrite lookup_alter_eq, Hf1. cbn. eauto.
Qed.

(** X15. The first write to a new log file, where nothing fails. For
    every path that names no file yet, every payload, every size ceiling
    that is not negative and no daily rotation: the rotator is built, the
    [Write] returns the length of the payload and no error, the tracked
    size is that length, and [os.Stat] on the path reports that size. *)
Theorem first_write_on_a_new_file config w p :
  script w = [] -> FilePath config <> "" ->
  fs w !! key (FilePath config) = None ->
  RotateDaily config = false -> 0 <= MaxSize config ->
  Z.of_nat (length p) < 2 ^ 63 ->
  exists lr w1 lr2 w2 st w3,
    NewLogRotator config w = (inr lr, w1) /\
    Write lr p w1 = ((length p, None), lr2, w2) /\
    fileSize lr2 = Z.of_nat (length p) /\
    Stat (FilePath config) w2 = (inr st, w3) /\
    Size st = Z.of_nat (length p).
Proof.
  intros Hq Hp Hnone Hd Hmax Hlen.
  destruct (NewLogRotator_fresh config w Hq Hp Hnone)
    as (lr & w1 & h & t & Hnew & Hq1 & Hh & Hn & Ho & Hz & Hf).
  destruct (NewLogRotator_ok _ _ _ _ Hnew) as (_ & Hpath & Hms & _ & _ & _ & Hrd).
  assert (Hnd : daily_due lr w1 = false).
  { unfold daily_due. rewrite Hrd, Hd. reflexivity. }
  assert (Hns : size_due lr = false).
  { unfold size_due. rewrite Hms, Hz. apply Z.leb_gt.
    destruct (MaxSize config =? 0) eqn:E; [lia |].
    apply Z.eqb_neq in E. lia. }
  exists lr, w1.
  rewrite (Write_no_rotation lr p w1 h Hnd Hns Hh).
  unfold FWrite. cbn [Now snd emit opened].
  destruct (decide (fd h ∈ opened w1)) as [_|Hout]; [| contradiction].
  rewrite pop_quiet by exact Hq1.
  eexists _, _. cbn [fs clock emit].
  set (w2 := set_fs _ _).
  assert (Hf2 : fs w2 !! key (FilePath config)
                = Some (mkFile ([] ++ p) (clock w1 + hd 0 (ticks w1)))).
  { subst w2. cbn. rewrite Hn, lookup_alter_eq, Hf. reflexivity. }
  exists (info (mkFile ([] ++ p) (clock w1 + hd 0 (ticks w1)))),
         (emit (EvStat (FilePath config)) w2).
  split; [exact Hnew |]. split; [reflexivity |]. split.
  - cbn. rewrite Hz, wrap64_small by lia. lia.
  - split; [| reflexivity].
    apply Stat_quiet; [exact Hq1 | exact Hf2].
Qed.

End Writing.

Lemma Write_appends_witness :
  daily_due app_rotator app_world = false /\ size_due app_rotator = false /\
  file app_rotator = Some (mkHandle 3 "app.log") /\
  fs app_world !! key (name (mkHandle 3 "app.log")) = Some (mkFile [] 0) /\
  exists n err lr' w',
    Write app_rotator ten_bytes app_world = ((n, err), lr', w') /\
    (n <= length ten_bytes)%nat /\ (err = None -> n = length ten_bytes) /\
    (exists f', fs w' !! key (name (mkHandle 3 "app.log")) = Some f' /\
                data f' = data (mkFile [] 0) ++ take n ten_bytes) /\
    (forall k, k <> key (name (mkHandle 3 "app.log")) ->
       fs w' !! k = fs app_world !! k) /\
    lr' = match err with
          | None => set_fileSize (wrap64 (fileSize app_rotator + Z.of_nat n))
                                 app_rotator
          | Some _ => app_rotator
          end.
Proof.
  assert (Hf : fs app_world !! key (name (mkHandle 3 "app.log"))
               = Some (mkFile [] 0)) by (vm_compute; reflexivity).
  split; [reflexivity |]. split; [reflexivity |]. split; [reflexivity |].
  split; [exact Hf |].
  exact (Write_appends app_rotator ten_bytes app_world _ _
           eq_refl eq_refl eq_refl Hf).
Defined.

Lemma Write_keeps_in_sync_witness :
  in_sync app_rotator app_world /\
  Write app_rotator ten_bytes app_world =
    ((10%nat, None), snd (fst (Write app_rotator ten_bytes app_world)),
     snd (Write app_rotator ten_bytes app_world)) /\
  (forall f, fs (snd (Write app_rotator ten_bytes app_world))
               !! key (filePath app_rotator) = Some f ->
             Z.of_nat (length (data f)) < 2 ^ 63) /\
  10%nat = length ten_bytes /\
  in_sync (snd (fst (Write app_rotator ten_bytes app_world)))
          (snd (Write app_rotator ten_bytes app_world)) /\
  filePath (snd (fst (Write app_rotator ten_bytes app_world)))
    = filePath app_rotator.
Proof.
  assert (Hs : in_sync app_rotator app_world).
  { exists (mkHandle 3 "app.log"), (mkFile [] 0).
    split; [reflexivity |]. split; [reflexivity |].
    split; [vm_compute; reflexivity |].
    split; vm_compute; reflexivity. }
  assert (H : Write app_rotator ten_bytes app_world =
    ((10%nat, None), snd (fst (Write app_rotator ten_bytes app_world)),
     snd (Write app_rotator ten_bytes app_world))) by (vm_compute; reflexivity).
  assert (Hb : forall f, fs (snd (Write app_rotator ten_bytes app_world))
                 !! key (filePath app_rotator) = Some f ->
               Z.of_nat (length (data f)) < 2 ^ 63).
  { intros f Hf. vm_compute in Hf. injection Hf as <-. reflexivity. }
  split; [exact Hs |]. split; [exact H |]. split; [exact Hb |].
  exact (Write_keeps_in_sync app_rotator ten_bytes app_world _ _ _ Hs H Hb).
Defined.

Lemma nonpositive_ceiling_rotates_always_witness :
  maxSize eager_rotator <= 0 /\ in_sync eager_rotator app_world /\
  Write eager_rotator ten_bytes app_world =
    ((10%nat, None), snd (fst (Write eager_rotator ten_bytes app_world)),
     snd (Write eager_rotator ten_bytes app_world)) /\
  10%nat = length ten_bytes /\
  (exists t, fs (snd (Write eager_rotator ten_bytes app_world))
               !! key (filePath eager_rotator) = Some (mkFile ten_bytes t)) /\
  fileSize (snd (fst (Write eager_rotator ten_bytes app_world)))
    = wrap64 (Z.of_nat (length ten_bytes)).
Proof.
  assert (Hm : maxSize eager_rotator <= 0) by (vm_compute; discriminate).
  assert (Hs : in_sync eager_rotator app_world).
  { exists (mkHandle 3 "app.log"), (mkFile [] 0).
    split; [reflexivity |]. split; [reflexivity |].
    split; [vm_compute; reflexivity |].
    split; vm_compute; reflexivity. }
  assert (H : Write eager_rotator ten_bytes app_world =
    ((10%nat, None), snd (fst (Write eager_rotator ten_bytes app_world)),
     snd (Write eager_rotator ten_bytes app_world))) by (vm_compute; reflexivity).
  split; [exact Hm |]. split; [exact Hs |]. split; [exact H |].
  exact (nonpositive_ceiling_rotates_always eager_rotator ten_bytes app_world
           _ _ _ Hm Hs H).
Defined.

Lemma first_write_on_a_new_file_witness :
  script Sample.quiet = [] /\ FilePath app_config <> "" /\
  fs Sample.quiet !! key (FilePath app_config) = None /\
  RotateDaily app_config = false /\ 0 <= MaxSize app_config /\
  Z.of_nat (length ten_bytes) < 2 ^ 63 /\
  exists lr w1 lr2 w2 st w3,
    NewLogRotator app_config Sample.quiet = (inr lr, w1) /\
    Write lr ten_bytes w1 = ((length ten_bytes, None), lr2, w2) /\
    fileSize lr2 = Z.of_nat (length ten_bytes) /\
    Stat (FilePath app_config) w2 = (inr st, w3) /\
    Size st = Z.of_nat (length ten_bytes).
Proof.
  assert (Hp : FilePath app_config <> "") by discriminate.
  assert (Hm : 0 <= MaxSize app_config) by (vm_compute; discriminate).
  assert (Hl : Z.of_nat (length ten_bytes) < 2 ^ 63) by reflexivity.
  split; [reflexivity |]. split; [exact Hp |]. split; [reflexivity |].
  split; [reflexivity |]. split; [exact Hm |]. split; [exact Hl |].
  exact (first_write_on_a_new_file app_config Sample.quiet ten_bytes
           eq_refl Hp eq_refl eq_refl Hm Hl).
Defined.

(** ** Descriptors *)

Section Hygiene.
Context {RT : Runtime}.

Lemma rotate_opened lr w r lr' w' :
  rotate lr w = (r, lr', w') ->
  forall d, d ∈ opened w' ->
    (d ∈ opened w /\ forall h, file lr = Some h -> d <> fd h) \/
    exists h', file lr' = Some h' /\ d = fd h'.
Proof.
  intros H d Hd. destruct (file lr) as [h|] eqn:Hf.
  - rewrite (rotate_eq lr w h Hf) in H.
    assert (Hgoal : forall x, d ∈ opened x ->
              (forall y, y ∈ opened x -> y ∈ opened w /\ y <> fd h) ->
              (d ∈ opened w /\ forall h0, Some h = Some h0 -> d <> fd h0) \/
              exists h', file lr' = Some h' /\ d = fd h').
    { intros x Hx Hsub. left. destruct (Hsub d Hx) as [Hin Hne].
      split; [exact Hin |]. intros h0 [= <-]. exact Hne. }
    destruct (FClose_frame h w) as (_ & _ & H1).
    destruct (FClose h w) as [[e1|] w1]; cbn [snd] in H1.
    { injection H as <- <- <-. apply (Hgoal w1 Hd). intros y. apply H1. }
    pose proof (Rename_opened (filePath lr) (rotatedName lr w1) (named lr w1)) as H3.
    change (opened (named lr w1)) with (opened w1) in H3.
    destruct (Rename _ _ _) as [[e3|] w3]; cbn [snd] in H3.
    { injection H as <- <- <-. apply (Hgoal w3 Hd). intros y. rewrite H3. apply H1. }
    assert (H4 : forall r w4,
              (if compress lr then compressFile (rotatedName lr w1) w3
               else (None, w3)) = (r, w4) ->
              forall y, y ∈ opened w4 -> y ∈ opened w /\ y <> fd h).
    { intros r0 w4 Hc y Hy. apply H1. rewrite <- H3. destruct (compress lr).
      - pose proof (compressFile_opened (rotatedName lr w1) w3) as Hs.
        rewrite Hc in Hs. cbn in Hs. set_solver.
      - injection Hc as <- <-. exact Hy. }
    destruct (if compress lr then _ else _) as [[e4|] w4] eqn:Hc;
      specialize (H4 _ _ eq_refl).
    { injection H as <- <- <-. apply (Hgoal w4 Hd H4). }
    pose proof (cleanup_opened lr w4) as H5.
    destruct (cleanup lr w4) as [[e5|] w5]; cbn [snd] in H5.
    { injection H as <- <- <-. apply (Hgoal w5 Hd). rewrite H5. exact H4. }
    apply openFile_spec in H as (_ & _ & _ & Hr).
    destruct r as [e|].
    + destruct Hr as (-> & Hop & _). left. apply Hop in Hd. rewrite H5 in Hd.
      destruct (H4 d Hd) as [Hin Hne]. split; [exact Hin |].
      intros h0 [= <-]. exact Hne.
    + destruct Hr as (h' & f' & -> & _ & _ & _ & Hop).
      apply Hop in Hd as [Hd| ->].
      * left. rewrite H5 in Hd. destruct (H4 d Hd) as [Hin Hne].
        split; [exact Hin |]. intros h0 [= <-]. exact Hne.
      * right. exists h'. auto.
  - unfold rotate in H. rewrite Hf in H.
    apply openFile_spec in H as (_ & _ & _ & Hr).
    destruct r as [e|].
    + destruct Hr as (-> & Hop & _). left. split; [auto | discriminate].
    + destruct Hr as (h' & f' & -> & _ & _ & _ & Hop).
      apply Hop in Hd as [Hd| ->]; [left; split; [auto | discriminate] |].
      right. exists h'. auto.
Qed.

Lemma rotate_no_leak w0 lr w r lr' w' :
  no_leak w0 lr w -> rotate lr w = (r, lr', w') -> no_leak w0 lr' w'.
Proof.
  intros HI H d Hd.
  destruct (rotate_opened lr w r lr' w' H d Hd) as [[Hin Hne]|(h' & Hh' & ->)].
  - destruct (HI d Hin) as [?|(h & Hh & <-)]; [auto |].
    exfalso. exact (Hne h Hh eq_refl).
  - right. eauto.
Qed.

Lemma checkRotation_no_leak w0 lr w r lr' w' :
  no_leak w0 lr w -> checkRotation lr w = (r, lr', w') -> no_leak w0 lr' w'.
Proof.
  intros HI. rewrite checkRotation_eq.
  assert (HI' : no_leak w0 lr (snd (Now w))) by exact HI.
  destruct (daily_due lr w).
  - destruct (rotate lr (snd (Now w))) as [[r1 lr1] w1] eqn:Hr.
    pose proof (rotate_no_leak w0 lr _ _ _ _ HI' Hr) as H1.
    destruct r1; intros [= <- <- <-]; exact H1.
  - destruct (size_due lr).
    + apply rotate_no_leak. exact HI'.
    + intros [= <- <- <-]. exact HI'.
Qed.

Lemma call_no_leak w0 c lr w :
  no_leak w0 lr w -> no_leak w0 (fst (call c lr w)) (snd (call c lr w)).
Proof.
  intros HI. destruct c as [p| | |]; cbn.
  - unfold Write.
    destruct (checkRotation lr w) as [[r lr1] w1] eqn:Hc.
    pose proof (checkRotation_no_leak w0 lr w r lr1 w1 HI Hc) as H1.
    destruct r; [exact H1 |].
    destruct (file lr1) as [h|] eqn:Hh; [| exact H1].
    destruct (FWrite h p w1) as [[n err] w2] eqn:Hw.
    apply FWrite_spec in Hw as (_ & Hop & _).
    destruct err; cbn; intros d; rewrite Hop; apply H1.
  - unfold Rotate. destruct (rotate lr w) as [[r lr1] w1] eqn:Hr.
    exact (rotate_no_leak w0 lr w r lr1 w1 HI Hr).
  - unfold Close. destruct (file lr) as [h|]; [| exact HI].
    destruct (FClose_frame h w) as (_ & _ & Ho).
    intros d Hd. apply Ho in Hd as [Hd _]. apply HI. exact Hd.
  - exact HI.
Qed.

Lemma calls_no_leak w0 cs : forall lr w,
  no_leak w0 lr w -> no_leak w0 (fst (calls cs lr w)) (snd (calls cs lr w)).
Proof.
  induction cs as [|c cs IH]; intros lr w HI; cbn; [exact HI |].
  pose proof (call_no_leak w0 c lr w HI) as H1.
  destruct (call c lr w) as [lr1 w1]. apply IH. exact H1.
Qed.

(** X16. The rotator leaks no descriptor: after any calls, the only
    descriptor that is open and was not open before is the one the rotator
    holds. *)
Theorem no_descriptor_leak cs lr w :
  opened (snd (calls cs lr w)) ⊆
    opened w ∪ match file (fst (calls cs lr w)) with
               | Some h => {[fd h]}
               | None => ∅
               end.
Proof.
  intros d Hd. apply (calls_no_leak w cs lr w) in Hd.
  - destruct Hd as [Hd|(h & -> & <-)]; set_solver.
  - intros x Hx. left. exact Hx.
Qed.

End Hygiene.

(** ** The reference day *)

Section ReferenceDay.
Context {RT : Runtime}.

(** X17. A manual rotation leaves the reference day of the daily
    rotation where it was, whether it succeeds or fails. The daily
    trigger is therefore, at any reading of the clock, what it would have
    been without the manual rotation: a [Write] that reads a day after
    the reference day runs a rotation, also when a manual rotation has
    just been made. *)
Theorem manual_rotation_keeps_daily_trigger lr w r lr' w' :
  Rotate lr w = (r, lr', w') ->
  rotateTime lr' = rotateTime lr /\
  (forall w2, daily_due lr' w2 = daily_due lr w2) /\
  (forall p w2, daily_due lr w2 = true ->
     Write lr' p w2 =
       let '(err, lr2, w3) := rotate lr' (snd (Now w2)) in
       match err with
       | Some e => ((O, Some e), lr2, w3)
       | None => write_file (set_rotateTime (currentDay w2) lr2) p w3
       end).
Proof.
  intros H. unfold Rotate in H.
  destruct (rotate_settings lr w r lr' w' H) as (Hs & Ht & _).
  assert (Hd : forall w2, daily_due lr' w2 = daily_due lr w2).
  { intros w2. unfold daily_due. destruct Hs as (_ & _ & _ & _ & _ & <-).
    rewrite Ht. reflexivity. }
  split; [exact Ht |]. split; [exact Hd |].
  intros p w2 Hdue. rewrite Write_eq, Hd, Hdue. reflexivity.
Qed.

Lemma checkRotation_rotateTime lr w r lr' w' :
  checkRotation lr w = (r, lr', w') ->
  rotateTime lr <= rotateTime lr' /\
  (rotateDaily lr = false -> rotateTime lr' = rotateTime lr).
Proof.
  rewrite checkRotation_eq. unfold daily_due.
  destruct (rotateDaily lr); cbn [andb].
  - destruct (After (currentDay w) (rotateTime lr)) eqn:Ha.
    + destruct (rotate lr (snd (Now w))) as [[r1 lr1] w1] eqn:Hr.
      destruct (rotate_settings lr _ _ _ _ Hr) as (_ & Ht & _).
      unfold After in Ha. apply Z.ltb_lt in Ha.
      destruct r1; intros [= <- <- <-]; cbn; split; try discriminate; lia.
    + destruct (size_due lr).
      * intros Hr. destruct (rotate_settings lr _ _ _ _ Hr) as (_ & Ht & _).
        split; [lia | discriminate].
      * intros [= <- <- <-]. split; [lia | discriminate].
  - destruct (size_due lr).
    + intros Hr. destruct (rotate_settings lr _ _ _ _ Hr) as (_ & Ht & _).
      split; [lia | auto].
    + intros [= <- <- <-]. split; [lia | auto].
Qed.

Lemma call_rotateTime c lr w :
  rotateTime lr <= rotateTime (fst (call c lr w)) /\
  (rotateDaily lr = false \/ has_write [c] = false ->
   rotateTime (fst (call c lr w)) = rotateTime lr).
Proof.
  destruct c as [p| | |]; cbn; try (split; [lia | reflexivity]).
  - unfold Write. destruct (checkRotation lr w) as [[r lr1] w1] eqn:Hc.
    apply checkRotation_rotateTime in Hc as [Hle Heq].
    assert (Hgoal : rotateTime lr <= rotateTime lr1 /\
              (rotateDaily lr = false \/ true = false ->
               rotateTime lr1 = rotateTime lr)).
    { split; [exact Hle |]. intros [H|H]; [auto | discriminate]. }
    destruct r; [exact Hgoal |].
    destruct (file lr1) as [h|]; [| exact Hgoal].
    destruct (FWrite h p w1) as [[n [e|]] w2]; exact Hgoal.
  - unfold Rotate. destruct (rotate lr w) as [[r lr1] w1] eqn:Hr.
    destruct (rotate_settings lr _ _ _ _ Hr) as (_ & Ht & _). cbn.
    split; [lia | auto].
Qed.

(** X18. The reference day of the daily rotation only moves forward, and
    only a [Write] of a rotator with daily rotation moves it. *)
Theorem reference_day_moves_forward cs lr w :
  rotateTime lr <= rotateTime (fst (calls cs lr w)) /\
  (rotateDaily lr = false \/ has_write cs = false ->
   rotateTime (fst (calls cs lr w)) = rotateTime lr).
Proof.
  revert lr w. induction cs as [|c cs IH]; intros lr w; cbn [calls].
  - cbn. split; [lia | reflexivity].
  - destruct (call_rotateTime c lr w) as [Hle Heq].
    destruct (call_settings c lr w) as [(_ & _ & _ & _ & _ & Hd) _].
    destruct (call c lr w) as [lr1 w1]. cbn [fst] in *.
    destruct (IH lr1 w1) as [Hle' Heq']. split; [lia |].
    intros H. rewrite Heq', Heq.
    + reflexivity.
    + destruct H as [H|H]; [auto |]. right. destruct c; cbn in *; auto.
    + destruct H as [H|H]; [left; congruence |]. right.
      destruct c; cbn in *; auto. discriminate.
Qed.

Lemma Truncate_day t :
  Truncate t (24 * Hour) mod (24 * Hour) = 0 /\
  Truncate t (24 * Hour) <= t < Truncate t (24 * Hour) + 24 * Hour.
Proof.
  unfold Truncate.
  change (24 * Hour) with 86400000000000.
  change unixToInternal with (719162 * 86400000000000).
  change (86400000000000 <=? 0) with false. cbv iota.
  rewrite Z_mod_plus_full.
  assert (HD : 0 < 86400000000000) by reflexivity.
  pose proof (Z.mod_pos_bound t 86400000000000 HD) as Hb.
  split; [| lia].
  rewrite Zminus_mod, Z.mod_mod, Z.sub_diag by lia. reflexivity.
Qed.

Lemma at_midnight_due lr w :
  at_midnight lr ->
  (rotateTime lr < currentDay w <-> rotateTime lr + 24 * Hour <= clock w).
Proof.
  unfold at_midnight, currentDay. intros Hm.
  destruct (Truncate_day (clock w)) as [H0 Hb].
  set (T := Truncate (clock w) (24 * Hour)) in *.
  set (D := 24 * Hour) in *.
  assert (HD : 0 < D) by (unfold D, Hour, Second; lia).
  apply Z.mod_divide in Hm as [a Ha]; [| lia].
  apply Z.mod_divide in H0 as [b Hb']; [| lia].
  rewrite Ha, Hb' in *. split; intros H.
  - assert (a + 1 <= b) by nia. nia.
  - destruct (Z_lt_le_dec a b) as [Hab|Hab]; [nia |]. exfalso.
    assert ((b + 1) * D <= (a + 1) * D) by nia. nia.
Qed.

Lemma calls_at_midnight cs : forall lr w,
  at_midnight lr -> at_midnight (fst (calls cs lr w)).
Proof.
  assert (Hrot : forall lr w, at_midnight lr ->
            at_midnight (snd (fst (rotate lr w)))).
  { intros lr w Hm. destruct (rotate lr w) as [[r lr1] w1] eqn:Hr.
    destruct (rotate_settings lr w _ _ _ Hr) as (_ & Ht & _).
    unfold at_midnight in *. cbn. rewrite Ht. exact Hm. }
  assert (Hchk : forall lr w, at_midnight lr ->
            at_midnight (snd (fst (checkRotation lr w)))).
  { intros lr w Hm. rewrite checkRotation_eq.
    destruct (daily_due lr w).
    - specialize (Hrot lr (snd (Now w)) Hm).
      destruct (rotate lr (snd (Now w))) as [[[e|] lr1] w1]; cbn in *;
        [exact Hrot |].
      unfold at_midnight. cbn. apply Truncate_day.
    - destruct (size_due lr); [apply Hrot; exact Hm | exact Hm]. }
  induction cs as [|c cs IH]; intros lr w Hm; cbn [calls]; [exact Hm |].
  assert (H1 : at_midnight (fst (call c lr w))).
  { destruct c as [p| | |]; cbn; try exact Hm.
    - unfold Write. specialize (Hchk lr w Hm).
      destruct (checkRotation lr w) as [[[e|] lr1] w1]; cbn in *; [exact Hchk |].
      destruct (file lr1); [| exact Hchk].
      destruct (FWrite _ p w1) as [[n [e|]] w2]; exact Hchk.
    - unfold Rotate. specialize (Hrot lr w Hm).
      destruct (rotate lr w) as [[r lr1] w1]. exact Hrot. }
  destruct (call c lr w) as [lr1 w1]. apply IH. exact H1.
Qed.

(** X19. Daily rotation goes by the days of UTC. The reference day of a
    rotator that [NewLogRotator] built is a midnight UTC, at or before the
    time of construction and less than a day before it, and it stays a
    midnight UTC whatever is called; the daily trigger is due exactly
    from the next midnight UTC on, whatever the local zone. *)
Theorem daily_rotation_goes_by_utc_days config w0 lr0 w1 cs :
  NewLogRotator config w0 = (inr lr0, w1) ->
  rotateTime lr0 <= clock w0 < rotateTime lr0 + 24 * Hour /\
  let lr := fst (calls cs lr0 w1) in
  rotateTime lr mod (24 * Hour) = 0 /\
  forall w,
    daily_due lr w = true <->
    RotateDaily config = true /\ rotateTime lr + 24 * Hour <= clock w.
Proof.
  intros H.
  assert (Ht : rotateTime lr0 = Truncate (clock w0) (24 * Hour)).
  { revert H. unfold NewLogRotator.
    destruct (String.eqb _ ""); [intros [=] |].
    cbn [Now]. destruct (MkdirAll _ _) as [[e1|] w2]; [intros [=] |].
    match goal with |- context [openFile ?l ?x] =>
      destruct (openFile l x) as [[r lr1] w3] eqn:Ho end.
    apply openFile_cases in Ho as [[[e ->] ->]|[-> (f & sz & -> & _)]];
      intros [= <- <-]. reflexivity. }
  split; [rewrite Ht; apply Truncate_day |].
  intros lr.
  assert (Hm : at_midnight lr).
  { apply calls_at_midnight. unfold at_midnight. rewrite Ht.
    apply Truncate_day. }
  split; [exact Hm |]. intros w.
  destruct (NewLogRotator_ok _ _ _ _ H) as (_ & _ & _ & _ & _ & _ & Hd).
  destruct (calls_settings cs lr0 w1) as [(_ & _ & _ & _ & _ & Hd') _].
  fold lr in Hd'. unfold daily_due. rewrite <- Hd', Hd.
  rewrite andb_true_iff. unfold After. rewrite Z.ltb_lt.
  rewrite (at_midnight_due lr w Hm). reflexivity.
Qed.

End ReferenceDay.

Lemma manual_rotation_keeps_daily_trigger_witness :
  Rotate daily_rotator next_day =
    (None, snd (fst (Rotate daily_rotator next_day)),
     snd (Rotate daily_rotator next_day)) /\
  rotateTime (snd (fst (Rotate daily_rotator next_day)))
    = rotateTime daily_rotator /\
  (forall w2, daily_due (snd (fst (Rotate daily_rotator next_day))) w2
              = daily_due daily_rotator w2) /\
  (forall p w2, daily_due daily_rotator w2 = true ->
     Write (snd (fst (Rotate daily_rotator next_day))) p w2 =
       let '(err, lr2, w3) :=
         rotate (snd (fst (Rotate daily_rotator next_day))) (snd (Now w2)) in
       match err with
       | Some e => ((O, Some e), lr2, w3)
       | None => write_file (set_rotateTime (currentDay w2) lr2) p w3
       end).
Proof.
  assert (H : Rotate daily_rotator next_day =
    (None, snd (fst (Rotate daily_rotator next_day)),
     snd (Rotate daily_rotator next_day))) by (vm_compute; reflexivity).
  split; [exact H |].
  exact (manual_rotation_keeps_daily_trigger daily_rotator next_day _ _ _ H).
Defined.

Lemma daily_rotation_goes_by_utc_days_witness :
  NewLogRotator app_config Sample.quiet = (inr app_rotator, app_world) /\
  rotateTime app_rotator <= clock Sample.quiet
    < rotateTime app_rotator + 24 * Hour /\
  let lr := fst (calls [CallWrite ten_bytes] app_rotator app_world) in
  rotateTime lr mod (24 * Hour) = 0 /\
  forall w,
    daily_due lr w = true <->
    RotateDaily app_config = true /\ rotateTime lr + 24 * Hour <= clock w.
Proof.
  assert (H : NewLogRotator app_config Sample.quiet = (inr app_rotator, app_world))
    by (vm_compute; reflexivity).
  split; [exact H |].
  exact (daily_rotation_goes_by_utc_days app_config Sample.quiet _ _
           [CallWrite ten_bytes] H).
Defined.

(** ** Retention in general *)

Section RetentionInGeneral.
Context {RT : Runtime}.

Lemma Remove_quiet_any p w :
  script w = [] ->
  script (snd (Remove p w)) = [] /\
  forall k, fs (snd (Remove p w)) !! k =
            if decide (k = key p) then None else fs w !! k.
Proof.
  intros Hq. unfold Remove. rewrite pop_quiet by exact Hq. cbn.
  destruct (fs w !! key p) eqn:E; cbn; (split; [exact Hq |]); intros k;
    destruct (decide (k = key p)) as [->|Hne]; auto.
  - apply lookup_delete_eq.
  - apply lookup_delete_ne. congruence.
Qed.

Lemma remove_aged_quiet cutoff files : forall w,
  script w = [] ->
  (forall f, f ∈ files -> key (path f) = path f) ->
  script (remove_aged cutoff files w) = [] /\
  forall k, fs (remove_aged cutoff files w) !! k =
            if decide (k ∈ path <$> aged cutoff files) then None
            else fs w !! k.
Proof.
  induction files as [|f rest IH]; intros w Hq Hk.
  - cbn. split; [exact Hq |]. intros k. rewrite decide_False; [reflexivity |].
    intros H. inversion H.
  - assert (Hk' : forall g, g ∈ rest -> key (path g) = path g).
    { intros g Hg. apply Hk. right. exact Hg. }
    cbn [remove_aged]. unfold aged. rewrite filter_cons.
    fold (aged cutoff rest).
    destruct (Before (modTime f) cutoff) eqn:E.
    + destruct (Remove_quiet_any (path f) w Hq) as [Hq1 Hf1].
      destruct (IH (snd (Remove (path f) w)) Hq1 Hk') as [Hq2 Hf2].
      split; [exact Hq2 |]. intros k. rewrite Hf2, Hf1.
      rewrite (Hk f) by left.
      rewrite (decide_True (P := true = true)) by reflexivity.
      cbn [fmap list_fmap].
      destruct (decide (k = path f)) as [->|Hne].
      * rewrite (decide_True (P := path f ∈ path f :: _)) by left.
        destruct (decide _); reflexivity.
      * apply decide_ext. rewrite elem_of_cons. tauto.
    + destruct (IH w Hq Hk') as [Hq2 Hf2]. split; [exact Hq2 |].
      intros k. rewrite Hf2.
      rewrite (decide_False (P := false = true)) by discriminate.
      reflexivity.
Qed.

Lemma remove_excess_quiet_any toRemove files : forall i w,
  script w = [] ->
  (forall f, f ∈ files -> key (path f) = path f) ->
  forall k, fs (remove_excess toRemove i files w) !! k =
            if decide (k ∈ path <$> take (Z.to_nat (toRemove - i)) files)
            then None else fs w !! k.
Proof.
  induction files as [|f rest IH]; intros i w Hq Hk k; cbn.
  - rewrite take_nil. rewrite decide_False; [reflexivity |].
    intros H. inversion H.
  - assert (Hk' : forall g, g ∈ rest -> key (path g) = path g).
    { intros g Hg. apply Hk. right. exact Hg. }
    destruct (i <? toRemove) eqn:E.
    + destruct (Remove_quiet_any (path f) w Hq) as [Hq1 Hf1].
      rewrite (IH (i + 1) _ Hq1 Hk'), Hf1. rewrite (Hk f) by left.
      replace (Z.to_nat (toRemove - i)) with (S (Z.to_nat (toRemove - (i + 1))))
        by lia.
      cbn [take fmap list_fmap].
      destruct (decide (k = path f)) as [->|Hne].
      * rewrite (decide_True (P := path f ∈ path f :: _)) by left.
        destruct (decide _); reflexivity.
      * apply decide_ext. rewrite elem_of_cons. tauto.
    + replace (Z.to_nat (toRemove - i)) with O by lia. cbn.
      rewrite decide_False; [reflexivity |]. intros H. inversion H.
Qed.

(** [cleanup] where nothing fails: a listed file is gone when the age
    pass or the count pass removed it, and every other file is as it
    was. [j] is the number of entries that the count pass goes through. *)
Lemma cleanup_quiet_any lr w matches :
  script w = [] ->
  fst (Glob (pattern lr) w) = inr matches ->
  (forall m, m ∈ matches -> key m = m) ->
  let sorted := sortSlice (entry_of (fs w) <$> matches) in
  let len := Z.of_nat (length matches) in
  let j := if maxBackups lr <? len
           then Z.to_nat (wrap64 (len - maxBackups lr)) else O in
  fst (cleanup lr w) = None /\
  forall k, fs (snd (cleanup lr w)) !! k =
    if decide (k ∈ path <$> aged (age_cutoff lr w) sorted \/
               k ∈ path <$> take j sorted)
    then None else fs w !! k.
Proof.
  intros Hq Hglob Hclean sorted len j.
  apply Glob_inr in Hglob as [Hglob Hm].
  assert (Hin : forall m, m ∈ matches ->
            key m = m /\ is_Some (fs (emit (EvGlob (pattern lr)) w) !! m)).
  { intros m Hmm. split; [apply Hclean; exact Hmm |].
    rewrite <- Hm in Hmm. apply matching_spec in Hmm as [_ Hd].
    apply elem_of_dom in Hd. exact Hd. }
  destruct (stat_matches_quiet matches (emit (EvGlob (pattern lr)) w) Hq Hin)
    as (w2 & Hst & Hfs2 & Hs2 & Hc2).
  cbn in Hfs2, Hs2, Hc2.
  unfold cleanup. rewrite Hglob. cbn iota beta. rewrite Hst.
  cbn [Now]. cbn iota beta.
  change (fs (emit (EvGlob (pattern lr)) w)) with (fs w) in *.
  fold sorted.
  set (w3 := mkWorld _ _ _ _ _ _ _ _).
  assert (Hq3 : script w3 = []) by (cbn; congruence).
  assert (Hlen : length sorted = length matches).
  { unfold sorted. rewrite (Permutation_length (sortSlice_perm _)).
    apply length_fmap. }
  assert (Hks : forall f, f ∈ sorted -> key (path f) = path f).
  { intros f Hf. unfold sorted in Hf. rewrite (sortSlice_perm _) in Hf.
    apply list_elem_of_fmap in Hf as (m & -> & Hmm). apply Hclean. exact Hmm. }
  rewrite Hc2. fold (age_cutoff lr w).
  destruct (remove_aged_quiet (age_cutoff lr w) sorted w3 Hq3 Hks) as [Hq4 Hf4].
  rewrite Hlen. fold len.
  split; [reflexivity |]. intros k. cbn [snd]. subst j.
  destruct (maxBackups lr <? len).
  - rewrite (remove_excess_quiet_any _ sorted 0 _ Hq4 Hks), Hf4.
    rewrite Z.sub_0_r. change (fs w3) with (fs w2). rewrite Hfs2.
    repeat destruct (decide _); tauto.
  - rewrite Hf4. change (fs w3) with (fs w2). rewrite Hfs2.
    cbn [take]. repeat destruct (decide _); try tauto.
    exfalso. destruct o as [?|H]; [tauto | inversion H].
Qed.

(** X20. Retention where nothing fails. After the cleanup the files that
    match the pattern are at most [maxBackups] (none when [maxBackups] is
    negative), none of them is older than the maximum age, each of them
    is a listed file that was not touched, and no file outside the
    listing was touched. *)
Theorem cleanup_retention lr w matches :
  script w = [] ->
  fst (Glob (pattern lr) w) = inr matches ->
  (forall m, m ∈ matches -> key m = m) ->
  - max_int <= Z.of_nat (length matches) - maxBackups lr <= max_int ->
  let w' := snd (cleanup lr w) in
  let kept := matching (pattern lr) (fs w') in
  fst (cleanup lr w) = None /\
  Z.of_nat (length kept) <= Z.max 0 (maxBackups lr) /\
  (forall k, k ∈ kept -> k ∈ matches /\ fs w' !! k = fs w !! k) /\
  (forall k f, k ∈ kept -> fs w !! k = Some f ->
     Before (mtime f) (age_cutoff lr w) = false) /\
  (forall k, k ∉ matches -> fs w' !! k = fs w !! k).
Proof.
  intros Hq Hglob Hclean Hrange w' kept.
  destruct (cleanup_quiet_any lr w matches Hq Hglob Hclean) as [Hok Hfs].
  apply Glob_inr in Hglob as [_ Hm].
  set (entries := entry_of (fs w) <$> matches) in *.
  set (sorted := sortSlice entries) in *.
  set (len := Z.of_nat (length matches)) in *.
  set (j := if maxBackups lr <? len
            then Z.to_nat (wrap64 (len - maxBackups lr)) else O) in *.
  fold w' in Hfs.
  assert (Hperm : path <$> sorted ≡ₚ matches).
  { unfold sorted. rewrite (sortSlice_perm _). unfold entries.
    rewrite <- list_fmap_compose. clear.
    induction matches as [|m l IH]; cbn; [reflexivity |].
    apply Permutation_cons; [reflexivity | exact IH]. }
  assert (Hlen : length sorted = length matches).
  { rewrite <- (Permutation_length Hperm). symmetry. apply length_fmap. }
  assert (Hsplit : path <$> sorted =
            (path <$> take j sorted) ++ (path <$> drop j sorted)).
  { rewrite <- fmap_app, take_drop. reflexivity. }
  assert (Hkept : forall x, x ∈ kept ->
            x ∈ matches /\ fs w' !! x = fs w !! x /\
            x ∈ path <$> drop j sorted /\
            x ∉ path <$> aged (age_cutoff lr w) sorted).
  { intros x Hx. unfold kept in Hx.
    apply matching_spec in Hx as [Hmatch Hd]. apply elem_of_dom in Hd.
    rewrite Hfs in Hd |- *. destruct (decide _) as [Hrem|Hnot].
    { destruct Hd as [? [=]]. }
    assert (Hxm : x ∈ matches).
    { rewrite <- Hm. apply matching_spec. split; [exact Hmatch |].
      apply elem_of_dom. exact Hd. }
    split; [exact Hxm |]. split; [reflexivity |].
    split; [| tauto].
    rewrite <- Hperm, Hsplit, elem_of_app in Hxm. tauto. }
  split; [exact Hok |]. split; [| split; [| split]].
  - assert (Hsub : kept ⊆+ path <$> drop j sorted).
    { apply NoDup_submseteq; [apply matching_NoDup |].
      intros x Hx. apply Hkept. exact Hx. }
    apply submseteq_length in Hsub.
    rewrite length_fmap, length_drop, Hlen in Hsub.
    subst j. fold len in Hsub. unfold max_int in Hrange.
    destruct (maxBackups lr <? len) eqn:E.
    + rewrite wrap64_small in Hsub by lia. lia.
    + lia.
  - intros k Hk. destruct (Hkept k Hk) as (? & ? & _). auto.
  - intros k f Hk Hf. destruct (Hkept k Hk) as (Hkm & _ & _ & Hna).
    destruct (Before (mtime f) (age_cutoff lr w)) eqn:E; [| reflexivity].
    exfalso. apply Hna.
    apply list_elem_of_fmap. exists (entry_of (fs w) k).
    split; [reflexivity |]. unfold aged. apply list_elem_of_filter.
    split.
    + unfold entry_of. rewrite Hf. exact E.
    + unfold sorted. rewrite (sortSlice_perm _). unfold entries.
      apply list_elem_of_fmap_2. exact Hkm.
  - intros k Hk. rewrite Hfs. rewrite decide_False; [reflexivity |].
    intros [H|H]; apply Hk; rewrite <- Hperm.
    + apply list_elem_of_fmap in H as (f & -> & Hf).
      apply list_elem_of_filter in Hf as [_ Hf].
      apply list_elem_of_fmap_2. exact Hf.
    + rewrite Hsplit, elem_of_app. left. exact H.
Qed.

End RetentionInGeneral.

Lemma cleanup_retention_witness :
  script crowded = [] /\
  fst (Glob (pattern strict_rotator) crowded) =
    inr ["app-1970-01-01-000001.log"; "app-1970-01-01-000002.log";
         "app-1970-01-01-000003.log.gz"; "app-1970-01-01-000004.log"] /\
  - max_int <= 4 - maxBackups strict_rotator <= max_int /\
  let w' := snd (cleanup strict_rotator crowded) in
  let kept := matching (pattern strict_rotator) (fs w') in
  fst (cleanup strict_rotator crowded) = None /\
  Z.of_nat (length kept) <= Z.max 0 (maxBackups strict_rotator) /\
  (forall k, k ∈ kept ->
     k ∈ ["app-1970-01-01-000001.log"; "app-1970-01-01-000002.log";
          "app-1970-01-01-000003.log.gz"; "app-1970-01-01-000004.log"] /\
     fs w' !! k = fs crowded !! k) /\
  (forall k f, k ∈ kept -> fs crowded !! k = Some f ->
     Before (mtime f) (age_cutoff strict_rotator crowded) = false) /\
  (forall k,
     k ∉ ["app-1970-01-01-000001.log"; "app-1970-01-01-000002.log";
          "app-1970-01-01-000003.log.gz"; "app-1970-01-01-000004.log"] ->
     fs w' !! k = fs crowded !! k).
Proof.
  assert (Hglob : fst (Glob (pattern strict_rotator) crowded) =
    inr ["app-1970-01-01-000001.log"; "app-1970-01-01-000002.log";
         "app-1970-01-01-000003.log.gz"; "app-1970-01-01-000004.log"])
    by (vm_compute; reflexivity).
  assert (Hr : - max_int <= 4 - maxBackups strict_rotator <= max_int)
    by (vm_compute; split; discriminate).
  split; [reflexivity |]. split; [exact Hglob |]. split; [exact Hr |].
  refine (cleanup_retention strict_rotator crowded _ eq_refl Hglob _ Hr).
  intros m Hm.
  repeat (apply elem_of_cons in Hm as [->|Hm]; [vm_compute; reflexivity |]).
  inversion Hm.
Defined.

(** ** The statistics *)

(** X21. The statistics show the rotator: two rotators have the same
    statistics exactly when they agree on every field, but for the handle,
    of which the statistics only say whether there is one. *)
Theorem GetStats_faithful a b :
  GetStats a = GetStats b <->
  filePath a = filePath b /\ fileSize a = fileSize b /\
  maxSize a = maxSize b /\ maxAge a = maxAge b /\
  maxBackups a = maxBackups b /\ compress a = compress b /\
  rotateDaily a = rotateDaily b /\ rotateTime a = rotateTime b /\
  (is_Some (file a) <-> is_Some (file b)).
Proof.
  split.
  - intros H.
    assert (Hk : forall k, GetStats a !! k = GetStats b !! k)
      by (intros k; rewrite H; reflexivity).
    pose proof (Hk "file_path") as H1. pose proof (Hk "file_size") as H2.
    pose proof (Hk "max_size") as H3. pose proof (Hk "max_age") as H4.
    pose proof (Hk "max_backups") as H5. pose proof (Hk "compress") as H6.
    pose proof (Hk "rotate_daily") as H7. pose proof (Hk "rotate_time") as H8.
    pose proof (Hk "file_open") as H9. clear H Hk.
    unfold GetStats in *.
    destruct (file a), (file b);
      repeat (rewrite ?lookup_insert_eq in *;
              rewrite ?lookup_insert_ne in * by done);
      repeat split; try congruence; eauto; discriminate.
  - intros (H1 & H2 & H3 & H4 & H5 & H6 & H7 & H8 & H9).
    unfold GetStats. rewrite H1, H2, H3, H4, H5, H6, H7, H8.
    destruct (file a), (file b); try reflexivity; exfalso.
    + destruct H9 as [H9 _]. destruct H9 as [? [=]]. eauto.
    + destruct H9 as [_ H9]. destruct H9 as [? [=]]. eauto.
Qed.

(** ** The logger *)

Section LoggerFacts.
Context {RT : Runtime} {LG : Logrus.Library}.

(** [NewLogger], case by case. *)
Lemma NewLogger_cases cfg w r w' :
  Logger.NewLogger cfg w = (r, w') ->
  (Logger.LogFile cfg = "" /\ w' = w /\
   exists l, r = inr l /\ Logger.rotator l = None /\
     Logger.config l = with_defaults cfg /\
     Logger.Out l = Logger.Single Logger.ToStdout) \/
  (Logger.LogFile cfg <> "" /\
   match r with
   | inl e => exists e', e = Wrap "failed to create log rotator" e' /\
       NewLogRotator (rotator_config (with_defaults cfg)) w = (inl e', w')
   | inr l => exists lr,
       NewLogRotator (rotator_config (with_defaults cfg)) w = (inr lr, w') /\
       Logger.rotator l = Some lr /\ Logger.config l = with_defaults cfg /\
       Logger.Formatter l = Logger.getFormatter (Logger.JSONFormat cfg) /\
       Logger.Out l =
         (if Logger.ConsoleOutput cfg
          then Logger.MultiWriter [Logger.ToRotator; Logger.ToStdout]
          else Logger.Single Logger.ToRotator)
   end).
Proof.
  unfold Logger.NewLogger. cbn [Logger.LogFile Logger.ConsoleOutput].
  destruct (String.eqb_spec (Logger.LogFile cfg) "") as [E|E]; cbn [negb].
  - intros [= <- <-]. left. split; [exact E |]. split; [reflexivity |].
    eexists. split; [reflexivity |]. split; [reflexivity |].
    split; [reflexivity |].
    cbn. destruct (Logger.ConsoleOutput cfg); reflexivity.
  - fold (with_defaults cfg).
    cbn [Logger.MaxSize Logger.MaxAge Logger.MaxBackups Logger.Compress
         Logger.RotateDaily Logger.JSONFormat].
    fold (with_defaults cfg).
    change (mkConfig _ _ _ _ _ _) with (rotator_config (with_defaults cfg)).
    intros H. right. split; [exact E |].
    destruct (NewLogRotator (rotator_config (with_defaults cfg)) w)
      as [[e|lr] w1]; injection H as <- <-.
    + eauto.
    + exists lr. split; [reflexivity |]. split; [reflexivity |].
      split; [reflexivity |]. split; [reflexivity |].
      cbn. destruct (Logger.ConsoleOutput cfg); reflexivity.
Qed.

Lemma with_defaults_nonzero cfg :
  Logger.MaxSize (with_defaults cfg) <> 0 /\
  Logger.MaxAge (with_defaults cfg) <> 0 /\
  Logger.MaxBackups (with_defaults cfg) <> 0.
Proof.
  cbn. unfold Hour, Second.
  destruct (Z.eqb_spec (Logger.MaxSize cfg) 0),
           (Z.eqb_spec (Logger.MaxAge cfg) 0),
           (Z.eqb_spec (Logger.MaxBackups cfg) 0); repeat split; lia.
Qed.

Lemma NewLogRotator_configured c w lr w' :
  Logger.MaxSize c <> 0 -> Logger.MaxAge c <> 0 -> Logger.MaxBackups c <> 0 ->
  NewLogRotator (rotator_config c) w = (inr lr, w') -> configured c lr.
Proof.
  intros Hs Ha Hb H.
  destruct (NewLogRotator_ok _ _ _ _ H) as (_ & Hp & Hms & Hma & Hmb & Hc & Hd).
  cbn in Hp, Hms, Hma, Hmb, Hc, Hd.
  apply Z.eqb_neq in Hs, Ha, Hb. rewrite Hs in Hms. rewrite Ha in Hma.
  rewrite Hb in Hmb. repeat split; assumption.
Qed.

(** X22. A logger without a log file. [NewLogger] touches nothing and
    cannot fail; the logger writes to the standard output, whether
    console output was asked for or not; [Close] and [Rotate] do nothing
    and report no error, and the statistics hold the configuration
    alone. *)
Theorem logger_without_file cfg w :
  Logger.LogFile cfg = "" ->
  exists l,
    Logger.NewLogger cfg w = (inr l, w) /\
    Logger.rotator l = None /\
    Logger.Out l = Logger.Single Logger.ToStdout /\
    (forall w', Logger.Close l w' = (None, w')) /\
    (forall w', Logger.Rotate l w' = (None, l, w')) /\
    Logger.GetStats l !! "rotator" = None /\
    Logger.GetStats l !! "config" =
      Some (Logger.ConfigValue (with_defaults cfg)) /\
    forall p w',
      Logger.Out_Write l p w' =
        Some (fst (FWrite Logger.Stdout p w'), l,
              snd (FWrite Logger.Stdout p w')).
Proof.
  intros E.
  destruct (Logger.NewLogger cfg w) as [r w'] eqn:H.
  destruct (NewLogger_cases cfg w r w' H)
    as [(_ & -> & l & -> & Hr & Hc & Ho)|[Hne _]]; [| contradiction].
  exists l. split; [reflexivity |]. split; [exact Hr |]. split; [exact Ho |].
  unfold Logger.Close, Logger.Rotate, Logger.GetStats, Logger.Out_Write.
  rewrite Hr, Ho, Hc.
  split; [reflexivity |]. split; [reflexivity |]. split; [reflexivity |].
  split; [apply lookup_insert_eq |].
  intros p w1. cbn. destruct (FWrite Logger.Stdout p w1). reflexivity.
Qed.

Lemma NewLogger_quiet cfg w :
  script w = [] -> exists l w', Logger.NewLogger cfg w = (inr l, w').
Proof.
  intros Hq.
  destruct (Logger.NewLogger cfg w) as [[e|l] w'] eqn:H; [| eauto].
  exfalso.
  destruct (NewLogger_cases cfg w _ w' H)
    as [(_ & _ & l & [=] & _)|[Hne (e' & _ & He)]].
  destruct (NewLogRotator_quiet (rotator_config (with_defaults cfg)) w Hq)
    as (lr & w1 & Hok); [exact Hne | congruence].
Qed.

(** X23. [NewLogger] fails only with its log file: its one error is the
    error of [NewLogRotator], wrapped, and where nothing fails it accepts
    every configuration, an unknown level name like any other. *)
Theorem NewLogger_fails_only_with_the_file cfg w :
  (forall e w', Logger.NewLogger cfg w = (inl e, w') ->
     Logger.LogFile cfg <> "" /\
     exists e', e = Wrap "failed to create log rotator" e' /\
       NewLogRotator (rotator_config (with_defaults cfg)) w = (inl e', w')) /\
  (script w = [] ->
   exists l w', Logger.NewLogger cfg w = (inr l, w') /\
     Logger.Level l = match Logrus.ParseLevel (Logger.LogLevel cfg) with
                      | inr level => level
                      | inl _ => Logrus.InfoLevel
                      end).
Proof.
  split.
  - intros e w' H.
    destruct (NewLogger_cases cfg w _ w' H)
      as [(_ & _ & l & [=] & _)|[Hne He]].
    split; [exact Hne | exact He].
  - intros Hq.
    assert (Hl : forall l w', Logger.NewLogger cfg w = (inr l, w') ->
              Logger.Level l = match Logrus.ParseLevel (Logger.LogLevel cfg) with
                               | inr level => level
                               | inl _ => Logrus.InfoLevel
                               end).
    { unfold Logger.NewLogger. intros l w'.
      destruct (negb _); [| intros [= <- <-]; reflexivity].
      destruct (NewLogRotator _ w) as [[e|lr] w1]; intros [= <- <-].
      reflexivity. }
    destruct (NewLogger_quiet cfg w Hq) as (l & w' & H). eauto.
Qed.

(** X24. The configuration of a logger with a log file and the settings
    of its rotator agree: [NewLogger] sets the defaults itself, so that
    the rotator is built from values other than 0 and takes them as they
    are; the statistics show this configuration and the statistics of the
    rotator; and a [Rotate] changes neither. *)
Theorem logger_config_agrees cfg w l w' :
  Logger.NewLogger cfg w = (inr l, w') ->
  Logger.LogFile cfg <> "" ->
  Logger.config l = with_defaults cfg /\
  exists lr,
    Logger.rotator l = Some lr /\ configured (Logger.config l) lr /\
    in_sync lr w' /\
    Logger.GetStats l !! "config" = Some (Logger.ConfigValue (Logger.config l)) /\
    Logger.GetStats l !! "rotator" = Some (Logger.RotatorValue (GetStats lr)) /\
    forall w1 r l1 w2,
      Logger.Rotate l w1 = (r, l1, w2) ->
      Logger.config l1 = Logger.config l /\ Logger.Out l1 = Logger.Out l /\
      exists lr1, Logger.rotator l1 = Some lr1 /\
                  configured (Logger.config l1) lr1 /\
                  (r = None -> in_sync lr1 w2).
Proof.
  intros H Hne.
  destruct (NewLogger_cases cfg w _ w' H)
    as [(E & _)|[_ (lr & Hnew & Hr & Hc & _ & _)]]; [contradiction |].
  split; [exact Hc |]. exists lr. split; [exact Hr |].
  destruct (with_defaults_nonzero cfg) as (Hs & Ha & Hb).
  assert (Hconf : configured (Logger.config l) lr).
  { rewrite Hc. exact (NewLogRotator_configured _ _ _ _ Hs Ha Hb Hnew). }
  split; [exact Hconf |].
  split; [exact (NewLogRotator_in_sync _ _ _ _ Hnew) |].
  unfold Logger.GetStats, Logger.Rotate. rewrite Hr.
  split; [rewrite lookup_insert_ne by done; apply lookup_insert_eq |].
  split; [apply lookup_insert_eq |].
  intros w1 r l1 w2. unfold Rotate.
  destruct (rotate lr w1) as [[r1 lr1] w3] eqn:Hrot. intros [= <- <- <-].
  cbn. split; [reflexivity |]. split; [reflexivity |].
  exists lr1. split; [reflexivity |].
  destruct (rotate_settings lr w1 _ _ _ Hrot) as (Hs' & _ & _).
  split.
  - unfold configured, same_settings in *. intuition congruence.
  - intros ->. apply rotate_in_sync in Hrot. apply Hrot.
Qed.

(** X25. With a log file and console output, the file comes first: a
    payload reaches the standard output only after the rotator has
    written all of it. A [Write] of the rotator that fails ends the
    output of the entry, and once the logger is closed nothing is
    printed any more. *)
Theorem console_follows_file cfg w0 l w1 lr p :
  Logger.NewLogger cfg w0 = (inr l, w1) ->
  Logger.LogFile cfg <> "" -> Logger.ConsoleOutput cfg = true ->
  Logger.rotator l = Some lr ->
  Logger.Out l = Logger.MultiWriter [Logger.ToRotator; Logger.ToStdout] /\
  (forall w n e lr' w',
     Write lr p w = ((n, Some e), lr', w') ->
     Logger.Out_Write l p w = Some ((n, Some e), Logger.set_rotator lr' l, w')) /\
  (forall w n lr' w',
     Write lr p w = ((n, None), lr', w') ->
     Logger.Out_Write l p w =
       Some (fst (FWrite Logger.Stdout p w'), Logger.set_rotator lr' l,
             snd (FWrite Logger.Stdout p w'))) /\
  let w2 := snd (Logger.Close l w1) in
  exists e w3,
    Logger.Out_Write l p w2 = Some ((O, Some e), l, w3) /\
    Is e ErrClosed = true /\ fs w3 = fs w2.
Proof.
  intros H Hne Hcon Hr.
  destruct (NewLogger_cases cfg w0 _ w1 H)
    as [(E & _)|[_ (lr0 & Hnew & Hr0 & _ & _ & Ho)]]; [contradiction |].
  rewrite Hcon in Ho. rewrite Hr in Hr0. injection Hr0 as <-.
  split; [exact Ho |].
  unfold Logger.Out_Write. rewrite Ho.
  cbn [Logger.multi_Write Logger.writer_Write]. rewrite Hr.
  split; [intros w n e lr' w' Hw; rewrite Hw; reflexivity |].
  split.
  - intros w n lr' w' Hw. rewrite Hw.
    assert (Hn : n = length p).
    { unfold Write in Hw.
      destruct (checkRotation lr w) as [[[e|] lr1] w3]; [discriminate |].
      destruct (file lr1) as [h|]; [| discriminate].
      destruct (FWrite h p w3) as [[n1 err] w4] eqn:Hf.
      destruct err; [discriminate |]. injection Hw as <- _ _.
      apply FWrite_spec in Hf as (_ & _ & _ & He & _). apply He. reflexivity. }
    rewrite Hn, Nat.eqb_refl. cbn [Logger.rotator Logger.set_rotator].
    destruct (FWrite Logger.Stdout p w') as [[n2 [e2|]] w5] eqn:Hf;
      cbn [fst snd]; [reflexivity |].
    apply FWrite_spec in Hf as (_ & _ & _ & He & _).
    destruct (He eq_refl) as [-> _]. rewrite Nat.eqb_refl. reflexivity.
  - cbv zeta. unfold Logger.Close. rewrite Hr.
    destruct (NewLogRotator_ok _ _ _ _ Hnew) as ((h & Hh & _) & _).
    assert (Hcl : holds_closed lr (snd (Close lr w1))).
    { exists h. split; [exact Hh |]. unfold Close. rewrite Hh.
      apply FClose_after. }
    destruct (Write_closed lr p _ Hcl) as (err & w3 & -> & Herr & Hfs & _).
    exists err, w3. split; [| split; assumption].
    destruct l as [o f lv r c]. cbn in Hr. subst r. reflexivity.
Qed.

(** X26. The three ready-made loggers. Where nothing fails each of them
    is built; none of their numbers is 0, so the rotator has exactly the
    numbers written in the constructor, with daily rotation; the default
    and the development logger write to the file and then to the
    standard output, as text; the production logger writes JSON to the
    file alone. *)
Theorem ready_made_loggers w :
  script w = [] ->
  (exists l w' lr,
     Logger.DefaultLogger w = (inr l, w') /\ Logger.rotator l = Some lr /\
     filePath lr = "logs/app.log" /\ maxSize lr = 104857600 /\
     maxAge lr = 604800 * Second /\ maxBackups lr = 5 /\
     compress lr = true /\ rotateDaily lr = true /\
     Logger.Out l = Logger.MultiWriter [Logger.ToRotator; Logger.ToStdout] /\
     Logger.Formatter l = Logrus.TextFormatter true Logger.RFC3339 false) /\
  (exists l w' lr,
     Logger.DevelopmentLogger w = (inr l, w') /\ Logger.rotator l = Some lr /\
     filePath lr = "logs/dev.log" /\ maxSize lr = 52428800 /\
     maxAge lr = 259200 * Second /\ maxBackups lr = 3 /\
     compress lr = false /\ rotateDaily lr = true /\
     Logger.Out l = Logger.MultiWriter [Logger.ToRotator; Logger.ToStdout] /\
     Logger.Formatter l = Logrus.TextFormatter true Logger.RFC3339 false) /\
  (exists l w' lr,
     Logger.ProductionLogger w = (inr l, w') /\ Logger.rotator l = Some lr /\
     filePath lr = "logs/production.log" /\ maxSize lr = 209715200 /\
     maxAge lr = 2592000 * Second /\ maxBackups lr = 10 /\
     compress lr = true /\ rotateDaily lr = true /\
     Logger.Out l = Logger.Single Logger.ToRotator /\
     Logger.Formatter l = Logrus.JSONFormatter Logger.RFC3339).
Proof.
  intros Hq.
  assert (Hgen : forall cfg,
            Logger.LogFile cfg <> "" ->
            exists l w' lr,
              Logger.NewLogger cfg w = (inr l, w') /\
              Logger.rotator l = Some lr /\ configured (with_defaults cfg) lr /\
              Logger.Out l =
                (if Logger.ConsoleOutput cfg
                 then Logger.MultiWriter [Logger.ToRotator; Logger.ToStdout]
                 else Logger.Single Logger.ToRotator) /\
              Logger.Formatter l = Logger.getFormatter (Logger.JSONFormat cfg)).
  { intros cfg Hne. destruct (NewLogger_quiet cfg w Hq) as (l & w' & H).
    destruct (NewLogger_cases cfg w _ w' H)
      as [(E & _)|[_ (lr & Hnew & Hr & Hc & Hf & Ho)]]; [contradiction |].
    exists l, w', lr. split; [exact H |]. split; [exact Hr |].
    destruct (with_defaults_nonzero cfg) as (Hs & Ha & Hb).
    split; [exact (NewLogRotator_configured _ _ _ _ Hs Ha Hb Hnew) |].
    split; [exact Ho | exact Hf]. }
  unfold Logger.DefaultLogger, Logger.DevelopmentLogger, Logger.ProductionLogger.
  split; [| split];
    match goal with |- context [Logger.NewLogger ?c w] =>
      destruct (Hgen c) as (l & w' & lr & H & Hr & Hc & Ho & Hf); [discriminate |]
    end;
    exists l, w', lr; destruct Hc as (H1 & H2 & H3 & H4 & H5 & H6);
    repeat (split; [assumption || (rewrite ?H2, ?H3; reflexivity) |]);
    assumption.
Qed.

End LoggerFacts.

Lemma logger_without_file_witness :
  Logger.LogFile console_config = "" /\
  exists l,
    Logger.NewLogger console_config Sample.quiet = (inr l, Sample.quiet) /\
    Logger.rotator l = None /\
    Logger.Out l = Logger.Single Logger.ToStdout /\
    (forall w', Logger.Close l w' = (None, w')) /\
    (forall w', Logger.Rotate l w' = (None, l, w')) /\
    Logger.GetStats l !! "rotator" = None /\
    Logger.GetStats l !! "config" =
      Some (Logger.ConfigValue (with_defaults console_config)) /\
    forall p w',
      Logger.Out_Write l p w' =
        Some (fst (FWrite Logger.Stdout p w'), l,
              snd (FWrite Logger.Stdout p w')).
Proof.
  split; [reflexivity |].
  exact (logger_without_file console_config Sample.quiet eq_refl).
Defined.

Lemma logger_config_agrees_witness :
  Logger.NewLogger app_logger_config Sample.quiet = (inr app_logger, app_world) /\
  Logger.LogFile app_logger_config <> "" /\
  Logger.config app_logger = with_defaults app_logger_config /\
  exists lr,
    Logger.rotator app_logger = Some lr /\
    configured (Logger.config app_logger) lr /\
    in_sync lr app_world /\
    Logger.GetStats app_logger !! "config"
      = Some (Logger.ConfigValue (Logger.config app_logger)) /\
    Logger.GetStats app_logger !! "rotator"
      = Some (Logger.RotatorValue (GetStats lr)) /\
    forall w1 r l1 w2,
      Logger.Rotate app_logger w1 = (r, l1, w2) ->
      Logger.config l1 = Logger.config app_logger /\
      Logger.Out l1 = Logger.Out app_logger /\
      exists lr1, Logger.rotator l1 = Some lr1 /\
                  configured (Logger.config l1) lr1 /\
                  (r = None -> in_sync lr1 w2).
Proof.
  assert (H : Logger.NewLogger app_logger_config Sample.quiet
              = (inr app_logger, app_world)) by (vm_compute; reflexivity).
  assert (Hne : Logger.LogFile app_logger_config <> "") by discriminate.
  split; [exact H |]. split; [exact Hne |].
  exact (logger_config_agrees app_logger_config Sample.quiet _ _ H Hne).
Defined.

Lemma console_follows_file_witness :
  Logger.NewLogger app_logger_config Sample.quiet = (inr app_logger, app_world) /\
  Logger.LogFile app_logger_config <> "" /\
  Logger.ConsoleOutput app_logger_config = true /\
  Logger.rotator app_logger = Some app_rotator /\
  Logger.Out app_logger
    = Logger.MultiWriter [Logger.ToRotator; Logger.ToStdout] /\
  (forall w n e lr' w',
     Write app_rotator ten_bytes w = ((n, Some e), lr', w') ->
     Logger.Out_Write app_logger ten_bytes w
       = Some ((n, Some e), Logger.set_rotator lr' app_logger, w')) /\
  (forall w n lr' w',
     Write app_rotator ten_bytes w = ((n, None), lr', w') ->
     Logger.Out_Write app_logger ten_bytes w =
       Some (fst (FWrite Logger.Stdout ten_bytes w'),
             Logger.set_rotator lr' app_logger,
             snd (FWrite Logger.Stdout ten_bytes w'))) /\
  let w2 := snd (Logger.Close app_logger app_world) in
  exists e w3,
    Logger.Out_Write app_logger ten_bytes w2 = Some ((O, Some e), app_logger, w3) /\
    Is e ErrClosed = true /\ fs w3 = fs w2.
Proof.
  assert (H : Logger.NewLogger app_logger_config Sample.quiet
              = (inr app_logger, app_world)) by (vm_compute; reflexivity).
  assert (Hne : Logger.LogFile app_logger_config <> "") by discriminate.
  split; [exact H |]. split; [exact Hne |]. split; [reflexivity |].
  split; [reflexivity |].
  exact (console_follows_file app_logger_config Sample.quiet _ _ _ ten_bytes
           H Hne eq_refl eq_refl).
Defined.

Lemma ready_made_loggers_witness :
  script Sample.quiet = [] /\
  (exists l w' lr,
     Logger.DefaultLogger Sample.quiet = (inr l, w') /\
     Logger.rotator l = Some lr /\
     filePath lr = "logs/app.log" /\ maxSize lr = 104857600 /\
     maxAge lr = 604800 * Second /\ maxBackups lr = 5 /\
     compress lr = true /\ rotateDaily lr = true /\
     Logger.Out l = Logger.MultiWriter [Logger.ToRotator; Logger.ToStdout] /\
     Logger.Formatter l = Logrus.TextFormatter true Logger.RFC3339 false) /\
  (exists l w' lr,
     Logger.DevelopmentLogger Sample.quiet = (inr l, w') /\
     Logger.rotator l = Some lr /\
     filePath lr = "logs/dev.log" /\ maxSize lr = 52428800 /\
     maxAge lr = 259200 * Second /\ maxBackups lr = 3 /\
     compress lr = false /\ rotateDaily lr = true /\
     Logger.Out l = Logger.MultiWriter [Logger.ToRotator; Logger.ToStdout] /\
     Logger.Formatter l = Logrus.TextFormatter true Logger.RFC3339 false) /\
  (exists l w' lr,
     Logger.ProductionLogger Sample.quiet = (inr l, w') /\
     Logger.rotator l = Some lr /\
     filePath lr = "logs/production.log" /\ maxSize lr = 209715200 /\
     maxAge lr = 2592000 * Second /\ maxBackups lr = 10 /\
     compress lr = true /\ rotateDaily lr = true /\
     Logger.Out l = Logger.Single Logger.ToRotator /\
     Logger.Formatter l = Logrus.JSONFormatter Logger.RFC3339).
Proof.
  split; [reflexivity |].
  exact (ready_made_loggers Sample.quiet eq_refl).
Defined.
